(** * tempjacleaner: extraction offsets, detectors, fix application, scan cache

    A shallow embedding of the core of the [tempjacleaner] package
    (japanese_extractor.py, comments.py, advanced_rules.py, checker.py,
    fixer.py, cache.py, and of typo_rules.py, file_scanner.py, morph.py
    and cli.py the parts that work on text) together with the properties
    its specification states about it and further properties of the code.

    Python [str] values are sequences of Unicode code points; they are
    modelled as [list Z].  Offsets are Python integers, modelled as [Z].
    Regular expressions are given as syntax trees and run by a
    backtracking matcher that follows the matching order of Python's
    [re] module (ordered alternation, greedy and lazy repetition). *)

From stdpp Require Import gmap strings.
From Stdlib Require Import ZArith QArith Lia List Bool Sorted Permutation.
From Stdlib Require Ascii String DecimalString DecimalZ.
Import ListNotations.
Open Scope Z_scope.

(* ===================================================================== *)
(** * Part I.  The model                                                   *)
(* ===================================================================== *)

(** ** Python strings *)

Abbreviation str := (list Z) (only parsing).

Definition len (s : str) : Z := Z.of_nat (length s).

(** UTF-8 decoding, used only to write the source's string constants the
    way the source writes them. *)
Fixpoint bytes_of (s : String.string) : list Z :=
  match s with
  | String.EmptyString => []
  | String.String a t => Z.of_N (Ascii.N_of_ascii a) :: bytes_of t
  end.

Fixpoint utf8 (l : list Z) : str :=
  match l with
  | [] => []
  | b0 :: t =>
    if b0 <? 0x80 then b0 :: utf8 t
    else match t with
         | [] => []
         | b1 :: t1 =>
           if b0 <? 0xE0 then ((b0 - 0xC0) * 64 + (b1 - 0x80)) :: utf8 t1
           else match t1 with
                | [] => []
                | b2 :: t2 =>
                  if b0 <? 0xF0
                  then ((b0 - 0xE0) * 4096 + (b1 - 0x80) * 64 + (b2 - 0x80)) :: utf8 t2
                  else match t2 with
                       | [] => []
                       | b3 :: t3 =>
                         ((b0 - 0xF0) * 262144 + (b1 - 0x80) * 4096
                          + (b2 - 0x80) * 64 + (b3 - 0x80)) :: utf8 t3
                       end
                end
         end
  end.

Definition u (s : String.string) : str := utf8 (bytes_of s).

(** [s[a:b]] with Python's treatment of negative and out-of-range bounds. *)
Definition clamp_index (n i : Z) : Z :=
  if i <? 0 then Z.max 0 (i + n) else Z.min i n.

Definition py_slice (s : str) (a b : Z) : str :=
  let a' := clamp_index (len s) a in
  let b' := clamp_index (len s) b in
  firstn (Z.to_nat (b' - a')) (skipn (Z.to_nat a') s).

(** [s[:b]] and [s[a:]]. *)
Definition slice_to (s : str) (b : Z) : str := py_slice s 0 b.
Definition slice_from (s : str) (a : Z) : str := py_slice s a (len s).

Definition str_eqb (a b : str) : bool :=
  if list_eq_dec Z.eq_dec a b then true else false.

Fixpoint starts_with (s p : str) {struct p} : bool :=
  match p, s with
  | [], _ => true
  | c :: p', d :: s' => (c =? d) && starts_with s' p'
  | _ :: _, [] => false
  end.

(** [sub in s] *)
Fixpoint contains (s sub : str) : bool :=
  starts_with s sub || match s with [] => false | _ :: t => contains t sub end.

(** [s.count(sub)] for a non-empty [sub]: occurrences counted left to
    right without overlap. *)
Fixpoint count_from (sub : str) (skip : nat) (s : str) : Z :=
  match s with
  | [] => 0
  | _ :: t =>
    match skip with
    | S k => count_from sub k t
    | O => if starts_with s sub then 1 + count_from sub (length sub - 1) t
           else count_from sub 0 t
    end
  end.
Definition str_count (s sub : str) : Z := count_from sub 0 s.

(** Truthiness of an optional string: [None] and the empty string are
    falsy. *)
Definition truthy (o : option str) : bool :=
  match o with Some (_ :: _) => true | _ => false end.

(** ** Regular expressions *)

Inductive re : Type :=
| Eps
| Cls (p : Z -> bool)                       (* one code point in a class *)
| Seq (a b : re)
| Alt (a b : re)                            (* a|b, a tried first *)
| Rep (greedy : bool) (lo : nat) (hi : option nat) (a : re)
| Look (positive : bool) (a : re)           (* (?=a) and (?!a) *)
| Behind (positive : bool) (p : Z -> bool)  (* (?<=[p]) and (?<![p]) *)
| Bol (multiline : bool)                    (* ^ *)
| Eol (multiline : bool)                    (* $ *)
| WordB (w : Z -> bool)                     (* \b for the word class w *)
| Group (n : nat) (a : re)
| Backref (n : nat).

(** Matcher state: the code point before the cursor, the text from the
    cursor on, and the groups captured so far. *)
Record mstate := MState {
  m_prev : option Z;
  m_rest : list Z;
  m_caps : list (nat * list Z)
}.

Fixpoint cap_lookup (n : nat) (caps : list (nat * list Z)) : option (list Z) :=
  match caps with
  | [] => None
  | (i, g) :: t => if Nat.eqb i n then Some g else cap_lookup n t
  end.

Definition below (hi : option nat) (i : nat) : bool :=
  match hi with None => true | Some h => Nat.ltb i h end.

Definition is_newline (c : Z) : bool := c =? 10.

Definition opt_test (p : Z -> bool) (o : option Z) : bool :=
  match o with Some c => p c | None => false end.

Fixpoint advance (g : list Z) (s : mstate) : option mstate :=
  match g with
  | [] => Some s
  | c :: g' =>
    match m_rest s with
    | d :: t => if c =? d then advance g' (MState (Some d) t (m_caps s)) else None
    | [] => None
    end
  end.

(** The loop of a repetition [a{lo,hi}]: [body] matches [a], [i] counts
    the iterations done.  A greedy loop tries one more iteration before
    it tries to stop, a lazy loop the other way round; an iteration
    that consumes nothing ends the loop.  [fuel] bounds the number of
    iterations by the length of the remaining text, which no loop of
    consuming iterations can exceed. *)
Fixpoint rep_loop (body : (mstate -> option mstate) -> mstate -> option mstate)
  (k : mstate -> option mstate) (greedy : bool) (lo : nat) (hi : option nat)
  (fuel i : nat) (s : mstate) {struct fuel} : option mstate :=
  match fuel with
  | O => if Nat.leb lo i then k s else None
  | S f =>
    let more (_ : unit) :=
      if below hi i
      then body (fun s' =>
             if Nat.ltb (length (m_rest s')) (length (m_rest s))
             then rep_loop body k greedy lo hi f (S i) s' else None) s
      else None in
    let stop (_ : unit) := if Nat.leb lo i then k s else None in
    if greedy
    then match more tt with Some x => Some x | None => stop tt end
    else match stop tt with Some x => Some x | None => more tt end
  end.

(** Backtracking matcher in continuation-passing style.  [rmatch r k s]
    matches [r] at [s] and hands the state after the match to [k]; when
    [k] fails the next way of matching [r] is tried, in Python's order. *)
Fixpoint rmatch (r : re) (k : mstate -> option mstate) (s : mstate) : option mstate :=
  match r with
  | Eps => k s
  | Cls p =>
    match m_rest s with
    | c :: t => if p c then k (MState (Some c) t (m_caps s)) else None
    | [] => None
    end
  | Seq a b => rmatch a (rmatch b k) s
  | Alt a b =>
    match rmatch a k s with
    | Some x => Some x
    | None => rmatch b k s
    end
  | Rep greedy lo hi a =>
    rep_loop (rmatch a) k greedy lo hi (S (length (m_rest s))) O s
  | Look positive a =>
    match rmatch a Some s with
    | Some _ => if positive then k s else None
    | None => if positive then None else k s
    end
  | Behind positive p =>
    if Bool.eqb (opt_test p (m_prev s)) positive then k s else None
  | Bol multiline =>
    match m_prev s with
    | None => k s
    | Some c => if multiline && is_newline c then k s else None
    end
  | Eol multiline =>
    match m_rest s with
    | [] => k s
    | c :: t =>
      if is_newline c && (multiline || match t with [] => true | _ => false end)
      then k s else None
    end
  | WordB w =>
    if xorb (opt_test w (m_prev s)) (opt_test w (head (m_rest s))) then k s else None
  | Group n a =>
    rmatch a (fun s' =>
      let g := firstn (length (m_rest s) - length (m_rest s')) (m_rest s) in
      k (MState (m_prev s') (m_rest s') ((n, g) :: m_caps s'))) s
  | Backref n =>
    match cap_lookup n (m_caps s) with
    | Some g => match advance g s with Some s' => k s' | None => None end
    | None => None
    end
  end.

(** Class and pattern helpers. *)
Definition in_range (lo hi c : Z) : bool := (lo <=? c) && (c <=? hi).
Definition one_of (l : list Z) (c : Z) : bool := existsb (Z.eqb c) l.
Definition chr (c : Z) : re := Cls (Z.eqb c).
Definition any_char : re := Cls (fun _ => true).          (* . with DOTALL *)
Definition dot : re := Cls (fun c => negb (is_newline c)). (* . *)
Definition star (a : re) : re := Rep true 0 None a.
Definition plus (a : re) : re := Rep true 1 None a.
Definition lazy_star (a : re) : re := Rep false 0 None a.
Definition lazy_plus (a : re) : re := Rep false 1 None a.
Definition at_least (n : nat) (a : re) : re := Rep true n None a.
Definition opt (a : re) : re := Rep true 0 (Some 1%nat) a.

Fixpoint lit (s : str) : re :=
  match s with
  | [] => Eps
  | c :: t => Seq (chr c) (lit t)
  end.

Fixpoint alts (l : list re) : re :=
  match l with
  | [] => Cls (fun _ => false)
  | [a] => a
  | a :: t => Alt a (alts t)
  end.

(** A match object: [m.start()], [m.end()], [m.group(0)] and the groups. *)
Record match_obj := MatchObj {
  mo_start : Z;
  mo_end : Z;
  mo_group0 : list Z;
  mo_groups : list (nat * list Z)
}.

Definition match_here (r : re) (pos : nat) (prev : option Z) (rest : str)
  : option match_obj :=
  match rmatch r Some (MState prev rest []) with
  | Some s' =>
    let n := (length rest - length (m_rest s'))%nat in
    Some (MatchObj (Z.of_nat pos) (Z.of_nat (pos + n)) (firstn n rest) (m_caps s'))
  | None => None
  end.

(** [pattern.search(text)]: the leftmost match. *)
Fixpoint search_from (r : re) (pos : nat) (prev : option Z) (rest : str)
  : option match_obj :=
  match match_here r pos prev rest with
  | Some m => Some m
  | None =>
    match rest with
    | [] => None
    | c :: t => search_from r (S pos) (Some c) t
    end
  end.

Definition re_search (r : re) (text : str) : option match_obj :=
  search_from r 0 None text.

Definition found (r : re) (text : str) : bool :=
  match re_search r text with Some _ => true | None => false end.

(** [pattern.finditer(text)]: successive leftmost matches, each search
    starting where the previous match ended.  [skip] counts the code
    points of the previous match still to be passed.  (After an empty
    match the scan moves on by one code point; none of the patterns of
    this program that are used with [finditer] can match the empty
    string.) *)
Fixpoint finditer_from (r : re) (pos : nat) (prev : option Z) (rest : str)
  (skip : nat) : list match_obj :=
  match skip with
  | S k =>
    match rest with
    | [] => []
    | c :: t => finditer_from r (S pos) (Some c) t k
    end
  | O =>
    match match_here r pos prev rest with
    | Some m =>
      m :: match rest with
           | [] => []
           | c :: t => finditer_from r (S pos) (Some c) t (length (mo_group0 m) - 1)
           end
    | None =>
      match rest with
      | [] => []
      | c :: t => finditer_from r (S pos) (Some c) t 0
      end
    end
  end.

Definition finditer (r : re) (text : str) : list match_obj :=
  finditer_from r 0 None text 0.

(** [pattern.fullmatch(text)] *)
Definition fullmatch (r : re) (text : str) : option mstate :=
  rmatch r (fun s => match m_rest s with [] => Some s | _ => None end)
         (MState None text []).

(** A lower bound on the number of code points a match consumes. *)
Fixpoint min_len (r : re) : nat :=
  match r with
  | Cls _ => 1
  | Seq a b => min_len a + min_len b
  | Alt a b => Nat.min (min_len a) (min_len b)
  | Rep _ lo _ a => match lo with O => 0 | S _ => min_len a end
  | Group _ a => min_len a
  | _ => 0
  end%nat.

(** ** japanese_extractor.py *)

(** [[぀-ヿ㐀-鿿豈-﫿　-〿]] *)
Definition jp_class (c : Z) : bool :=
  in_range 0x3040 0x30FF c || in_range 0x3400 0x9FFF c
  || in_range 0xF900 0xFAFF c || in_range 0x3000 0x303F c.

(** [[A-Za-z0-9぀-ヿ㐀-鿿豈-﫿　-〿]] *)
Definition jp_alnum_class (c : Z) : bool :=
  in_range 65 90 c || in_range 97 122 c || in_range 48 57 c
  || in_range 0x3040 0x30FF c || in_range 0x3400 0x9FFF c
  || in_range 0xF900 0xFAFF c || in_range 0x3000 0x303F c.

Definition _JP_BLOCK_RE : re :=
  Seq (plus (Cls jp_class)) (star (plus (Cls jp_alnum_class))).

Definition quote_class (c : Z) : bool := one_of [34; 39] c.
Definition backslash : Z := 92.

(** A quote character (single or double) as group 1, then lazily any
    number of [(?=\\)\\.] or [(?!\1).], then [\1]. *)
Definition _STRING_RE : re :=
  Seq (Group 1 (Cls quote_class))
      (Seq (lazy_star (Alt (Seq (Look true (chr backslash)) (Seq (chr backslash) dot))
                           (Seq (Look false (Backref 1)) dot)))
           (Backref 1)).

(** A span with its content: the triples the extractors yield. *)
Definition span : Type := Z * Z * list Z.

Definition span_of (m : match_obj) : span := (mo_start m, mo_end m, mo_group0 m).

Definition extract_string_literals (code : str) : list span :=
  map span_of (finditer _STRING_RE code).

Definition extract_japanese_blocks (text : str) : list span :=
  map span_of (finditer _JP_BLOCK_RE text).

Definition extract_japanese_from_code (code : str) : list span :=
  flat_map (fun lit_span : span =>
    let '(s_start, s_end, literal) := lit_span in
    let inner := py_slice literal 1 (-1) in
    map (fun b : span =>
           let '(j_start, j_end, block) := b in
           (s_start + 1 + j_start, s_start + 1 + j_end, block))
        (extract_japanese_blocks inner))
    (extract_string_literals code).

(** ** comments.py *)

Definition not_newline (c : Z) : bool := negb (is_newline c).

(** [#[^\n]*] *)
Definition _LINE_HASH : re := Seq (chr 35) (star (Cls not_newline)).
(** [//[^\n]*] *)
Definition _LINE_SLASH : re := Seq (lit [47; 47]) (star (Cls not_newline)).
(** [/\*.*?\*/] with DOTALL *)
Definition _BLOCK : re := Seq (lit [47; 42]) (Seq (lazy_star any_char) (lit [42; 47])).

Definition extract_comments (text : str) : list span :=
  map span_of (finditer _LINE_HASH text)
  ++ map span_of (finditer _LINE_SLASH text)
  ++ map span_of (finditer _BLOCK text).

(** ** Hits and issues *)

Inductive severity : Type := INFO | WARN | ERROR.

(** The dictionaries the rule providers yield.  [h_severity = None]
    stands for a dictionary without the key. *)
Record hit := Hit {
  h_start : Z;
  h_end : Z;
  h_match : list Z;
  h_message : list Z;
  h_suggestion : option (list Z);
  h_severity : option severity;
  h_rule_id : option (list Z)
}.

(** checker.py, [class Issue] *)
Record Issue := MkIssue {
  i_file : option String.string;
  i_start : Z;
  i_end : Z;
  i_snippet : list Z;
  i_message : list Z;
  i_suggestion : option (list Z);
  i_severity : severity;
  i_rule_id : option (list Z)
}.

(** ** typo_rules.py *)

Record TypoPattern := MkTypoPattern {
  tp_pattern : re;
  tp_message : list Z;
  tp_suggestion : option (list Z);
  tp_severity : severity;
  tp_rule_id : option (list Z)
}.

(** [TypoPattern.finditer] *)
Definition tp_finditer (p : TypoPattern) (text : str) : list hit :=
  map (fun m => Hit (mo_start m) (mo_end m) (mo_group0 m) (tp_message p)
                    (tp_suggestion p) (Some (tp_severity p)) (tp_rule_id p))
      (finditer (tp_pattern p) text).

(** [run_rules], over the registry [get_patterns()] returns. *)
Definition run_rules (patterns : list TypoPattern) (text : str) : list hit :=
  flat_map (fun pat => tp_finditer pat text) patterns.

(** ** Exceptions *)

(** The outcome of a call that may raise: a value, or an exception
    derived from Python's [Exception]. *)
Inductive result (A : Type) : Type :=
| Ok (a : A)
| Raise.
Arguments Ok {A} a.
Arguments Raise {A}.

Definition bind {A B} (x : result A) (f : A -> result B) : result B :=
  match x with
  | Ok a => f a
  | Raise => Raise
  end.

Notation "x <- c ;; k" := (bind c (fun x => k))
  (at level 100, c at next level, right associativity).

(** [try: body / except Exception: handler] *)
Definition try_except {A} (body handler : result A) : result A :=
  match body with
  | Ok a => Ok a
  | Raise => handler
  end.

(** ** cache.py *)

(** What [json.loads] can return: a JSON object, whose values are
    strings or something else, or a value that is not an object. *)
Inductive pyval : Type :=
| PyStr (s : string)
| PyOther.

Inductive loaded : Type :=
| Dict (d : gmap string pyval)
| NotDict.

Definition DEFAULT_CACHE : string := ".tempjacleaner_cache.json".

(** [str(n)] for an integer. *)
Definition string_of_Z (z : Z) : string :=
  DecimalString.NilZero.string_of_int (Z.to_int z).

Record stat_result := Stat { st_mtime_ns : Z; st_size : Z }.

(** [file_fingerprint]: the modification time and the size, joined by a
    colon.  [stat] is the file system's answer for each path. *)
Definition file_fingerprint (stat : string -> stat_result) (path : string) : string :=
  String.append (string_of_Z (st_mtime_ns (stat path)))
    (String.append ":" (string_of_Z (st_size (stat path)))).

Section CacheFile.
  (** The file system as [load_cache] sees it: [Path(root) / filename],
      [Path.is_file], [Path.read_text], and [json.loads]. *)
  Variable path_join : string -> string -> string.
  Variable is_file : string -> bool.
  Variable path_read_text : string -> result string.
  Variable json_loads : string -> result loaded.

Definition load_cache (root filename : string) : result loaded :=
    let p := path_join root filename in
    if negb (is_file p) then Ok (Dict ∅)
    else try_except (s <- path_read_text p ;; json_loads s) (Ok (Dict ∅)).
End CacheFile.

(** [cache.get(key) == fp]; [.get] raises AttributeError on a value
    that is not a dictionary. *)
Definition cache_get_eq (cache : loaded) (key fp : string) : result bool :=
  match cache with
  | Dict d =>
    Ok (match d !! key with
        | Some (PyStr s) => String.eqb s fp
        | _ => false
        end)
  | NotDict => Raise
  end.

(** [cache[key] = fp].  The source reaches it with a dictionary only. *)
Definition cache_set (cache : loaded) (key fp : string) : loaded :=
  match cache with
  | Dict d => Dict (<[key := PyStr fp]> d)
  | NotDict => NotDict
  end.

(** ** checker.py: [_gather_spans] and [check_text] *)

Definition _gather_spans (text : str) (from_code include_comments : bool) : list span :=
  (if from_code then extract_japanese_from_code text else extract_japanese_blocks text)
  ++ (if include_comments
      then flat_map (fun c : span =>
             let '(c_start, c_end, comment) := c in
             map (fun b : span =>
                    let '(j_start, j_end, block) := b in
                    (c_start + j_start, c_start + j_end, block))
                 (extract_japanese_blocks comment))
             (extract_comments text)
      else []).

(** The keyword arguments of [check_text]. *)
Record check_opts := CheckOpts {
  from_code : bool;
  file : option String.string;
  include_comments : bool;
  morph : bool;
  advanced : bool;
  lt : bool;
  lt_lang : list Z;
  nlp : bool;
  nlp_model : list Z;
  spell : bool;
  dict_words : option (list (list Z));
  semantic : bool
}.

Definition nonempty {A} (o : option (list A)) : bool :=
  match o with Some (_ :: _) => true | _ => false end.

Section CheckText.
  (** The rule registry of typo_rules.py: the built-in patterns, the
      bundled variants file and the rule files added at start-up. *)
  Variable _PATTERNS : list TypoPattern.
  (** The detectors of advanced_rules.py. *)
  Variable run_advanced : list Z -> list hit.
  Variable detect_style_mixed_lines : list Z -> option hit.
  (** The optional collaborators: tokenizer, grammar checker, semantic
      analyzer, spell checker.  A token without a surface is a pair. *)
  Variable morph_available lt_available nlp_available spell_available : bool.
  Variable tokenize_with_spans : list Z -> list (Z * Z * option (list Z)).
  Variable run_languagetool : list Z -> list Z -> list hit.
  Variable run_nlp : list Z -> list Z -> list hit.
  Variable run_spellcheck : list Z -> list (list Z) -> list hit.

  (** The [Issue(...)] built for one hit found in a span starting at [s2]. *)
Definition issue_of_hit (o : check_opts) (text : str) (s2 : Z)
    (default_severity : severity) (h : hit) : Issue :=
    let rel_start := s2 + h_start h in
    let rel_end := s2 + h_end h in
    MkIssue (file o) rel_start rel_end (py_slice text rel_start rel_end)
            (h_message h) (h_suggestion h)
            (match h_severity h with Some v => v | None => default_severity end)
            (h_rule_id h).

Definition subspans (o : check_opts) (sp : span) : list span :=
    let '(start, end_, jp) := sp in
    if morph o && morph_available
    then map (fun t : Z * Z * option (list Z) =>
                let '(s, e, surf) := t in
                (start + s, start + e,
                 match surf with Some x => x | None => py_slice jp s e end))
             (tokenize_with_spans jp)
    else [(start, end_, jp)].

  (** The hits of every enabled provider on one sub-span, in the order
      the source runs the providers, each with its default severity. *)
Definition provider_hits (o : check_opts) (jp2 : str) : list (severity * hit) :=
    map (pair WARN) (run_rules _PATTERNS jp2)
    ++ (if advanced o then map (pair INFO) (run_advanced jp2) else [])
    ++ (if lt o && lt_available
        then map (pair INFO) (run_languagetool jp2 (lt_lang o)) else [])
    ++ (if (nlp o || semantic o) && nlp_available
        then map (pair INFO) (run_nlp jp2 (nlp_model o)) else [])
    ++ (if spell o && spell_available && nonempty (dict_words o)
        then map (pair INFO)
                 (run_spellcheck jp2 (match dict_words o with Some d => d | None => [] end))
        else []).

Definition span_issues (o : check_opts) (text : str) (sub : span) : list Issue :=
    let '(s2, e2, jp2) := sub in
    map (fun dh : severity * hit => issue_of_hit o text s2 (fst dh) (snd dh))
        (provider_hits o jp2).

Definition style_issue (o : check_opts) (text : str) : list Issue :=
    if advanced o
    then match detect_style_mixed_lines text with
         | Some h => [issue_of_hit o text 0 WARN h]
         | None => []
         end
    else [].

Definition check_text (o : check_opts) (text : str) : list Issue :=
    flat_map (fun sp => flat_map (span_issues o text) (subspans o sp))
             (_gather_spans text (from_code o) (include_comments o))
    ++ style_issue o text.

  (** *** [check_file] and [check_paths] *)

  (** The file system and the scheduler: [iter_files], [Path.stat],
      file_scanner's [read_text] ([Ok None] for a file that cannot be
      read or decoded, [Raise] for an exception it does not catch),
      [Path.cwd()], the spell checker's [load_dict], and the order in
      which the futures of the worker pool complete. *)
  Variable iter_files : list string -> list string.
  Variable stat : string -> stat_result.
  Variable read_text : string -> result (option (list Z)).
  Variable cwd : string.
  Variable load_dict : list string -> result (list (list Z)).
  Variable completion_order : list (string * string) -> list (string * string).
  Variable path_join : string -> string -> string.
  Variable is_file : string -> bool.
  Variable path_read_text : string -> result string.
  Variable json_loads : string -> result loaded.

  (** [check_file(path, ...)]: the options of [o] other than [from_code]
      and [file], which [check_file] sets itself. *)
Definition file_opts (o : check_opts) (path : string) : check_opts :=
    CheckOpts true (Some path) (include_comments o) (morph o) (advanced o)
              (lt o) (lt_lang o) (nlp o) (nlp_model o) (spell o) (dict_words o)
              (semantic o).

Definition check_file (o : check_opts) (path : string) : result (list Issue) :=
    content <- read_text path ;;
    match content with
    | None => Ok []
    | Some c => Ok (check_text (file_opts o path) c)
    end.

  (** The first loop of [check_paths]: the files to scan, each with its
      fingerprint. *)
Fixpoint select_to_scan (use_cache : bool) (cache : loaded) (files : list string)
    : result (list (string * string)) :=
    match files with
    | [] => Ok []
    | f :: t =>
      let fp := file_fingerprint stat f in
      skip <- (if use_cache then cache_get_eq cache f fp else Ok false) ;;
      rest <- select_to_scan use_cache cache t ;;
      Ok (if skip : bool then rest else (f, fp) :: rest)
    end.

  (** The serial loop ([jobs] at most 1). *)
Fixpoint scan_serial (o : check_opts) (use_cache : bool)
    (to_scan : list (string * string)) (results : list Issue) (cache : loaded)
    : result (list Issue * loaded) :=
    match to_scan with
    | [] => Ok (results, cache)
    | (key, fp) :: t =>
      res <- check_file o key ;;
      scan_serial o use_cache t (results ++ res)
                  (if use_cache then cache_set cache key fp else cache)
    end.

  (** The loop over the completed futures ([jobs] above 1). *)
Fixpoint scan_parallel (o : check_opts) (use_cache : bool)
    (completed : list (string * string)) (results : list Issue) (cache : loaded)
    : list Issue * loaded :=
    match completed with
    | [] => (results, cache)
    | (key, fp) :: t =>
      let res := match check_file o key with Ok r => r | Raise => [] end in
      scan_parallel o use_cache t (results ++ res)
                    (if use_cache then cache_set cache key fp else cache)
    end.

Definition with_dict_words (o : check_opts) (w : option (list (list Z))) : check_opts :=
    CheckOpts (from_code o) (file o) (include_comments o) (morph o) (advanced o)
              (lt o) (lt_lang o) (nlp o) (nlp_model o) (spell o) w (semantic o).

Definition load_dict_words (o : check_opts) (dict_files : option (list string))
    : option (list (list Z)) :=
    match dict_files with
    | Some (f :: fs) =>
      if spell o
      then match load_dict (f :: fs) with Ok w => Some w | Raise => None end
      else None
    | _ => None
    end.

  (** [check_paths]: the issues it returns and, with caching enabled, the
      map it hands to [save_cache]. *)
Definition check_paths (o : check_opts) (jobs : Z) (use_cache : bool)
    (dict_files : option (list string)) (paths : list string)
    : result (list Issue * option loaded) :=
    let files := iter_files paths in
    cache <- (if use_cache
              then load_cache path_join is_file path_read_text json_loads cwd DEFAULT_CACHE
              else Ok (Dict ∅)) ;;
    to_scan <- select_to_scan use_cache cache files ;;
    let o' := with_dict_words o (load_dict_words o dict_files) in
    rc <- (if jobs >? 1
           then Ok (scan_parallel o' use_cache (completion_order to_scan) [] cache)
           else scan_serial o' use_cache to_scan [] cache) ;;
    Ok (fst rc, if use_cache then Some (snd rc) else None).

End CheckText.

(** ** More of Python's [str] *)

(** [str.isspace] for one code point; also the class [\s]. *)
Definition is_space (c : Z) : bool :=
  in_range 9 13 c || in_range 0x1C 0x20 c || (c =? 0x85) || (c =? 0xA0)
  || (c =? 0x1680) || in_range 0x2000 0x200A c || (c =? 0x2028) || (c =? 0x2029)
  || (c =? 0x202F) || (c =? 0x205F) || (c =? 0x3000).

Fixpoint lstrip (s : str) : str :=
  match s with
  | [] => []
  | c :: t => if is_space c then lstrip t else s
  end.
Definition rstrip (s : str) : str := rev (lstrip (rev s)).
Definition strip (s : str) : str := rstrip (lstrip s).

(** The line boundaries of [str.splitlines]. *)
Definition is_linebreak (c : Z) : bool :=
  one_of [10; 11; 12; 13; 0x1C; 0x1D; 0x1E; 0x85; 0x2028; 0x2029] c.

Fixpoint splitlines_aux (keepends : bool) (cur_rev : str) (s : str) : list (list Z) :=
  match s with
  | [] => match cur_rev with [] => [] | _ => [rev cur_rev] end
  | c :: t =>
    if is_linebreak c
    then match t with
         | d :: t' =>
           if (c =? 13) && (d =? 10)
           then rev (if keepends then d :: c :: cur_rev else cur_rev)
                :: splitlines_aux keepends [] t'
           else rev (if keepends then c :: cur_rev else cur_rev)
                :: splitlines_aux keepends [] t
         | [] => [rev (if keepends then c :: cur_rev else cur_rev)]
         end
    else splitlines_aux keepends (c :: cur_rev) t
  end.
Definition splitlines (keepends : bool) (s : str) : list (list Z) :=
  splitlines_aux keepends [] s.

(** [s.find(sub)]: the first index, or -1. *)
Fixpoint find_from (sub : str) (pos : Z) (s : str) : Z :=
  if starts_with s sub then pos
  else match s with
       | [] => -1
       | _ :: t => find_from sub (pos + 1) t
       end.
Definition str_find (s sub : str) : Z := find_from sub 0 s.

(** [s.find(sub, start)] *)
Definition str_find_at (s sub : str) (start : Z) : Z :=
  let a := clamp_index (len s) start in
  let k := find_from sub 0 (slice_from s start) in
  if k <? 0 then -1 else a + k.

(** [s.rfind(sub, 0, stop)] for a one-character [sub]: the last index
    below [stop], or -1. *)
Fixpoint rfind_from (c : Z) (pos : Z) (best : Z) (s : str) : Z :=
  match s with
  | [] => best
  | d :: t => rfind_from c (pos + 1) (if d =? c then pos else best) t
  end.
Definition str_rfind_char (s : str) (c : Z) (stop : Z) : Z :=
  rfind_from c 0 (-1) (py_slice s 0 stop).

(** [s.replace(c, new)] for a one-character [c]. *)
Definition replace_char (s : str) (c : Z) (new : str) : str :=
  flat_map (fun d => if d =? c then new else [d]) s.

Definition last_char (s : str) : option Z := head (rev s).

(** [re.sub(pattern, repl, s)], for patterns that do not match the
    empty string; [repl] gives the replacement of each match. *)
Fixpoint sub_walk (repl : match_obj -> list Z) (s : str) (ms : list match_obj)
  (cur : Z) : str :=
  match ms with
  | [] => slice_from s cur
  | m :: t => py_slice s cur (mo_start m) ++ repl m ++ sub_walk repl s t (mo_end m)
  end.
Definition re_sub (r : re) (repl : match_obj -> list Z) (s : str) : str :=
  sub_walk repl s (finditer r s) 0.

(** ** advanced_rules.py *)

Definition _E_ROW : list Z :=
  u "えけげせぜてでねへべぺめれエケゲセゼテデネヘベペメレ".

Definition kana_kanji (c : Z) : bool :=
  in_range 0x3040 0x30FF c || in_range 0x4E00 0x9FFF c.

(** [([぀-ヿ一-鿿]+?)れる] *)
Definition _RA_NUKI_RE : re :=
  Seq (Group 1 (lazy_plus (Cls kana_kanji))) (lit (u "れる")).

Definition _RANUKI_SPECIAL : list (list Z * list Z) :=
  [ (u "見れる", u "見られる");
    (u "来れる", u "来られる");
    (u "出れる", u "出られる");
    (u "食べれる", u "食べられる");
    (u "寝れる", u "寝られる");
    (u "起きれる", u "起きられる");
    (u "着れる", u "着られる") ].

Definition _TAUTOLOGIES : list (list Z * list Z * option (list Z)) :=
  [ (u "一番最初", u "重言の可能性: '一番最初'", Some (u "最初"));
    (u "一番最後", u "重言の可能性: '一番最後'", Some (u "最後"));
    (u "過半数以上", u "重言の可能性: '過半数以上'", Some (u "過半数"));
    (u "まず最初に", u "重言の可能性: 'まず最初に'", Some (u "最初に"));
    (u "事前に予め", u "重言の可能性: '事前に予め'", Some (u "事前に"));
    (u "違和感を感じる", u "重言の可能性: '違和感を感じる'", Some (u "違和感がある"));
    (u "必須条件", u "重言の可能性: '必須条件'", Some (u "必須"));
    (u "過半数の半分", u "重言の可能性: '過半数の半分'", Some (u "過半数"));
    (u "新規に新たな", u "重言の可能性: '新規に新たな'", Some (u "新たに")) ].

Definition _DOUBLE_PARTICLES : list (list Z) :=
  [u "のの"; u "がが"; u "にに"; u "をを"; u "へへ"; u "とと"; u "でで"].

Definition _EMPHATIC_ADVS : list (list Z) :=
  [u "非常に"; u "とても"; u "とっても"; u "すごく"; u "かなり"; u "大変"; u "めちゃくちゃ"].

(** ["|".join(map(re.escape, _EMPHATIC_ADVS))] *)
Definition _EMPHATIC_ADV_RE : re := alts (map lit _EMPHATIC_ADVS).

(** The thresholds and policies [configure_advanced] sets. *)
Record adv_config := AdvConfig {
  EMPH_THRESHOLD : Z;
  LONG_SENTENCE_LIMIT : Z;
  STYLE_MIX_THRESHOLD : Z;
  KATAKANA_ALLOW : list (list Z);
  KATAKANA_DENY : list (list Z);
  SENTENCE_FINAL_PUNCT_SEVERITY : severity;
  END_PARTICLE_POLICY : Z
}.

(** The values the module starts with. *)
Definition default_config : adv_config := AdvConfig 2 100 2 [] [] INFO 0.

Definition _DOUBLE_ADV_PAIRS : list (list Z * list Z) :=
  [ (u "かなり", u "とても"); (u "かなり", u "すごく"); (u "とても", u "すごく");
    (u "非常に", u "とても"); (u "非常に", u "すごく") ].

(** [re.escape(a) + r"\s*" + re.escape(b)] *)
Definition _DOUBLE_ADV_RE : list re :=
  map (fun ab : list Z * list Z =>
         Seq (lit (fst ab)) (Seq (star (Cls is_space)) (lit (snd ab))))
      _DOUBLE_ADV_PAIRS.

(** [(とかさ|とか|っぽさ|っぽい|みたいな|みたい)] *)
Definition _COLLOQUIAL_RE : re :=
  Group 1 (alts (map lit [u "とかさ"; u "とか"; u "っぽさ"; u "っぽい"; u "みたいな"; u "みたい"])).

(** [[。．].*[，、]|[，、].*[。．]] *)
Definition _MIXED_FULL_HALF_PUNCT_RE : re :=
  Alt (Seq (Cls (one_of (u "。．"))) (Seq (star dot) (Cls (one_of (u "，、")))))
      (Seq (Cls (one_of (u "，、"))) (Seq (star dot) (Cls (one_of (u "。．"))))).

(** [\.\.{2,}] *)
Definition _ASCII_ELLIPSIS_RE : re := Seq (chr 46) (at_least 2 (chr 46)).

(** [[ 　]+(?=[。．，、])] *)
Definition _SPACE_BEFORE_PUNCT_RE : re :=
  Seq (plus (Cls (one_of [32; 0x3000]))) (Look true (Cls (one_of (u "。．，、")))).

(** [ー{3,}] *)
Definition _PROLONGED_SOUND_RE : re := at_least 3 (chr 0x30FC).

Definition ADV_RANUKI := u "ADV_RANUKI".
Definition ADV_TAUTOLOGY := u "ADV_TAUTOLOGY".
Definition ADV_DOUBLE_PARTICLE := u "ADV_DOUBLE_PARTICLE".
Definition ADV_EMPHATIC_ADVERB_MANY := u "ADV_EMPHATIC_ADVERB_MANY".
Definition ADV_DOUBLE_ADVERB := u "ADV_DOUBLE_ADVERB".
Definition ADV_COLLOQUIAL := u "ADV_COLLOQUIAL".
Definition ADV_PUNCT_MIXED := u "ADV_PUNCT_MIXED".
Definition ADV_ELLIPSIS := u "ADV_ELLIPSIS".
Definition ADV_SPACE_BEFORE_PUNCT := u "ADV_SPACE_BEFORE_PUNCT".
Definition ADV_PROLONGED_SOUND := u "ADV_PROLONGED_SOUND".
Definition ADV_LONG_SENTENCE := u "ADV_LONG_SENTENCE".
Definition ADV_SENTENCE_FINAL_PUNCT := u "ADV_SENTENCE_FINAL_PUNCT".
Definition ADV_KATAKANA_DENY := u "ADV_KATAKANA_DENY".
Definition ADV_END_PARTICLE := u "ADV_END_PARTICLE".
Definition ADV_STYLE_MIXED_LINES := u "ADV_STYLE_MIXED_LINES".

(** [_detect_long_sentences]: [ends] are the ends of the matches of the
    full-width period, [start] the start of the current sentence. *)
Fixpoint long_sentences_walk (limit : Z) (n : Z) (ends : list Z) (start : Z)
  : list (Z * Z) :=
  match ends with
  | [] => if n - start >? limit then [(start, n)] else []
  | e :: t =>
    (if e - start >? limit then [(start, e)] else [])
    ++ long_sentences_walk limit n t e
  end.
Definition _detect_long_sentences (text : str) (limit : Z) : list (Z * Z) :=
  long_sentences_walk limit (len text)
    (map mo_end (finditer (lit (u "。")) text)) 0.

(** [_masked_ranges_md]: fenced and inline code regions. *)
Definition fence_pat : re :=
  Seq (Bol true)
      (Seq (star (Cls is_space))
           (Seq (Group 1 (Alt (lit (u "```")) (lit (u "~~~"))))
                (Seq (star dot) (Eol true)))).

Fixpoint pair_up (idxs : list Z) : list (Z * Z) :=
  match idxs with
  | a :: b :: t => (a, b) :: pair_up t
  | _ => []
  end.

Definition inline_code_pat : re :=
  Seq (chr 96) (Seq (plus (Cls (fun c => negb (c =? 96) && negb (is_newline c)))) (chr 96)).

Definition _masked_ranges_md (t : str) : list (Z * Z) :=
  pair_up (map mo_start (finditer fence_pat t))
  ++ map (fun m => (mo_start m, mo_end m)) (finditer inline_code_pat t).

Definition _in_masked (masked : list (Z * Z)) (pos : Z) : bool :=
  existsb (fun se : Z * Z => (fst se <=? pos) && (pos <? snd se)) masked.

Section UnicodeTables.
  (** Three tables of the Unicode database that Python consults and the
      source does not spell out: the word class [\w] (behind [\b]), the
      decimal digits [\d], and NFKC normalisation. *)
  Variable unicode_word : Z -> bool.
  Variable unicode_digit : Z -> bool.
  Variable nfkc : list Z -> list Z.

  Section Detectors.
  Variable cfg : adv_config.

  (** *** [run_advanced], detector by detector, in the order of the source *)

Definition ranuki_special_hits (text : str) : list hit :=
    flat_map (fun ws : list Z * list Z =>
      map (fun m => Hit (mo_start m) (mo_end m) (fst ws) (u "ら抜き表現の可能性")
                        (Some (snd ws)) (Some WARN) (Some ADV_RANUKI))
          (finditer (lit (fst ws)) text))
      _RANUKI_SPECIAL.

Definition ranuki_heuristic_hits (text : str) : list hit :=
    let masked := _masked_ranges_md text in
    flat_map (fun m =>
      match cap_lookup 1 (mo_groups m) with
      | Some head =>
        match last_char head with
        | Some prev =>
          if one_of _E_ROW prev && negb (_in_masked masked (mo_start m))
          then [Hit (mo_start m) (mo_end m) (mo_group0 m) (u "ら抜き表現の可能性")
                    (Some (head ++ u "られる")) (Some INFO) (Some ADV_RANUKI)]
          else []
        | None => []
        end
      | None => []
      end)
      (finditer _RA_NUKI_RE text).

Definition tautology_hits (text : str) : list hit :=
    let masked := _masked_ranges_md text in
    flat_map (fun pms : list Z * list Z * option (list Z) =>
      flat_map (fun m =>
        if _in_masked masked (mo_start m) then []
        else [Hit (mo_start m) (mo_end m) (mo_group0 m) (snd (fst pms)) (snd pms)
                  (Some WARN) (Some ADV_TAUTOLOGY)])
        (finditer (lit (fst (fst pms))) text))
      _TAUTOLOGIES.

Definition double_particle_hits (text : str) : list hit :=
    flat_map (fun p =>
      map (fun m => Hit (mo_start m) (mo_end m) (mo_group0 m) (u "連続する助詞の可能性")
                        None (Some WARN) (Some ADV_DOUBLE_PARTICLE))
          (finditer (lit p) text))
      _DOUBLE_PARTICLES.

  (** With a threshold below 1 and no adverb in the text, [adv_hits[0]]
      raises IndexError in the source; [configure_advanced] keeps the
      threshold positive, and the model yields nothing there. *)
Definition emphatic_adverb_hits (text : str) : list hit :=
    let adv_hits := finditer _EMPHATIC_ADV_RE text in
    if EMPH_THRESHOLD cfg <=? Z.of_nat (length adv_hits)
    then match adv_hits with
         | m0 :: _ =>
           [Hit (mo_start m0) (mo_end m0) (mo_group0 m0)
                (u "強調副詞（非常に/とても/すごく など）の多用")
                None (Some WARN) (Some ADV_EMPHATIC_ADVERB_MANY)]
         | [] => []
         end
    else [].

Definition double_adverb_hits (text : str) : list hit :=
    flat_map (fun pat =>
      map (fun m => Hit (mo_start m) (mo_end m) (mo_group0 m) (u "二重副詞の可能性")
                        None (Some WARN) (Some ADV_DOUBLE_ADVERB))
          (finditer pat text))
      _DOUBLE_ADV_RE.

Definition colloquial_hits (text : str) : list hit :=
    map (fun m => Hit (mo_start m) (mo_end m) (mo_group0 m)
                      (u "口語的な表現（文体の統一を検討）")
                      None (Some INFO) (Some ADV_COLLOQUIAL))
        (finditer _COLLOQUIAL_RE text).

Definition punct_mixed_hits (text : str) : list hit :=
    match re_search _MIXED_FULL_HALF_PUNCT_RE text with
    | Some m =>
      [Hit (mo_start m) (mo_end m) (slice_to (mo_group0 m) 10)
           (u "句読点の種類（全角/半角）が混在しています")
           (Some (u "句読点を全角（、。）に統一")) (Some WARN) (Some ADV_PUNCT_MIXED)]
    | None => []
    end.

Definition ellipsis_hits (text : str) : list hit :=
    map (fun m => Hit (mo_start m) (mo_end m) (mo_group0 m)
                      (u "三点リーダはUnicodeの…に統一を推奨")
                      (Some (u "…")) (Some INFO) (Some ADV_ELLIPSIS))
        (finditer _ASCII_ELLIPSIS_RE text).

Definition space_before_punct_hits (text : str) : list hit :=
    map (fun m => Hit (mo_start m) (mo_end m) (mo_group0 m)
                      (u "句読点直前のスペースを削除")
                      (Some []) (Some WARN) (Some ADV_SPACE_BEFORE_PUNCT))
        (finditer _SPACE_BEFORE_PUNCT_RE text).

Definition prolonged_sound_hits (text : str) : list hit :=
    map (fun m => Hit (mo_start m) (mo_end m) (mo_group0 m)
                      (u "伸ばし棒（ー）の多用")
                      None (Some INFO) (Some ADV_PROLONGED_SOUND))
        (finditer _PROLONGED_SOUND_RE text).

Definition long_sentence_hits (text : str) : list hit :=
    map (fun se : Z * Z =>
           Hit (fst se) (snd se) (slice_to (py_slice text (fst se) (snd se)) 10)
               (u "1文が長すぎます（可読性低下の可能性）")
               (Some (u "文を分割するなどの検討")) (Some INFO) (Some ADV_LONG_SENTENCE))
        (_detect_long_sentences text (LONG_SENTENCE_LIMIT cfg)).

  (** Sentence-final punctuation, line by line. *)
Definition is_fence_line (ln : str) : bool :=
    starts_with (strip ln) (u "```") || starts_with (strip ln) (u "~~~").

  (** [^\s*(?:[-*・•●◆◇■□]|\d+[.)]|[（(]\d+[）)])\s+] *)
Definition bullet_pat : re :=
    Seq (Bol false)
        (Seq (star (Cls is_space))
             (Seq (Alt (Cls (one_of (u "-*・•●◆◇■□")))
                       (Alt (Seq (plus (Cls unicode_digit)) (Cls (one_of (u ".)"))))
                            (Seq (Cls (one_of (u "（(")))
                                 (Seq (plus (Cls unicode_digit)) (Cls (one_of (u "）)")))))))
                  (plus (Cls is_space)))).

  (** [^\s{0,3}>\s*] *)
Definition quote_pat : re :=
    Seq (Bol false)
        (Seq (Rep true 0 (Some 3%nat) (Cls is_space))
             (Seq (chr 62) (star (Cls is_space)))).

  (** A closing bracket at the end: [[\)\]\)）】》』」]$] *)
Definition closing_bracket_pat : re :=
    Seq (Cls (one_of (u ")]）】》』」"))) (Eol false).

Definition re_match (r : re) (s : str) : bool :=
    match match_here r 0 None s with Some _ => true | None => false end.

Definition line_needs_period (ln : str) : bool :=
    let core := rstrip ln in
    let is_bullet := re_match bullet_pat ln in
    let is_md_header := starts_with (lstrip ln) (u "#") in
    let is_quote := re_match quote_pat ln in
    let is_table := starts_with (lstrip ln) (u "|") in
    let ends_with_bracket := found closing_bracket_pat core in
    let ends_with_colon :=
      opt_test (one_of (u ":：")) (last_char core) in
    match last_char core with
    | Some c =>
      negb (one_of (u "。！？") c)
      && negb (is_bullet || is_md_header || is_quote || is_table
               || ends_with_bracket || ends_with_colon)
    | None => false
    end.

Fixpoint sentence_final_walk (lines : list (list Z)) (offset : Z) (in_code : bool)
    : list hit :=
    match lines with
    | [] => []
    | ln :: t =>
      if is_fence_line ln
      then sentence_final_walk t (offset + len ln) (negb in_code)
      else
        (if found (Cls kana_kanji) ln && negb in_code && line_needs_period ln
         then [Hit offset (offset + len ln) (slice_to (strip ln) 10)
                   (u "文末に句点（。）を付与してください（文末統一）")
                   None (Some (SENTENCE_FINAL_PUNCT_SEVERITY cfg))
                   (Some ADV_SENTENCE_FINAL_PUNCT)]
         else [])
        ++ sentence_final_walk t (offset + len ln) in_code
    end.

Definition sentence_final_hits (text : str) : list hit :=
    sentence_final_walk (splitlines true text) 0 false.

  (** Katakana policy.  [(?<![A-Za-z0-9_])[ァ-ヶー・]+(?![A-Za-z0-9_])] *)
Definition ascii_word (c : Z) : bool :=
    in_range 65 90 c || in_range 97 122 c || in_range 48 57 c || (c =? 95).

Definition katakana_pat : re :=
    Seq (Behind false ascii_word)
        (Seq (plus (Cls (fun c => in_range 0x30A1 0x30F6 c || (c =? 0x30FC) || (c =? 0x30FB))))
             (Look false (Cls ascii_word))).

Definition mem_str (x : str) (l : list (list Z)) : bool := existsb (str_eqb x) l.

Definition katakana_hits (text : str) : list hit :=
    match KATAKANA_DENY cfg with
    | [] => []
    | _ :: _ =>
      flat_map (fun m =>
        let token := mo_group0 m in
        if len token <? 2 then []
        else if mem_str token (KATAKANA_ALLOW cfg) then []
        else if mem_str token (KATAKANA_DENY cfg) || mem_str (nfkc token) (KATAKANA_DENY cfg)
        then [Hit (mo_start m) (mo_end m) token
                  (u "ドメイン方針によりカタカナ語の使用を抑制（許容リスト外）")
                  None (Some WARN) (Some ADV_KATAKANA_DENY)]
        else [])
        (finditer katakana_pat text)
    end.

  (** Sentence-final particles.  [(ね|よ|かな)[。】》)]?$] *)
Definition end_particle_pat : re :=
    Seq (Group 1 (alts [lit (u "ね"); lit (u "よ"); lit (u "かな")]))
        (Seq (opt (Cls (one_of (u "。】》)")))) (Eol false)).

Fixpoint end_particle_walk (sev : severity) (lines : list (list Z)) (pos : Z) : list hit :=
    match lines with
    | [] => []
    | ln :: t =>
      (if found end_particle_pat ln
       then [Hit pos (pos + len ln) (slice_from (strip ln) (-5))
                 (u "終助詞の使用を禁止/抑制（設定による）")
                 None (Some sev) (Some ADV_END_PARTICLE)]
       else [])
      ++ end_particle_walk sev t (pos + len ln)
    end.

Definition end_particle_hits (text : str) : list hit :=
    if END_PARTICLE_POLICY cfg >? 0
    then end_particle_walk (if END_PARTICLE_POLICY cfg =? 2 then ERROR else WARN)
                           (splitlines true text) 0
    else [].

Definition run_advanced (text : str) : list hit :=
    ranuki_special_hits text
    ++ ranuki_heuristic_hits text
    ++ tautology_hits text
    ++ double_particle_hits text
    ++ emphatic_adverb_hits text
    ++ double_adverb_hits text
    ++ colloquial_hits text
    ++ punct_mixed_hits text
    ++ ellipsis_hits text
    ++ space_before_punct_hits text
    ++ prolonged_sound_hits text
    ++ long_sentence_hits text
    ++ sentence_final_hits text
    ++ katakana_hits text
    ++ end_particle_hits text.

  (** [detect_style_mixed_lines(text)] with the configured threshold. *)
Definition polite_end : re :=
    Seq (Group 1 (Alt (lit (u "です。")) (lit (u "ます。")))) (Eol false).
Definition plain_end : re :=
    Seq (Group 1 (Alt (lit (u "だ。")) (lit (u "である。")))) (Eol false).

Definition count_lines (r : re) (lines : list (list Z)) : Z :=
    Z.of_nat (length (List.filter (found r) lines)).

Definition detect_style_mixed_lines (text : str) : option hit :=
    let lines := splitlines false text in
    let polite := count_lines polite_end lines in
    let plain := count_lines plain_end lines in
    let thr := STYLE_MIX_THRESHOLD cfg in
    if (thr <=? polite) && (thr <=? plain)
    then
      let pos := str_find text (u "です。") in
      let pos := if pos <? 0 then str_find text (u "だ。") else pos in
      Some (Hit (Z.max 0 pos) (Z.max 0 (pos + 3))
                (py_slice text (Z.max 0 pos) (Z.max 0 (pos + 3)))
                (u "文体(ですます/だ・である)が混在しています（行単位集計）")
                (Some (u "文書内で文末表現をどちらかに統一")) (Some WARN)
                (Some ADV_STYLE_MIXED_LINES))
    else None.

  End Detectors.

  (** [configure_advanced]: each threshold is replaced only by a positive
      value; the policy and severity arguments arrive already parsed
      ([None] for an absent or unrecognised value). *)
Definition configure_advanced (c : adv_config)
    (emph_threshold long_limit style_mix_threshold : option Z)
    (katakana_allow katakana_deny : option (list (list Z)))
    (end_particle_policy : option Z)
    (sentence_final_punct_severity : option severity) : adv_config :=
    let pos_or (o : option Z) (d : Z) :=
      match o with Some v => if v >? 0 then v else d | None => d end in
    AdvConfig (pos_or emph_threshold (EMPH_THRESHOLD c))
              (pos_or long_limit (LONG_SENTENCE_LIMIT c))
              (pos_or style_mix_threshold (STYLE_MIX_THRESHOLD c))
              (match katakana_allow with Some l => l | None => KATAKANA_ALLOW c end)
              (match katakana_deny with Some l => l | None => KATAKANA_DENY c end)
              (match sentence_final_punct_severity with
               | Some v => v | None => SENTENCE_FINAL_PUNCT_SEVERITY c end)
              (match end_particle_policy with
               | Some v => v | None => END_PARTICLE_POLICY c end).

  (** ** fixer.py *)

Definition _compress_run (s : str) (prefer_fullwidth : option (list Z)) : str :=
    match s with
    | [] => s
    | ch :: _ =>
      match prefer_fullwidth with
      | Some p => if truthy (Some p) && contains s p then p else [ch]
      | None => [ch]
      end
    end.

Definition _normalize_alnum_kana (s : str) : str := nfkc s.

Definition _fix_double_particles (s : str) : str :=
    match s with
    | [a; b] => if a =? b then [a] else s
    | _ => s
    end.

Fixpoint dict_get (d : list (list Z * list Z)) (key : str) : option (list Z) :=
    match d with
    | [] => None
    | (k, v) :: t => if str_eqb k key then Some v else dict_get t key
    end.

Definition COLLOQ_MAP : list (list Z * list Z) :=
    [ (u "とかさ", u "など"); (u "とか", u "など"); (u "っぽさ", u "のような性質");
      (u "っぽい", u "のような"); (u "みたいな", u "のような"); (u "みたい", u "のようだ") ].

Definition _fix_colloquial (s : str) : str :=
    match dict_get COLLOQ_MAP s with Some v => v | None => s end.

Definition _fix_double_adverb (s : str) : str :=
    match List.find (fun ab : list Z * list Z =>
                  starts_with s (fst ab)
                  && starts_with (lstrip (slice_from s (len (fst ab)))) (snd ab))
               _DOUBLE_ADV_PAIRS with
    | Some ab => snd ab
    | None =>
      (* re.split(r"\s+", s, maxsplit=1) has two parts when \s+ is found *)
      match re_search (plus (Cls is_space)) s with
      | Some m => slice_from s (mo_end m)
      | None => s
      end
    end.

Definition _fix_punct_mixed (s : str) : str :=
    replace_char (replace_char s 0xFF0E (u "。")) 0xFF0C (u "、").

Definition _fix_space_before_punct (s : str) : str := [].

Definition _fix_ellipsis_ascii (s : str) : str :=
    re_sub (at_least 2 (chr 46)) (fun _ => u "…") s.

Definition _fix_long_dash (s : str) : str :=
    re_sub (at_least 2 (chr 0x30FC)) (fun _ => u "ー") s.

Definition _fix_repeat_char (s : str) : str :=
    if contains s (u "、") then u "、"
    else if contains s (u "。") then u "。"
    else if contains s (u "！") || contains s (u "!")
    then _compress_run s (Some (u "！"))
    else if contains s (u "？") || contains s (u "?")
    then _compress_run s (Some (u "？"))
    else match s with c :: _ => [c] | [] => s end.

Definition _fix_cjk_inner_space (s : str) : str :=
    re_sub (Seq (Behind true kana_kanji)
                (Seq (plus (chr 32)) (Look true (Cls kana_kanji))))
           (fun _ => []) s.

Definition _fix_multi_spaces (s : str) : str :=
    re_sub (at_least 2 (Cls is_space)) (fun _ => [32]) s.

Definition _fix_punct_order (s : str) : str :=
    let s := re_sub (Seq (Cls (one_of (u "。．"))) (plus (Cls (one_of (u "、，")))))
                    (fun _ => u "。") s in
    re_sub (Seq (Cls (one_of (u "、，"))) (plus (Cls (one_of (u "。．")))))
           (fun _ => u "、") s.

Definition _fix_kango_to_hiragana (s : str) : str :=
    replace_char (replace_char s 0x70BA (u "ため")) 0x8CB0 (u "もら").

  (** [https?://|ftp://|www\.] with IGNORECASE: a lower-case ASCII
      letter also matches its upper-case form, and [s] the long s. *)
Definition ci (c : Z) : re :=
    Cls (fun x => (x =? c) || (x =? c - 32) || ((c =? 115) && (x =? 0x17F))).
Definition ci_lit (s : str) : re :=
    fold_right (fun c r => Seq (if in_range 97 122 c then ci c else chr c) r) Eps s.

Definition _URL_RE : re :=
    Alt (Seq (ci_lit (u "http")) (Seq (opt (ci 115)) (lit (u "://"))))
        (Alt (ci_lit (u "ftp://")) (ci_lit (u "www."))).

Definition ascii_alpha (c : Z) : bool := in_range 65 90 c || in_range 97 122 c.
Definition ascii_alnum (c : Z) : bool := ascii_alpha c || in_range 48 57 c.

  (** [[A-Za-z0-9._%+-]+@[A-Za-z0-9.-]+\.[A-Za-z]{2,}] *)
Definition _EMAIL_RE : re :=
    Seq (plus (Cls (fun c => ascii_alnum c || one_of (u "._%+-") c)))
        (Seq (chr 64)
             (Seq (plus (Cls (fun c => ascii_alnum c || one_of (u ".-") c)))
                  (Seq (chr 46) (at_least 2 (Cls ascii_alpha))))).

  (** A back-ticked span, [\b[A-Za-z_][A-Za-z0-9_]*\(\)], [::{1,2}],
      or [<[^>]+>]. *)
Definition _CODE_HINT_RE : re :=
    Alt (Seq (chr 96) (Seq (plus (Cls (fun c => negb (c =? 96)))) (chr 96)))
        (Alt (Seq (WordB unicode_word)
                  (Seq (Cls (fun c => ascii_alpha c || (c =? 95)))
                       (Seq (star (Cls ascii_word)) (lit (u "()")))))
             (Alt (Seq (chr 58) (Rep true 1 (Some 2%nat) (chr 58)))
                  (Seq (chr 60) (Seq (plus (Cls (fun c => negb (c =? 62)))) (chr 62))))).

  (** [\b[A-Z][A-Z0-9_]{2,}\b] *)
Definition _UPPER_TOKEN_RE : re :=
    Seq (WordB unicode_word)
        (Seq (Cls (in_range 65 90))
             (Seq (at_least 2 (Cls (fun c => in_range 65 90 c || in_range 48 57 c || (c =? 95))))
                  (WordB unicode_word))).

Definition count_chars (p : Z -> bool) (s : str) : Z :=
    Z.of_nat (length (List.filter p s)).

  (** The three ranges [_context_allows] counts as Japanese. *)
Definition jp_script (ch : Z) : bool :=
    in_range 0x4E00 0x9FA5 ch || in_range 0x3041 0x3096 ch || in_range 0x30A1 0x30FA ch.

  (** A float quotient of two integers is compared with 0.3 and 0.5 in
      the source; the model compares the exact quotient, which decides
      the same for every string shorter than 2^50 code points. *)
Definition quotient (a b : Z) : Q := Qmake a (Z.to_pos b).
Definition Qlt_bool (x y : Q) : bool := negb (Qle_bool y x).

Definition FENCE : list Z := u "```".

Definition _context_allows (issue : Issue) (full_text : str) : bool :=
    let s := i_start issue in
    let e := i_end issue in
    let l := Z.max 0 (s - 100) in
    let r := Z.min (len full_text) (e + 100) in
    let ctx := py_slice full_text l r in
    let snip := py_slice full_text s e in
    if found _URL_RE ctx || found _EMAIL_RE ctx then false
    else if found _CODE_HINT_RE ctx then false
    else if found _UPPER_TOKEN_RE ctx then false
    else
      let jp := count_chars jp_script snip in
      if (len snip >? 0) && Qlt_bool (quotient jp (len snip)) (3 # 10) then false
      else
        let left := str_count (slice_to full_text s) FENCE in
        let right := str_count (slice_from full_text e) FENCE in
        if (left mod 2 =? 1) && (right mod 2 =? 1) then false
        else true.

Definition _is_japanese_char (ch : Z) : bool :=
    in_range 0x4E00 0x9FA5 ch || in_range 0x3041 0x3096 ch
    || in_range 0x30A1 0x30FA ch || (0x30FC =? ch).

Definition _jp_ratio (s : str) : Q :=
    match s with
    | [] => 0
    | _ => quotient (count_chars _is_japanese_char s) (Z.max 1 (len s))
    end.

Definition _lt_suggestion_is_safe (orig sug : str) : bool :=
    if Z.abs (len orig - len sug) >? 3 then false
    else if found (Cls ascii_alpha) sug then false
    else if Qle_bool (1 # 2) (_jp_ratio orig) && Qlt_bool (_jp_ratio sug) (3 # 10) then false
    else if existsb (fun c => c <? 32) sug then false
    else true.

Definition full (r : re) (s : str) : bool :=
    match fullmatch r s with Some _ => true | None => false end.

Definition HIRAGANA : list Z :=
    u "ぁあぃいぅうぇえぉおかがきぎくぐけげこごさざしじすずせぜそぞただちぢっつづてでとどなにぬねのはばぱひびぴふぶぷへべぺほぼぽまみむめもゃやゅゆょよらりるれろゎわゐゑをん".
Definition KATAKANA : list Z :=
    u "ァアィイゥウェエォオカガキギクグケゲコゴサザシジスズセゼソゾタダチヂッツヅテデトドナニヌネノハバパヒビピフブプヘベペホボポマミムメモャヤュユョヨラリルレロヮワヰヱヲン".

  (** [s.translate(str.maketrans(from, to))] *)
Fixpoint translate_char (from to : list Z) (c : Z) : Z :=
    match from, to with
    | f :: from', t :: to' => if f =? c then t else translate_char from' to' c
    | _, _ => c
    end.
Definition translate (from to : list Z) (s : str) : str :=
    map (translate_char from to) s.

Definition typo_map : list (list Z * list Z) :=
    [ (u "有り難う", u "ありがとう"); (u "有難う", u "ありがとう"); (u "有りがとう", u "ありがとう");
      (u "御座いまし", u "ございました"); (u "御座います", u "ございます");
      (u "御座いません", u "ございません");
      (u "出来ます", u "できます"); (u "下さいます", u "くださいます"); (u "下さる", u "くださる");
      (u "未だ", u "まだ"); (u "未だに", u "まだに"); (u "確立", u "確率"); (u "確率", u "確率");
      (u "以外", u "以外"); (u "意外", u "意外");
      (u "一応", u "一応"); (u "一様", u "一様"); (u "早急", u "至急"); (u "早急に", u "至急に") ].

Definition hira_kata (c : Z) : bool := in_range 0x3041 0x3093 c || in_range 0x30A1 0x30F6 c.
Definition hira_kata_kanji (c : Z) : bool := hira_kata c || in_range 0x4E00 0x9FA5 c.
Definition blank (c : Z) : bool := one_of [32; 9; 0x3000] c.
Definition comma (c : Z) : bool := one_of (u "、，") c.
Definition period (c : Z) : bool := one_of (u "。．") c.
Definition touten_kuten (c : Z) : bool := one_of (u "、。") c.

Definition rid_is (rid : list Z) (name : list Z) : bool := str_eqb rid name.

Definition _compute_suggestion (issue : Issue) (full_text : str)
    (aggressive use_lt use_nlp : bool) : option (list Z) :=
    if truthy (i_suggestion issue) then i_suggestion issue else
    let msg := i_message issue in
    let snip := py_slice full_text (i_start issue) (i_end issue) in
    let rid := match i_rule_id issue with Some r => r | None => [] end in
    (* 1. replacement characters and invisible spaces *)
    if found (plus (Group 1 (Cls (one_of [0xFFFD; 0xFFFD; 0xA0; 0x200B; 0x200C; 0x200D; 0xFEFF]))))
             snip
    then Some []
    (* 2. a run of two or more characters repeated *)
    else if full (Seq (Group 1 (at_least 2 (Cls hira_kata_kanji))) (plus (Backref 1))) snip
    then Some (slice_to snip
                 (len snip / (str_count snip (slice_to snip (len snip / 2)) + 1)))
    (* 3. one kana three or more times *)
    else if full (Seq (Group 1 (Cls hira_kata)) (at_least 2 (Backref 1))) snip
    then Some (slice_to snip 1)
    (* 4. punctuation three or more times *)
    else if full (Seq (Group 1 (Cls (one_of (u "、。！？")))) (at_least 2 (Backref 1))) snip
    then Some (slice_to snip 1 ++ slice_to snip 1)
    (* 5. spaces *)
    else if full (plus (chr 0x3000)) snip then Some [32]
    else if full (at_least 2 (chr 32)) snip then Some [32]
    (* 6. leading and trailing blanks *)
    else if full (Alt (Seq (Bol false) (plus (Cls blank)))
                      (Seq (plus (Cls blank)) (Eol false))) snip
    then Some []
    (* 7. half-width katakana *)
    else if full (plus (Cls (in_range 0xFF66 0xFF9F))) snip then Some (nfkc snip)
    (* 8. runs of long vowel marks, middle dots, slashes, hyphens *)
    else if full (at_least 2 (chr 0x30FC)) snip then Some (u "ー")
    else if full (at_least 2 (chr 0x30FB)) snip then Some (u "・")
    else if full (at_least 2 (Cls (one_of [0xFF0F; 47]))) snip then Some (u "/")
    else if full (at_least 2 (Cls (one_of [0xFF0D; 45]))) snip then Some (u "-")
    (* 9. space around punctuation *)
    else if full (Alt (Seq (plus (Cls is_space)) (Cls touten_kuten))
                      (Seq (Cls touten_kuten) (plus (Cls is_space)))) snip
    then Some (strip snip)
    (* 10. mixed kana, katakana preferred *)
    else if full (at_least 2 (Cls hira_kata)) snip
            && (count_chars (in_range 0x3041 0x3096) snip
                <? count_chars (in_range 0x30A1 0x30FA) snip)
    then Some (translate HIRAGANA KATAKANA snip)
    (* 11. the small dictionary *)
    else match dict_get typo_map snip with
    | Some v => Some v
    | None =>
    (* 12. and 13. punctuation pairs *)
    if full (Seq (Cls comma) (Cls period)) snip then Some (u "、。")
    else if full (Seq (Cls period) (Cls comma)) snip then Some (u "。")
    else if full (Seq (Cls touten_kuten) (Cls touten_kuten)) snip then Some (slice_to snip 1)
    (* by rule identifier *)
    else if rid_is rid ADV_DOUBLE_PARTICLE then Some (_fix_double_particles snip)
    else if rid_is rid ADV_DOUBLE_ADVERB then Some (_fix_double_adverb snip)
    else if rid_is rid ADV_COLLOQUIAL
    then (if aggressive then Some (_fix_colloquial snip) else None)
    else if rid_is rid ADV_PUNCT_MIXED then Some (_fix_punct_mixed snip)
    else if rid_is rid ADV_SPACE_BEFORE_PUNCT then Some (_fix_space_before_punct snip)
    else if rid_is rid ADV_ELLIPSIS then Some (_fix_ellipsis_ascii snip)
    else if rid_is rid ADV_PROLONGED_SOUND then Some (_fix_long_dash snip)
    else if rid_is rid ADV_EMPHATIC_ADVERB_MANY
    then (if aggressive then Some [] else None)
    else if rid_is rid ADV_LONG_SENTENCE && aggressive
    then match snip with
         | [] => None
         | _ =>
           let mid := len snip / 2 in
           let left := str_rfind_char snip 0x3001 mid in
           let right := str_find_at snip (u "、") mid in
           let idx := if left =? -1 then right else left in
           if idx =? -1 then None
           else Some (slice_to snip idx ++ u "。" ++ slice_from snip (idx + 1))
         end
    (* by message *)
    else if contains msg (u "全角英数字が含まれています") then Some (_normalize_alnum_kana snip)
    else if contains msg (u "半角カナが含まれています") then Some (_normalize_alnum_kana snip)
    else if contains msg (u "句読点が連続しています") then Some (_fix_repeat_char snip)
    else if contains msg (u "感嘆符が連続しています") || contains msg (u "疑問符が連続しています")
    then Some (_fix_repeat_char snip)
    else if contains msg (u "長音の連続") then Some (_fix_long_dash snip)
    else if contains msg (u "為に") || contains msg (u "為の") || contains msg (u "'為")
    then Some (_fix_kango_to_hiragana snip)
    else if contains msg (u "漢字 '貰'") then Some (_fix_kango_to_hiragana snip)
    else if contains msg (u "全角スペースが含まれています") then Some [32]
    else if contains msg (u "連続スペースを1つに") then Some (_fix_multi_spaces snip)
    else if contains msg (u "日本語の間のスペースを削除") then Some (_fix_cjk_inner_space snip)
    else if contains msg (u "句点直後の読点") || contains msg (u "読点直後の句点")
    then Some (_fix_punct_order snip)
    else if contains msg (u "編集ミスの可能性") && contains snip (u "にりして")
    then Some (u "にして")
    else if contains msg (u "文字化けの可能性") then Some []
    (* the grammar checker's proposal, when it is safe *)
    else if starts_with rid (u "LT_") && use_lt
    then match i_suggestion issue with
         | Some sug =>
           if truthy (Some sug) && _lt_suggestion_is_safe snip sug then Some sug else None
         | None => None
         end
    (* hints of the semantic analyzer *)
    else if rid_is rid (u "NLP_NO_CHAIN") && use_nlp && aggressive
    then
      let idxs := map mo_start (finditer (lit (u "の")) snip) in
      if 3 <=? Z.of_nat (length idxs)
      then match nth_error (rev idxs) 1 with
           | Some k => Some (slice_to snip k ++ u "、" ++ slice_from snip k)
           | None => None
           end
      else None
    else if rid_is rid (u "NLP_PARTICLE_RUN") && use_nlp && aggressive
    then Some (re_sub (Seq (Group 1 (Cls (one_of (u "をにがへとでからより")))) (Backref 1))
                      (fun m => match cap_lookup 1 (mo_groups m) with
                                | Some g => g | None => [] end)
                      snip)
    else None
    end.

Definition set_suggestion (i : Issue) (sug : list Z) : Issue :=
    MkIssue (i_file i) (i_start i) (i_end i) (i_snippet i) (i_message i)
            (Some sug) (i_severity i) (i_rule_id i).

  (** The first loop of [apply_fixes]: an issue survives when the context
      filter (if enabled) allows it and a replacement can be computed;
      the replacement is stored in its [suggestion]. *)
Definition resolve (text : str) (aggressive context use_lt use_nlp : bool)
    (i : Issue) : option Issue :=
    if context && negb (_context_allows i text) then None
    else match _compute_suggestion i text aggressive use_lt use_nlp with
         | None => None
         | Some sug => Some (set_suggestion i sug)
         end.

Fixpoint survivors (text : str) (aggressive context use_lt use_nlp : bool)
    (issues : list Issue) : list Issue :=
    match issues with
    | [] => []
    | i :: t =>
      match resolve text aggressive context use_lt use_nlp i with
      | Some i' => i' :: survivors text aggressive context use_lt use_nlp t
      | None => survivors text aggressive context use_lt use_nlp t
      end
    end.

  (** [issues2.sort(key=lambda x: (x.start, x.end))]: a stable sort. *)
Definition key_le (a b : Issue) : bool :=
    (i_start a <? i_start b) || ((i_start a =? i_start b) && (i_end a <=? i_end b)).

Fixpoint insert_issue (x : Issue) (l : list Issue) : list Issue :=
    match l with
    | [] => [x]
    | y :: t => if key_le x y then x :: y :: t else y :: insert_issue x t
    end.

Definition sort_issues (l : list Issue) : list Issue := fold_right insert_issue [] l.

  (** [i.suggestion or text[i.start:i.end]] *)
Definition replacement (text : str) (i : Issue) : list Z :=
    match i_suggestion i with
    | Some (c :: t) => c :: t
    | _ => py_slice text (i_start i) (i_end i)
    end.

  (** The second loop of [apply_fixes], with the cursor [cur]. *)
Fixpoint splice (text : str) (l : list Issue) (cur : Z) : str :=
    match l with
    | [] => slice_from text cur
    | i :: t =>
      if i_start i <? cur then splice text t cur
      else py_slice text cur (i_start i) ++ replacement text i ++ splice text t (i_end i)
    end.

Definition apply_fixes (text : str) (issues : list Issue)
    (aggressive context use_lt use_nlp : bool) : str :=
    splice text (sort_issues (survivors text aggressive context use_lt use_nlp issues)) 0.

End UnicodeTables.

(** ** typo_rules.py: the built-in rules and the registry *)

(** One entry of the list [raw] of [_simple_patterns]: a pattern, a
    message, a suggestion and a severity; [rule_id] keeps its default. *)
Definition rule (p : re) (message : String.string) (suggestion : option String.string)
  (sev : severity) : TypoPattern :=
  MkTypoPattern p (u message) (option_map u suggestion) sev None.

(** An entry whose pattern is a plain word. *)
Definition word (w message : String.string) (suggestion : option String.string)
  (sev : severity) : TypoPattern :=
  rule (lit (u w)) message suggestion sev.

Definition fullwidth_alnum (c : Z) : bool :=
  in_range 0xFF21 0xFF3A c || in_range 0xFF41 0xFF5A c || in_range 0xFF10 0xFF19 c.

Definition BUILTIN_PATTERNS : list TypoPattern :=
  [ (* old and stiff spellings *)
    word "勿論" "旧字体/硬い表記 '勿論' -> 'もちろん'" (Some "もちろん") INFO;
    word "有り難う" "旧表記 '有り難う' -> 'ありがとう'" (Some "ありがとう") INFO;
    word "有難う" "旧表記 '有難う' -> 'ありがとう'" (Some "ありがとう") INFO;
    word "御座い" "旧表記 '御座い' -> 'ござい'" (Some "ござい") INFO;
    word "御座います" "旧表記 '御座います' -> 'ございます'" (Some "ございます") INFO;
    word "御座いました" "旧表記 '御座いました' -> 'ございました'" (Some "ございました") INFO;
    rule (Seq (Group 1 (Alt (lit (u "宜")) (lit (u "可"))))
              (Seq (opt (lit (u "し"))) (lit (u "しく"))))
         "'宜しく/可しく' -> 'よろしく' を推奨" (Some "よろしく") INFO;
    rule (Seq (Cls (one_of (u "遙遥"))) (lit (u "か")))
         "'遙か/遥か' -> 'はるか' (ひらがな推薦)" (Some "はるか") INFO;
    word "御願い" "'御願い' -> 'お願い'" (Some "お願い") INFO;
    word "予め" "'予め' -> 'あらかじめ' を推奨" (Some "あらかじめ") INFO;
    rule (Seq (lit (u "於")) (Seq (opt (Group 1 (lit (u "い")))) (lit (u "て"))))
         "'於いて/於て' -> 'おいて' を推奨" (Some "おいて") INFO;
    word "稀に" "'稀に' -> 'まれに' を推奨" (Some "まれに") INFO;
    rule (Alt (lit (u "因みに")) (lit (u "因に")))
         "'因みに/因に' -> 'ちなみに' を推奨" (Some "ちなみに") INFO;
    word "尚" "'尚' -> 'なお' を推奨" (Some "なお") INFO;
    word "但し" "'但し' -> 'ただし' を推奨" (Some "ただし") INFO;
    word "勿体無い" "'勿体無い' -> 'もったいない' を推奨" (Some "もったいない") INFO;
    word "或いは" "'或いは' -> 'あるいは' を推奨" (Some "あるいは") INFO;
    word "且つ" "'且つ' -> 'かつ' を推奨" (Some "かつ") INFO;
    word "様に" "'様に' -> 'ように' を推奨" (Some "ように") INFO;
    rule (Seq (lit (u "貴")) (Group 1 (alts [lit (u "方"); lit (u "女"); lit (u "男")])))
         "'貴方/貴女/貴男' -> 'あなた' を推奨" (Some "あなた") INFO;
    word "只今" "'只今' -> 'ただいま' を推奨" (Some "ただいま") INFO;
    word "迄" "'迄' -> 'まで' を推奨" (Some "まで") INFO;
    word "様々" "'様々' -> 'さまざま' を推奨" (Some "さまざま") INFO;
    word "出来上が" "'出来上が' -> 'できあが' を推奨" (Some "できあが") INFO;
    word "出来ます" "'出来ます' -> 'できます' を推奨" (Some "できます") INFO;
    word "お早う" "'お早う' -> 'おはよう' を推奨" (Some "おはよう") INFO;
    rule (Seq (lit (u "お目出度")) (Group 1 (Alt (lit (u "う")) (lit (u "い")))))
         "'お目出度い/お目出度う' -> 'おめでたい/おめでとう' を推奨" None INFO;
    (* particles and auxiliary verbs in kana *)
    word "下さい" "補助動詞 '下さい' -> 'ください' を推奨" (Some "ください") WARN;
    word "下さいませ" "補助動詞 '下さいませ' -> 'くださいませ' を推奨" (Some "くださいませ") WARN;
    word "致します" "補助動詞 '致します' -> 'いたします' を推奨" (Some "いたします") WARN;
    word "致しました" "補助動詞 '致しました' -> 'いたしました' を推奨" (Some "いたしました") WARN;
    word "致しません" "補助動詞 '致しません' -> 'いたしません' を推奨" (Some "いたしません") WARN;
    word "頂きます" "補助動詞 '頂きます' -> 'いただきます' を推奨" (Some "いただきます") WARN;
    word "頂いた" "補助動詞 '頂いた' -> 'いただいた' を推奨" (Some "いただいた") WARN;
    word "頂けますか" "補助動詞 '頂けますか' -> 'いただけますか' を推奨" (Some "いただけますか") WARN;
    rule (Seq (lit (u "出来"))
              (Group 1 (alts (map lit [u "る"; u "た"; u "て"; u "ない"; u "ません"; u "ました";
                                       u "ませんでした"; u "なかった"; u "ませんか"]))))
         "'出来' -> 'でき' のひらがな表記を推奨" None WARN;
    rule (Seq (lit (u "為")) (Group 1 (Alt (lit (u "に")) (lit (u "の")))))
         "'為に/為の' -> 'ために/ための' を推奨" None INFO;
    (* half-width and full-width forms *)
    rule (plus (Cls (in_range 0xFF66 0xFF9F)))
         "半角カナが含まれています (全角カタカナへの統一を検討)" None WARN;
    rule (plus (Cls fullwidth_alnum))
         "全角英数字が含まれています (半角英数字への統一を検討)" None INFO;
    rule (plus (lit (u "ｰ")))
         "半角長音記号 'ｰ' が含まれます (全角 'ー' へ統一を検討)" (Some "ー") INFO;
    rule (plus (lit (u "　")))
         "全角スペースが含まれています (半角スペースへの統一を検討)" (Some " ") ERROR;
    (* runs of punctuation *)
    rule (Alt (lit (u "、、")) (lit (u "。。"))) "句読点が連続しています" None WARN;
    rule (at_least 2 (Cls (one_of (u "！!")))) "感嘆符が連続しています" None INFO;
    rule (at_least 2 (Cls (one_of (u "？?")))) "疑問符が連続しています" None INFO;
    (* the honorific prefix *)
    word "御連絡" "'御連絡' -> 'ご連絡' を推奨" (Some "ご連絡") INFO;
    word "御確認" "'御確認' -> 'ご確認' を推奨" (Some "ご確認") INFO;
    word "御案内" "'御案内' -> 'ご案内' を推奨" (Some "ご案内") INFO;
    word "御利用" "'御利用' -> 'ご利用' を推奨" (Some "ご利用") INFO;
    word "御問い合わせ" "'御問い合わせ' -> 'お問い合わせ' を推奨" (Some "お問い合わせ") INFO;
    word "御名前" "'御名前' -> 'お名前' を推奨" (Some "お名前") INFO;
    word "御住所" "'御住所' -> 'ご住所' を推奨" (Some "ご住所") INFO;
    word "御手数" "'御手数' -> 'お手数' を推奨" (Some "お手数") INFO;
    word "御覧" "'御覧' -> 'ご覧' を推奨" (Some "ご覧") INFO;
    (* business terms *)
    word "お問合せ" "'お問合せ' -> 'お問い合わせ' を推奨" (Some "お問い合わせ") INFO;
    word "取扱い" "'取扱い' -> '取り扱い' を推奨" (Some "取り扱い") INFO;
    word "見積り" "'見積り' -> '見積もり' を推奨" (Some "見積もり") INFO;
    (* spaces, punctuation, slips of editing *)
    rule (at_least 2 (Cls is_space)) "連続スペースを1つに" (Some " ") INFO;
    rule (Seq (Behind true kana_kanji) (Seq (plus (chr 32)) (Look true (Cls kana_kanji))))
         "日本語の間のスペースを削除" (Some "") INFO;
    rule (Seq (Cls period) (plus (Cls comma))) "句点直後の読点を削除/統一" (Some "。") WARN;
    rule (Seq (Cls comma) (plus (Cls period))) "読点直後の句点を削除/統一" (Some "、") WARN;
    word "にりして" "編集ミスの可能性: 'にりして' -> 'にして'" (Some "にして") WARN;
    (* garbled text *)
    rule (at_least 2 (chr 0xFFFD)) "文字化けの可能性（置換文字が連続）" None ERROR;
    rule (at_least 2 (Alt (Seq (chr 0xC3) dot) (Seq (chr 0xC2) dot)))
         "文字化けの可能性（エンコーディング不一致）" None WARN ].

(** [_simple_patterns()]: the built-in rules followed by what the
    bundled variants file contributes ([variants]; nothing when the file
    is absent or cannot be used). *)
Definition _simple_patterns (variants : list TypoPattern) : list TypoPattern :=
  BUILTIN_PATTERNS ++ variants.

(** The module variable [_PATTERNS]: [None] until first use. *)
Definition registry : Type := option (list TypoPattern).

Definition loaded_patterns (variants : list TypoPattern) (st : registry) : list TypoPattern :=
  match st with
  | None => _simple_patterns variants
  | Some l => l
  end.

Definition add_patterns (variants : list TypoPattern) (st : registry)
  (patterns : list TypoPattern) : registry :=
  Some (loaded_patterns variants st ++ patterns).

Definition get_patterns (variants : list TypoPattern) (st : registry)
  : list TypoPattern * registry :=
  (loaded_patterns variants st, Some (loaded_patterns variants st)).

(** ** file_scanner.py: [is_probably_text] *)

Definition BINARY_BYTES (b : Z) : bool :=
  in_range 0 8 b || one_of [11; 12] b || in_range 14 31 b.

(** The ratio is a float in the source and the exact quotient here; the
    two decide alike for every file shorter than 2^50 bytes. *)
Definition is_probably_text (data : list Z) (threshold : Q) : bool :=
  match data with
  | [] => true
  | _ :: _ =>
    let non_text := count_chars BINARY_BYTES data in
    Qlt_bool (quotient non_text (len data)) threshold
  end.

(** ** morph.py: the offsets of the tokens *)

(** [text.find(sub, start)] for a start that is not negative. *)
Definition str_find_from (s sub : str) (start : Z) : Z :=
  if len s <? start then -1 else str_find_at s sub start.

(** The loop of [tokenize_with_spans], the same for both tokenizers:
    [tokens] are the surfaces the tokenizer yields, each with its part
    of speech. *)
Fixpoint token_spans (text : str) (tokens : list (list Z * option (list Z))) (idx : Z)
  : list (Z * Z * list Z * option (list Z)) :=
  match tokens with
  | [] => []
  | (surf, pos_tag) :: t =>
    let pos := str_find_from text surf idx in
    let pos := if pos <? 0 then idx else pos in
    let end_ := pos + len surf in
    (pos, end_, surf, pos_tag) :: token_spans text t end_
  end.

(** [tokenize_with_spans(text)]: without a tokenizer the text is one
    piece. *)
Definition tokenize_with_spans (tokenizer : option (list Z -> list (list Z * option (list Z))))
  (text : str) : list (Z * Z * list Z * option (list Z)) :=
  match tokenizer with
  | None => [(0, len text, text, None)]
  | Some tokens => token_spans text (tokens text) 0
  end.

(** ** cli.py: [_offset_to_linecol] *)

Definition _offset_to_linecol (text : str) (idx : Z) : Z * Z :=
  if idx <=? 0 then (1, 1)
  else
    let line := str_count (py_slice text 0 idx) [10] + 1 in
    let last_nl := str_rfind_char text 10 idx in
    let col := if negb (last_nl =? -1) then (idx - (last_nl + 1)) + 1 else idx + 1 in
    (line, col).

(* ===================================================================== *)
(** * Part II.  Properties                                                 *)
(* ===================================================================== *)

(** ** Slices *)

Lemma len_nonneg (s : list Z) : 0 <= len s.
Proof. unfold len. lia. Qed.

Lemma len_app (a b : list Z) : len (a ++ b) = len a + len b.
Proof. unfold len. rewrite length_app. lia. Qed.

Lemma clamp_index_range (n i : Z) : 0 <= n -> 0 <= clamp_index n i <= n.
Proof. unfold clamp_index. destruct (i <? 0) eqn:E; lia. Qed.

Lemma clamp_index_id (n i : Z) : 0 <= i <= n -> clamp_index n i = i.
Proof. unfold clamp_index. destruct (i <? 0) eqn:E; lia. Qed.

(** A slice with both bounds inside the string, in terms of [firstn]
    and [skipn]. *)
Lemma py_slice_inside (s : list Z) (a b : Z) :
  0 <= a -> a <= b -> b <= len s ->
  py_slice s a b = firstn (Z.to_nat (b - a)) (skipn (Z.to_nat a) s).
Proof.
  intros Ha Hab Hb. unfold py_slice.
  rewrite !clamp_index_id by lia. reflexivity.
Qed.

Lemma py_slice_app (pre mid post : list Z) :
  py_slice (pre ++ mid ++ post) (len pre) (len pre + len mid) = mid.
Proof.
  rewrite py_slice_inside.
  - unfold len. rewrite Nat2Z.id.
    replace (Z.to_nat (Z.of_nat (length pre) + Z.of_nat (length mid) - Z.of_nat (length pre)))
      with (length mid) by lia.
    rewrite skipn_app, skipn_all, Nat.sub_diag. simpl. rewrite skipn_O.
    rewrite firstn_app, firstn_all, Nat.sub_diag. simpl. apply app_nil_r.
  - apply len_nonneg.
  - pose proof (len_nonneg mid). lia.
  - rewrite !len_app. pose proof (len_nonneg post). lia.
Qed.

Lemma py_slice_len (s : list Z) (a b : Z) :
  0 <= a -> a <= b -> b <= len s -> len (py_slice s a b) = b - a.
Proof.
  intros. rewrite py_slice_inside by assumption. unfold len in *.
  rewrite length_firstn, length_skipn. lia.
Qed.


Lemma slice_to_app (pre post : list Z) : slice_to (pre ++ post) (len pre) = pre.
Proof.
  unfold slice_to. pose proof (py_slice_app [] pre post) as H. simpl in H.
  unfold len at 1 in H. simpl in H. exact H.
Qed.

Lemma slice_from_app (pre post : list Z) : slice_from (pre ++ post) (len pre) = post.
Proof.
  unfold slice_from. pose proof (py_slice_app pre post []) as H.
  rewrite app_nil_r in H. rewrite len_app. exact H.
Qed.

(** ** The matcher consumes a prefix of the remaining text *)

(** [k] succeeds with [x] on a state reached from [s] by consuming a
    prefix of at least [w] code points. *)
Definition consumes (k : mstate -> option mstate) (s x : mstate) (w : nat) : Prop :=
  exists s' pre, k s' = Some x /\ m_rest s = pre ++ m_rest s' /\ (w <= length pre)%nat.

Lemma consumes_here k s x : k s = Some x -> consumes k s x 0.
Proof. intros H. exists s, []. simpl. auto with arith. Qed.

Lemma consumes_weaken k s x w w' : (w' <= w)%nat -> consumes k s x w -> consumes k s x w'.
Proof. intros Hw (s' & pre & ? & ? & ?). exists s', pre. repeat split; auto; lia. Qed.

Lemma consumes_chain k1 k2 s x w1 w2 :
  consumes k1 s x w1 ->
  (forall s1, k1 s1 = Some x -> consumes k2 s1 x w2) ->
  consumes k2 s x (w1 + w2).
Proof.
  intros (s1 & pre1 & H1 & E1 & L1) H2.
  destruct (H2 s1 H1) as (s2 & pre2 & H3 & E2 & L2).
  exists s2, (pre1 ++ pre2). split; [assumption|]. split.
  - rewrite E1, E2. apply app_assoc.
  - rewrite length_app. lia.
Qed.

Lemma advance_sound g : forall s s', advance g s = Some s' -> m_rest s = g ++ m_rest s'.
Proof.
  induction g as [|c g IH]; intros s s' H; simpl in *.
  - congruence.
  - destruct (m_rest s) as [|d t] eqn:E; [discriminate|].
    destruct (c =? d) eqn:Ec; [|discriminate].
    apply Z.eqb_eq in Ec. subst d.
    apply IH in H. simpl in H. rewrite H. reflexivity.
Qed.

Lemma rep_loop_sound body k greedy lo hi (w : nat) :
  (forall k' s x, body k' s = Some x -> consumes k' s x w) ->
  forall fuel i s x,
    rep_loop body k greedy lo hi fuel i s = Some x ->
    consumes k s x (if Nat.ltb i lo then w else 0).
Proof.
  intros Hbody. induction fuel as [|f IH]; intros i s x H; simpl in H.
  - destruct (Nat.leb lo i) eqn:E; [|discriminate].
    apply Nat.leb_le in E. replace (Nat.ltb i lo) with false
      by (symmetry; apply Nat.ltb_ge; lia).
    now apply consumes_here.
  - assert (Hstop : (if Nat.leb lo i then k s else None) = Some x ->
                    consumes k s x (if Nat.ltb i lo then w else 0)).
    { destruct (Nat.leb lo i) eqn:E; [|discriminate]. intros Hk.
      apply Nat.leb_le in E. replace (Nat.ltb i lo) with false
        by (symmetry; apply Nat.ltb_ge; lia).
      now apply consumes_here. }
    assert (Hmore : (if below hi i
                     then body (fun s' =>
                            if Nat.ltb (length (m_rest s')) (length (m_rest s))
                            then rep_loop body k greedy lo hi f (S i) s' else None) s
                     else None) = Some x ->
                    consumes k s x (if Nat.ltb i lo then w else 0)).
    { destruct (below hi i); [|discriminate]. intros Hb.
      apply Hbody in Hb.
      apply consumes_weaken with (w := (w + 0)%nat);
        [destruct (Nat.ltb i lo); lia|].
      eapply consumes_chain; [exact Hb|].
      intros s1 H1. simpl in H1.
      destruct (Nat.ltb (length (m_rest s1)) (length (m_rest s))); [|discriminate].
      apply IH in H1. eapply consumes_weaken; [|exact H1]. lia. }
    destruct greedy.
    + destruct (if below hi i then _ else None) eqn:E1.
      * apply Hmore. exact H.
      * apply Hstop. exact H.
    + destruct (if Nat.leb lo i then k s else None) eqn:E1.
      * apply Hstop. exact H.
      * apply Hmore. exact H.
Qed.

(** Every successful match hands its continuation a state whose text
    is a suffix of the text it started from, at least [min_len r] code
    points further on. *)
Lemma rmatch_sound r : forall k s x, rmatch r k s = Some x -> consumes k s x (min_len r).
Proof.
  induction r as [|p|a IHa b IHb|a IHa b IHb|greedy lo hi a IHa|positive a IHa
                 |positive p|ml|ml|w|n a IHa|n];
    intros k s x H; cbn [rmatch] in H.
  - now apply consumes_here.
  - destruct (m_rest s) as [|c t] eqn:E; [discriminate|].
    destruct (p c); [|discriminate].
    exists (MState (Some c) t (m_caps s)), [c]. simpl. auto.
  - simpl. eapply consumes_chain; [apply IHa; exact H|].
    intros s1 H1. now apply IHb.
  - simpl. destruct (rmatch a k s) eqn:E.
    + inversion H; subst. eapply consumes_weaken; [|apply IHa; exact E]. lia.
    + eapply consumes_weaken; [|apply IHb; exact H]. lia.
  - apply (rep_loop_sound _ _ _ _ _ (min_len a)) in H; [|exact IHa].
    simpl in *. destruct lo; simpl in *; [|exact H].
    exact H.
  - simpl. destruct (rmatch a Some s); destruct positive; try discriminate;
      now apply consumes_here.
  - simpl. destruct (Bool.eqb _ _); [|discriminate]. now apply consumes_here.
  - simpl. destruct (m_prev s); [destruct (ml && _)|]; try discriminate;
      now apply consumes_here.
  - simpl. destruct (m_rest s) as [|c t]; [now apply consumes_here|].
    destruct (is_newline c && _); [|discriminate]. now apply consumes_here.
  - simpl. destruct (xorb _ _); [|discriminate]. now apply consumes_here.
  - simpl. apply IHa in H. destruct H as (s' & pre & Hk & E & L).
    exists (MState (m_prev s') (m_rest s')
              ((n, firstn (length (m_rest s) - length (m_rest s')) (m_rest s)) :: m_caps s')), pre.
    simpl. auto.
  - simpl. destruct (cap_lookup n (m_caps s)) as [g|]; [|discriminate].
    destruct (advance g s) as [s'|] eqn:E; [|discriminate].
    exists s', g. split; [assumption|]. split; [now apply advance_sound|lia].
Qed.

(** ** Match objects and [finditer] *)

Lemma match_here_sound r pos prev rest m :
  match_here r pos prev rest = Some m ->
  exists post,
    rest = mo_group0 m ++ post
    /\ mo_start m = Z.of_nat pos
    /\ mo_end m = Z.of_nat pos + len (mo_group0 m)
    /\ (min_len r <= length (mo_group0 m))%nat.
Proof.
  unfold match_here. intros H.
  destruct (rmatch r Some _) as [x|] eqn:E; [|discriminate].
  apply rmatch_sound in E. destruct E as (s' & pre & Hk & Hr & L).
  inversion Hk; subst s'. simpl in Hr. inversion H; subst m; clear H. simpl.
  assert (Hn : (length rest - length (m_rest x))%nat = length pre).
  { rewrite Hr, length_app. lia. }
  rewrite Hn.
  assert (Hf : firstn (length pre) rest = pre).
  { rewrite Hr, firstn_app, firstn_all, Nat.sub_diag. simpl. apply app_nil_r. }
  rewrite Hf. exists (m_rest x). repeat split; auto. unfold len. lia.
Qed.

(** The matches of a [finditer] all lie in the text, are read off it,
    and follow one another: each starts at or after [lo], and the next
    ones start at or after its end (and after its start). *)
Fixpoint spans_ok (text : list Z) (w : Z) (lo : Z) (l : list match_obj) : Prop :=
  match l with
  | [] => True
  | m :: t =>
    lo <= mo_start m
    /\ mo_start m + w <= mo_end m
    /\ mo_end m <= len text
    /\ mo_group0 m = py_slice text (mo_start m) (mo_end m)
    /\ spans_ok text w (Z.max (mo_end m) (mo_start m + 1)) t
  end.

Lemma spans_ok_weaken text w lo lo' l :
  lo' <= lo -> spans_ok text w lo l -> spans_ok text w lo' l.
Proof. destruct l; simpl; intuition lia. Qed.

Lemma finditer_from_ok r text : forall rest pre pos prev skip,
  text = pre ++ rest -> pos = length pre ->
  spans_ok text (Z.of_nat (min_len r)) (Z.of_nat pos + Z.of_nat skip)
           (finditer_from r pos prev rest skip).
Proof.
  induction rest as [|c t IH]; intros pre pos prev skip Ht Hp.
  - destruct skip; simpl; [|exact I].
    destruct (match_here r pos prev []) as [m|] eqn:E; simpl; [|exact I].
    apply match_here_sound in E. destruct E as (post & E & Hs & He & L).
    symmetry in E. apply app_eq_nil in E. destruct E as [Eg _].
    rewrite Eg in *. unfold len in *. simpl in *.
    rewrite Hs, He. subst text. rewrite app_nil_r. subst pos.
    repeat split; try lia.
    pose proof (py_slice_app pre [] []) as Hsl. rewrite app_nil_r in Hsl.
    unfold len in Hsl. simpl in Hsl. rewrite Hsl. reflexivity.
  - assert (Hnext : forall k, spans_ok text (Z.of_nat (min_len r))
                      (Z.of_nat (S pos) + Z.of_nat k)
                      (finditer_from r (S pos) (Some c) t k)).
    { intros k. apply (IH (pre ++ [c])).
      - rewrite <- app_assoc. exact Ht.
      - rewrite length_app. simpl. lia. }
    destruct skip as [|k]; simpl.
    + destruct (match_here r pos prev (c :: t)) as [m|] eqn:E; simpl.
      * apply match_here_sound in E. destruct E as (post & E & Hs & He & L).
        rewrite Hs, He. repeat split; try lia.
        -- unfold len. lia.
        -- subst text pos. rewrite E, len_app, len_app. pose proof (len_nonneg post).
           unfold len in *. lia.
        -- subst text pos. rewrite E. symmetry. apply py_slice_app.
        -- eapply spans_ok_weaken; [|apply Hnext]. unfold len. lia.
      * eapply spans_ok_weaken; [|apply Hnext]. lia.
    + eapply spans_ok_weaken; [|apply Hnext]. lia.
Qed.

Lemma finditer_ok r text :
  spans_ok text (Z.of_nat (min_len r)) 0 (finditer r text).
Proof. apply (finditer_from_ok r text text [] 0%nat None 0%nat); reflexivity. Qed.

Lemma spans_ok_In text w lo l m :
  spans_ok text w lo l -> In m l ->
  lo <= mo_start m /\ mo_start m + w <= mo_end m /\ mo_end m <= len text
  /\ mo_group0 m = py_slice text (mo_start m) (mo_end m).
Proof.
  revert lo. induction l as [|a l IH]; intros lo H Hin; [destruct Hin|].
  simpl in H. destruct H as (H1 & H2 & H3 & H4 & H5).
  destruct Hin as [->|Hin]; [auto|].
  destruct (IH _ H5 Hin) as (? & ? & ? & ?). repeat split; auto; lia.
Qed.

Lemma spans_ok_order text w lo l : forall i j a b,
  spans_ok text w lo l -> (i < j)%nat ->
  nth_error l i = Some a -> nth_error l j = Some b ->
  mo_end a <= mo_start b /\ mo_start a < mo_start b.
Proof.
  revert lo. induction l as [|m l IH]; intros lo i j a b H Hij Ha Hb.
  - destruct i; discriminate.
  - simpl in H. destruct H as (H1 & H2 & H3 & H4 & H5).
    destruct j as [|j]; [lia|]. simpl in Hb.
    destruct i as [|i]; simpl in Ha.
    + inversion Ha; subst a.
      apply nth_error_In in Hb.
      destruct (spans_ok_In _ _ _ _ _ H5 Hb) as (Hlo & _). lia.
    + apply (IH _ i j a b H5); [lia | exact Ha | exact Hb].
Qed.

(** ** Spans of the extractors *)

(** A list of spans read off [text]: every span lies in the text, is at
    least [w] wide, carries the text between its offsets, and the spans
    follow one another without overlap. *)
Definition spans_of_text (text : list Z) (w : Z) (l : list span) : Prop :=
  (forall s e c, In (s, e, c) l ->
     0 <= s /\ s + w <= e /\ e <= len text /\ c = py_slice text s e)
  /\ (forall i j si ei ci sj ej cj, (i < j)%nat ->
        nth_error l i = Some (si, ei, ci) ->
        nth_error l j = Some (sj, ej, cj) ->
        ei <= sj /\ si < sj).

Lemma finditer_spans (r : re) (text : list Z) :
  spans_of_text text (Z.of_nat (min_len r)) (map span_of (finditer r text)).
Proof.
  pose proof (finditer_ok r text) as Hok. split.
  - intros s e c Hin. apply in_map_iff in Hin. destruct Hin as (m & Hm & Hin).
    unfold span_of in Hm. inversion Hm; subst.
    destruct (spans_ok_In _ _ _ _ _ Hok Hin) as (? & ? & ? & ?). auto.
  - intros i j si ei ci sj ej cj Hij Hi Hj.
    rewrite nth_error_map in Hi, Hj.
    destruct (nth_error (finditer r text) i) as [a|] eqn:Ea; [|discriminate].
    destruct (nth_error (finditer r text) j) as [b|] eqn:Eb; [|discriminate].
    simpl in Hi, Hj. unfold span_of in Hi, Hj. inversion Hi; inversion Hj; subst.
    eapply spans_ok_order; eauto.
Qed.




(** Claim C10.  The spans [extract_japanese_blocks] yields for a text are
    non-empty, lie in the text and carry the text between their
    offsets ([content == text[start:end]]); they are pairwise disjoint
    and come in strictly increasing order of their start: of two
    yielded spans the later one starts at or after the end of the
    earlier one, and after its start. *)
Theorem extract_japanese_blocks_disjoint_increasing (text : list Z) :
  (forall s e c, In (s, e, c) (extract_japanese_blocks text) ->
     0 <= s /\ s < e /\ e <= len text /\ c = py_slice text s e)
  /\ (forall i j si ei ci sj ej cj, (i < j)%nat ->
        nth_error (extract_japanese_blocks text) i = Some (si, ei, ci) ->
        nth_error (extract_japanese_blocks text) j = Some (sj, ej, cj) ->
        ei <= sj /\ si < sj).
Proof.
  destruct (finditer_spans _JP_BLOCK_RE text) as [H1 H2]. split.
  - intros s e c Hin. apply H1 in Hin. simpl in Hin. intuition lia.
  - exact H2.
Qed.

(** ** [check_text]: offsets are offsets into the document *)








Section CheckTextOffsets.
  Variable patterns : list TypoPattern.
  Variable advanced_rules : list Z -> list hit.
  Variable style_rule : list Z -> option hit.
  Variables morph_on lt_on nlp_on spell_on : bool.
  Variable tokenizer : list Z -> list (Z * Z * option (list Z)).
  Variable grammar_checker : list Z -> list Z -> list hit.
  Variable semantic_analyzer : list Z -> list Z -> list hit.
  Variable spell_checker : list Z -> list (list Z) -> list hit.

Let check := check_text patterns advanced_rules style_rule morph_on lt_on nlp_on
                          spell_on tokenizer grammar_checker semantic_analyzer
                          spell_checker.
Let hits := provider_hits patterns advanced_rules lt_on nlp_on spell_on
                            grammar_checker semantic_analyzer spell_checker.
Let pieces := subspans morph_on tokenizer.

  (** Where an issue of [check_text] comes from: the document-level
      style check, or a hit of a provider on a sub-span of a gathered
      span, its offsets shifted by the start of the sub-span. *)
Definition issue_origin (o : check_opts) (text : list Z) (i : Issue) : Prop :=
    (advanced o = true
     /\ exists h, style_rule text = Some h /\ i = issue_of_hit o text 0 WARN h)
    \/ exists sp s2 e2 jp2 d h,
         In sp (_gather_spans text (from_code o) (include_comments o))
         /\ In (s2, e2, jp2) (pieces o sp)
         /\ In (d, h) (hits o jp2)
         /\ i = issue_of_hit o text s2 d h
         /\ i_start i = s2 + h_start h
         /\ i_end i = s2 + h_end h.

Lemma check_text_origin o text i : In i (check o text) -> issue_origin o text i.
  Proof.
    unfold check, check_text. rewrite in_app_iff. intros [H|H].
    - right. apply in_flat_map in H. destruct H as (sp & Hsp & H).
      apply in_flat_map in H. destruct H as ([[s2 e2] jp2] & Hsub & H).
      unfold span_issues in H. apply in_map_iff in H.
      destruct H as ([d h] & Hi & Hh). simpl in Hi.
      exists sp, s2, e2, jp2, d, h. subst i. repeat split; auto.
    - left. unfold style_issue in H. destruct (advanced o); [|destruct H].
      split; [reflexivity|]. destruct (style_rule text) as [h|]; [|destruct H].
      destruct H as [H|[]]. exists h. auto.
  Qed.

End CheckTextOffsets.

(** A quoted string inside a line comment: the literal is found both as
    a string literal and through the comment, and both routes give the
    offsets of the fragment in the document. *)
Example check_text_nested_example :
  let text := u "# x = '見れる'" in
  map (fun i => (i_start i, i_end i, i_snippet i))
      (check_text [] (run_advanced (in_range 48 57) (fun s => s) default_config)
                  (detect_style_mixed_lines default_config)
                  false false false false (fun _ => []) (fun _ _ => [])
                  (fun _ _ => []) (fun _ _ => [])
                  (CheckOpts true None true false true false [] false [] false None false)
                  text)
  = [(7, 10, u "見れる"); (7, 10, u "見れる"); (7, 10, u "見れる"); (7, 10, u "見れる")]
  /\ py_slice text 7 10 = u "見れる".
Proof. vm_compute. split; reflexivity. Qed.

(** ** [apply_fixes]: sorting and splicing *)

Lemma firstn_plus {A} (m k : nat) : forall l : list A,
  firstn (m + k) l = firstn m l ++ firstn k (skipn m l).
Proof.
  induction m as [|m IH]; intros l; simpl; [reflexivity|].
  destruct l as [|a l]; simpl.
  - now rewrite firstn_nil.
  - f_equal. apply IH.
Qed.

Lemma firstn_skipn_concat {A} (l : list A) (x y z : nat) :
  (x <= y)%nat -> (y <= z)%nat ->
  firstn (y - x) (skipn x l) ++ firstn (z - y) (skipn y l) = firstn (z - x) (skipn x l).
Proof.
  intros Hxy Hyz.
  replace (z - x)%nat with ((y - x) + (z - y))%nat by lia.
  rewrite firstn_plus. f_equal. f_equal.
  rewrite skipn_skipn. f_equal. lia.
Qed.

(** Two adjacent slices make one slice, also past the end of the text. *)
Lemma py_slice_concat (t : list Z) (a b c : Z) :
  0 <= a -> a <= b -> b <= c ->
  py_slice t a b ++ py_slice t b c = py_slice t a c.
Proof.
  intros Ha Hab Hbc. unfold py_slice, clamp_index.
  pose proof (len_nonneg t) as Hn.
  destruct (a <? 0) eqn:Ea; [lia|]. destruct (b <? 0) eqn:Eb; [lia|].
  destruct (c <? 0) eqn:Ec; [lia|].
  rewrite !Z2Nat.inj_sub by lia.
  apply firstn_skipn_concat; lia.
Qed.

Lemma slice_from_concat (t : list Z) (a b : Z) :
  0 <= a -> a <= b -> py_slice t a b ++ slice_from t b = slice_from t a.
Proof.
  intros Ha Hab. unfold slice_from.
  destruct (Z_le_gt_dec b (len t)) as [H|H].
  - apply py_slice_concat; lia.
  - unfold py_slice, clamp_index. pose proof (len_nonneg t).
    destruct (a <? 0) eqn:Ea; [lia|]. destruct (b <? 0) eqn:Eb; [lia|].
    destruct (len t <? 0) eqn:En; [lia|].
    replace (Z.to_nat (Z.min (len t) (len t) - Z.min b (len t))) with 0%nat by lia.
    rewrite firstn_O, app_nil_r. f_equal. lia.
Qed.

(** The issues the second loop applies, from the cursor [cur] on. *)
Fixpoint applied (l : list Issue) (cur : Z) : list Issue :=
  match l with
  | [] => []
  | i :: t => if i_start i <? cur then applied t cur else i :: applied t (i_end i)
  end.

(** The text obtained from [text] by replacing the spans of [l], which
    are taken in order from the cursor on, by [repl]. *)
Fixpoint assemble (text : list Z) (repl : Issue -> list Z) (l : list Issue) (cur : Z)
  : list Z :=
  match l with
  | [] => slice_from text cur
  | i :: t => py_slice text cur (i_start i) ++ repl i ++ assemble text repl t (i_end i)
  end.

(** Each span starts at or after the end of the one before. *)
Fixpoint chained (cur : Z) (l : list Issue) : Prop :=
  match l with
  | [] => True
  | i :: t => cur <= i_start i /\ chained (i_end i) t
  end.

Definition original (text : list Z) (i : Issue) : list Z :=
  py_slice text (i_start i) (i_end i).

Lemma splice_assemble text : forall l cur,
  splice text l cur = assemble text (replacement text) (applied l cur) cur.
Proof.
  induction l as [|i t IH]; intros cur; simpl; [reflexivity|].
  destruct (i_start i <? cur); simpl; [apply IH|]. now rewrite IH.
Qed.

Lemma applied_chained : forall l cur, chained cur (applied l cur).
Proof.
  induction l as [|i t IH]; intros cur; simpl; [exact I|].
  destruct (i_start i <? cur) eqn:E; simpl; [apply IH|].
  split; [lia|apply IH].
Qed.

Lemma applied_incl : forall l cur i, In i (applied l cur) -> In i l.
Proof.
  induction l as [|a t IH]; intros cur i H; simpl in *; [assumption|].
  destruct (i_start a <? cur).
  - right. eapply IH; eauto.
  - destruct H as [H|H]; [left; assumption|right; eapply IH; eauto].
Qed.

(** With every replacement equal to the text it replaces the result is
    the text itself: the segments between the spans are neither
    repeated nor lost. *)
Lemma assemble_original text : forall l cur,
  0 <= cur -> chained cur l -> Forall (fun i => i_start i <= i_end i) l ->
  assemble text (original text) l cur = slice_from text cur.
Proof.
  induction l as [|i t IH]; intros cur Hc Hch Hwf; simpl; [reflexivity|].
  destruct Hch as [H1 H2]. inversion Hwf; subst.
  rewrite IH by (auto; lia). unfold original.
  rewrite slice_from_concat by lia. apply slice_from_concat; lia.
Qed.

Lemma slice_from_0 (t : list Z) : slice_from t 0 = t.
Proof.
  unfold slice_from, py_slice, clamp_index. pose proof (len_nonneg t).
  destruct (len t <? 0) eqn:E; [lia|]. simpl.
  replace (Z.to_nat (Z.min (len t) (len t) - Z.min 0 (len t))) with (length t)
    by (unfold len; lia).
  replace (Z.to_nat (Z.min 0 (len t))) with 0%nat by lia.
  rewrite skipn_O. apply firstn_all.
Qed.

(** The sort: a permutation in the order of the keys [(start, end)]. *)
Definition key_order (a b : Issue) : Prop := key_le a b = true.

Lemma key_le_total a b : key_le a b = false -> key_le b a = true.
Proof. unfold key_le. intros H. apply orb_false_iff in H. destruct H as [H1 H2].
  apply andb_false_iff in H2.
  destruct (Z.ltb_spec (i_start b) (i_start a)); [reflexivity|]. simpl.
  destruct (Z.eqb_spec (i_start b) (i_start a)); simpl.
  - destruct H2 as [H2|H2]; [rewrite e, Z.eqb_refl in H2; discriminate|]. lia.
  - apply Z.ltb_ge in H1. lia.
Qed.

Lemma insert_issue_perm x : forall l, Permutation (insert_issue x l) (x :: l).
Proof.
  induction l as [|y t IH]; simpl; [reflexivity|].
  destruct (key_le x y); [reflexivity|].
  rewrite IH. apply perm_swap.
Qed.

Lemma insert_issue_sorted x : forall l,
  Sorted key_order l -> Sorted key_order (insert_issue x l).
Proof.
  induction l as [|y t IH]; intros H; simpl.
  - repeat constructor.
  - destruct (key_le x y) eqn:E.
    + constructor; [assumption|]. constructor. exact E.
    + inversion H; subst. constructor; [now apply IH|].
      destruct t as [|z t]; simpl.
      * constructor. now apply key_le_total.
      * destruct (key_le x z); constructor.
        -- now apply key_le_total.
        -- inversion H3; subst. assumption.
Qed.

Lemma sort_issues_perm l : Permutation (sort_issues l) l.
Proof.
  induction l as [|x l IH]; simpl; [reflexivity|].
  rewrite insert_issue_perm. now constructor.
Qed.

Lemma sort_issues_sorted l : Sorted key_order (sort_issues l).
Proof. induction l as [|x l IH]; simpl; [constructor|]. now apply insert_issue_sorted. Qed.

Section ApplyFixes.
  Variable unicode_word : Z -> bool.
  Variable nfkc : list Z -> list Z.

  Local Abbreviation Resolve := (resolve unicode_word nfkc).
  Local Abbreviation Survivors := (survivors unicode_word nfkc).
  Local Abbreviation ApplyFixes := (apply_fixes unicode_word nfkc).

Lemma survivors_In text ag cx ul un : forall issues i',
  In i' (Survivors text ag cx ul un issues) <->
  exists i, In i issues /\ Resolve text ag cx ul un i = Some i'.
Proof.
  induction issues as [|a t IH]; intros i'; simpl.
  - split; [intros []|intros (i & [] & _)].
  - destruct (Resolve text ag cx ul un a) as [a'|] eqn:E;
      simpl; rewrite ?IH; split.
    + intros [<-|(i & Hi & Hr)]; [exists a; auto|exists i; auto].
    + intros (i & [<-|Hi] & Hr); [left; congruence|right; exists i; auto].
    + intros (i & Hi & Hr). exists i; auto.
    + intros (i & [<-|Hi] & Hr); [congruence|exists i; auto].
Qed.

Lemma resolve_span text ag cx ul un i i' :
  Resolve text ag cx ul un i = Some i' ->
  i_start i' = i_start i /\ i_end i' = i_end i.
Proof.
  unfold resolve. destruct (cx && _); [discriminate|].
  destruct (_compute_suggestion _ _ _ _ _ _); [|discriminate].
  intros H; inversion H; subst. auto.
Qed.

(** Claim C2.  [apply_fixes] sorts the surviving issues by
    [(start, end)] and walks them with a cursor, skipping every issue
    that starts before the cursor.  The output consists of the source
    segments between the applied issues and their replacements; the
    applied issues follow one another without overlap; when every
    issue is a span ([start <= end]), putting the original text back
    for every replacement gives the text again, so nothing outside the
    edited spans is repeated or lost.  Of two overlapping surviving
    issues, the one that starts first is applied and the other is
    dropped: the text from the end of the first on is untouched. *)
Theorem apply_fixes_first_match_wins
  (text : list Z) (issues : list Issue) (aggressive context use_lt use_nlp : bool) :
  let surviving := Survivors text aggressive context use_lt use_nlp issues in
  let sorted := sort_issues surviving in
  (* sorted by (start, end) *)
  (Permutation sorted surviving /\ Sorted key_order sorted)
  (* walked with a cursor; an issue that starts before the cursor is skipped *)
  /\ ApplyFixes text issues aggressive context use_lt use_nlp
     = splice text sorted 0
  /\ (forall i rest cur, i_start i < cur ->
        splice text (i :: rest) cur = splice text rest cur)
  (* the output: source segments and replacements of the applied issues *)
  /\ ApplyFixes text issues aggressive context use_lt use_nlp
     = assemble text (replacement text) (applied sorted 0) 0
  /\ chained 0 (applied sorted 0)
  (* nothing outside the edited spans is repeated or lost *)
  /\ (Forall (fun i => i_start i <= i_end i) issues ->
      assemble text (original text) (applied sorted 0) 0 = text)
  (* two overlapping issues: the one that starts first wins *)
  /\ (forall a b,
        Permutation surviving [a; b] ->
        0 <= i_start a -> i_start a < i_start b -> i_start b < i_end a ->
        ApplyFixes text issues aggressive context use_lt use_nlp
        = py_slice text 0 (i_start a) ++ replacement text a ++ slice_from text (i_end a)).
Proof.
  intros surviving sorted. repeat split.
  - apply sort_issues_perm.
  - apply sort_issues_sorted.
  - intros i rest cur H. simpl. apply Z.ltb_lt in H. now rewrite H.
  - unfold apply_fixes. apply splice_assemble.
  - apply applied_chained.
  - intros Hwf. rewrite assemble_original; [apply slice_from_0|lia|apply applied_chained|].
    apply Forall_forall. intros i Hi. apply applied_incl in Hi.
    apply (Permutation_in _ (sort_issues_perm surviving)) in Hi.
    apply survivors_In in Hi. destruct Hi as (i0 & Hi0 & Hr).
    apply resolve_span in Hr. destruct Hr as [-> ->].
    rewrite Forall_forall in Hwf. now apply Hwf.
  - intros a b Hp H0 Hab Hba. unfold apply_fixes. fold surviving.
    assert (Hs : sort_issues surviving = [a; b]).
    { assert (Hc : surviving = [a; b] \/ surviving = [b; a]).
      { pose proof (Permutation_length Hp) as Hl.
        destruct surviving as [|x [|y [|z l]]]; try discriminate.
        apply Permutation_length_2 in Hp. destruct Hp as [[-> ->]|[-> ->]]; auto. }
      destruct Hc as [-> | ->]; simpl; unfold key_le.
      - replace (i_start a <? i_start b) with true by (symmetry; apply Z.ltb_lt; lia).
        reflexivity.
      - replace (i_start b <? i_start a) with false by (symmetry; apply Z.ltb_ge; lia).
        replace (i_start b =? i_start a) with false by (symmetry; apply Z.eqb_neq; lia).
        reflexivity. }
    rewrite Hs. simpl.
    replace (i_start a <? 0) with false by (symmetry; apply Z.ltb_ge; lia).
    replace (i_start b <? i_end a) with true by (symmetry; apply Z.ltb_lt; lia).
    reflexivity.
Qed.

End ApplyFixes.

(** The two issues [0,5) and [3,8) of the specification, on ten digits. *)
Definition digits : list Z := u "0123456789".
Definition issue_0_5 : Issue := MkIssue None 0 5 (u "01234") [] (Some (u "X")) WARN None.
Definition issue_3_8 : Issue := MkIssue None 3 8 (u "34567") [] (Some (u "Y")) WARN None.

Lemma apply_fixes_first_match_wins_witness :
  apply_fixes (fun _ => false) (fun s => s) digits [issue_3_8; issue_0_5]
              false false false false
  = py_slice digits 0 0 ++ u "X" ++ slice_from digits 5.
Proof.
  destruct (apply_fixes_first_match_wins (fun _ => false) (fun s => s) digits
              [issue_3_8; issue_0_5] false false false false)
    as (_ & _ & _ & _ & _ & _ & H).
  apply (H issue_0_5 issue_3_8).
  - vm_compute. apply perm_swap.
  - vm_compute. discriminate.
  - reflexivity.
  - reflexivity.
Defined.

Example apply_fixes_overlap_example :
  apply_fixes (fun _ => false) (fun s => s) digits [issue_3_8; issue_0_5]
              false false false false = u "X56789".
Proof. vm_compute. reflexivity. Qed.

(** ** [apply_fixes]: the context filter *)

Lemma quotient_lt_3_10 (a b : Z) :
  0 < b -> (Qlt_bool (quotient a b) (3 # 10) = true <-> 10 * a < 3 * b).
Proof.
  intros Hb. unfold Qlt_bool, quotient, Qle_bool. simpl.
  rewrite Z2Pos.id by lia. rewrite negb_true_iff, Z.leb_gt. lia.
Qed.

Lemma count_chars_range p s : 0 <= count_chars p s <= len s.
Proof.
  unfold count_chars, len. pose proof (filter_length_le p s). lia.
Qed.

Section ContextFilter.
  Variable unicode_word : Z -> bool.
  Variable nfkc : list Z -> list Z.

  Local Abbreviation ContextAllows := (_context_allows unicode_word).
  Local Abbreviation Resolve := (resolve unicode_word nfkc).
  Local Abbreviation Survivors := (survivors unicode_word nfkc).
  Local Abbreviation ApplyFixes := (apply_fixes unicode_word nfkc).
  Local Abbreviation ComputeSuggestion := (_compute_suggestion nfkc).

  (** The neighbourhood of an issue: up to 100 code points either side. *)
Definition neighbourhood (issue : Issue) (full_text : list Z) : list Z :=
    py_slice full_text (Z.max 0 (i_start issue - 100))
             (Z.min (len full_text) (i_end issue + 100)).

Definition fences_before (issue : Issue) (full_text : list Z) : Z :=
    str_count (slice_to full_text (i_start issue)) FENCE.
Definition fences_after (issue : Issue) (full_text : list Z) : Z :=
    str_count (slice_from full_text (i_end issue)) FENCE.

  (** The conditions under which the context filter rejects an issue. *)
Definition context_rejects (issue : Issue) (full_text : list Z) : Prop :=
    let ctx := neighbourhood issue full_text in
    let snip := py_slice full_text (i_start issue) (i_end issue) in
    found _URL_RE ctx = true
    \/ found _EMAIL_RE ctx = true
    \/ found (_CODE_HINT_RE unicode_word) ctx = true
    \/ found (_UPPER_TOKEN_RE unicode_word) ctx = true
    \/ 10 * count_chars jp_script snip < 3 * len snip
    \/ (Z.odd (fences_before issue full_text) = true
        /\ Z.odd (fences_after issue full_text) = true).

Lemma mod2_odd (n : Z) : (n mod 2 =? 1) = Z.odd n.
  Proof.
    rewrite Zmod_odd. destruct (Z.odd n); reflexivity.
  Qed.

Lemma context_allows_false (issue : Issue) (full_text : list Z) :
    ContextAllows issue full_text = false <-> context_rejects issue full_text.
  Proof.
    unfold _context_allows, context_rejects, neighbourhood, fences_before, fences_after.
    set (ctx := py_slice full_text _ _).
    set (snip := py_slice full_text (i_start issue) (i_end issue)).
    rewrite !mod2_odd.
    pose proof (count_chars_range jp_script snip) as Hc.
    destruct (found _URL_RE ctx); simpl; [tauto|].
    destruct (found _EMAIL_RE ctx); simpl; [tauto|].
    destruct (found (_CODE_HINT_RE unicode_word) ctx); simpl; [tauto|].
    destruct (found (_UPPER_TOKEN_RE unicode_word) ctx); simpl; [tauto|].
    destruct (Z.gtb_spec (len snip) 0) as [Hl|Hl]; simpl.
    - pose proof (quotient_lt_3_10 (count_chars jp_script snip) (len snip) Hl) as Hq.
      destruct (Qlt_bool _ _); simpl.
      + split; [intros _|reflexivity]. right; right; right; right; left.
        now apply Hq.
      + destruct (Z.odd (str_count _ _)), (Z.odd (str_count _ _)); simpl;
          split; intros H; try discriminate; try tauto;
          destruct H as [H|[H|[H|[H|[H|[H1 H2]]]]]]; try discriminate;
          apply Hq in H; discriminate.
    - destruct (Z.odd (str_count _ _)), (Z.odd (str_count _ _)); simpl;
        split; intros H; try discriminate; try tauto;
        destruct H as [H|[H|[H|[H|[H|[H1 H2]]]]]]; try discriminate; lia.
  Qed.

  (** Claim C4.  With the context filter enabled, [apply_fixes] rejects an
    issue exactly when the neighbourhood of 100 code points either
    side holds a URL or e-mail pattern, a code-like hint or an
    all-capitals token, or fewer than 30% of the code points of the
    issue's span are Japanese script, or the numbers of fence markers
    before its start and after its end are both odd.  A rejected issue
    does not reach the rewrite; an issue that is not rejected is
    resolved as with the filter disabled. *)
Theorem context_filter_rejects_exactly
    (text : list Z) (issue : Issue) (aggressive use_lt use_nlp : bool) :
    (ContextAllows issue text = false <-> context_rejects issue text)
    /\ (context_rejects issue text ->
        Resolve text aggressive true use_lt use_nlp issue = None
        /\ forall before after,
             ApplyFixes text (before ++ issue :: after) aggressive true use_lt use_nlp
             = ApplyFixes text (before ++ after) aggressive true use_lt use_nlp)
    /\ (~ context_rejects issue text ->
        Resolve text aggressive true use_lt use_nlp issue
        = Resolve text aggressive false use_lt use_nlp issue).
  Proof.
    pose proof (context_allows_false issue text) as Hiff.
    split; [exact Hiff|]. split.
    - intros Hr. apply Hiff in Hr.
      assert (Hres : Resolve text aggressive true use_lt use_nlp issue = None).
      { unfold resolve. rewrite Hr. reflexivity. }
      split; [exact Hres|].
      intros before after. unfold apply_fixes. f_equal. f_equal.
      induction before as [|b t IH]; simpl.
      + rewrite Hres. reflexivity.
      + rewrite IH. reflexivity.
    - intros Hn. unfold resolve.
      destruct (ContextAllows issue text) eqn:E; [reflexivity|].
      exfalso. apply Hn, Hiff. reflexivity.
  Qed.
End ContextFilter.

(** Examples of the filter, with the ASCII word class for [\b]. *)
Definition doubled_no (s e : Z) : Issue :=
  MkIssue None s e (u "のの") (u "連続する助詞の可能性") None WARN (Some ADV_DOUBLE_PARTICLE).

Example context_filter_examples :
  _context_allows ascii_word (doubled_no 0 2) (u "のの see HTTPS://x") = false
  /\ _context_allows ascii_word (doubled_no 0 2) (u "のの see a@b.cd") = false
  /\ _context_allows ascii_word (doubled_no 0 2) (u "のの see foo()") = false
  /\ _context_allows ascii_word (doubled_no 0 2) (u "のの see API_KEY") = false
  /\ _context_allows ascii_word (doubled_no 0 1) (u "a のの") = false
  /\ _context_allows ascii_word (doubled_no 0 2) (u "のの ``` x") = true
  /\ _context_allows ascii_word (doubled_no 0 2) (u "ののです") = true.
Proof. vm_compute. repeat split. Qed.

(** ** [apply_fixes]: suggestions of the external providers *)

(** An issue that carries a non-empty suggestion is resolved to it by
    the first test of [_compute_suggestion], whatever its rule and
    whatever the flags. *)
Lemma compute_suggestion_own nfkc issue text aggressive use_lt use_nlp :
  truthy (i_suggestion issue) = true ->
  _compute_suggestion nfkc issue text aggressive use_lt use_nlp = i_suggestion issue.
Proof. intros H. unfold _compute_suggestion. rewrite H. reflexivity. Qed.

(** An issue as the grammar checker yields it: rule identifier [LT_...],
    the first replacement as suggestion. *)
Definition lt_issue : Issue :=
  MkIssue None 0 2 (u "これ") (u "LanguageTool") (Some (u "ABCDEFGH")) INFO
          (Some (u "LT_RULE")).

(** Claim C3, at an input where the code departs from it.  The issue
    comes from the grammar checker (rule identifier [LT_RULE]); its
    proposed replacement is longer than the snippet by six code points
    and introduces Latin letters, so it is not safe; [use_lt] is
    false.  [apply_fixes] applies the replacement all the same: the
    first test of [_compute_suggestion] returns any non-empty
    suggestion before the flags and the safety predicate are looked
    at. *)
Theorem apply_fixes_applies_unsafe_lt_suggestion
  (unicode_word : Z -> bool) (nfkc : list Z -> list Z) :
  starts_with (u "LT_RULE") (u "LT_") = true
  /\ _lt_suggestion_is_safe (u "これ") (u "ABCDEFGH") = false
  /\ apply_fixes unicode_word nfkc (u "これはテストです") [lt_issue]
                 false false false false
     = u "ABCDEFGHはテストです".
Proof. repeat split. Qed.

(** ** Patterns that are alternatives of literal words *)

(** The state after the word [w] has been read from [s]. *)
Fixpoint after (w : list Z) (s : mstate) : mstate :=
  match w with
  | [] => s
  | c :: w' => after w' (MState (Some c) (tl (m_rest s)) (m_caps s))
  end.

(** The first word of [ws] the text [s] begins with. *)
Definition first_word (ws : list (list Z)) (s : list Z) : option (list Z) :=
  List.find (starts_with s) ws.

(** Every position of [s] at which a word of [ws] begins, with the
    word, counted from [pos]. *)
Fixpoint occurrences (ws : list (list Z)) (pos : Z) (s : list Z) : list (Z * list Z) :=
  match s with
  | [] => []
  | _ :: t =>
    match first_word ws s with
    | Some w => (pos, w) :: occurrences ws (pos + 1) t
    | None => occurrences ws (pos + 1) t
    end
  end.

(** No word is empty, and no word begins with a code point that occurs
    inside a word after its first place: occurrences cannot overlap. *)
Definition separated (ws : list (list Z)) : bool :=
  forallb (fun a => match a with [] => false | _ :: _ => true end) ws
  && forallb (fun a =>
       forallb (fun c =>
         forallb (fun b => match b with [] => true | d :: _ => negb (c =? d) end) ws)
         (tl a)) ws.

Lemma starts_with_firstn : forall (w s : list Z),
  starts_with s w = true <-> firstn (length w) s = w.
Proof.
  induction w as [|c w IH]; intros s; simpl.
  - split; reflexivity.
  - destruct s as [|d s]; simpl.
    + split; discriminate.
    + rewrite andb_true_iff, IH, Z.eqb_eq. split.
      * intros [-> ->]. reflexivity.
      * intros H. inversion H as [[H1 H2]]. rewrite H2. auto.
Qed.

Lemma starts_with_app (w s : list Z) :
  starts_with s w = true -> s = w ++ skipn (length w) s.
Proof.
  intros H. apply starts_with_firstn in H.
  rewrite <- H at 1. symmetry. apply firstn_skipn.
Qed.

Lemma rmatch_lit : forall (w : list Z) k s,
  rmatch (lit w) k s = if starts_with (m_rest s) w then k (after w s) else None.
Proof.
  induction w as [|c w IH]; intros k s; [reflexivity|].
  cbn [lit rmatch chr starts_with after].
  destruct (m_rest s) as [|d t]; [reflexivity|].
  destruct (Z.eqb_spec c d) as [->|Hne]; [|reflexivity].
  rewrite IH. reflexivity.
Qed.

Lemma after_rest : forall (w : list Z) s,
  m_rest (after w s) = skipn (length w) (m_rest s)
  /\ m_caps (after w s) = m_caps s.
Proof.
  induction w as [|c w IH]; intros s; simpl; [auto|].
  destruct (IH (MState (Some c) (tl (m_rest s)) (m_caps s))) as [H1 H2].
  rewrite H1, H2. simpl. split; [|reflexivity].
  destruct (m_rest s); simpl; [now rewrite skipn_nil|reflexivity].
Qed.

Lemma rmatch_words : forall (ws : list (list Z)) s,
  rmatch (alts (map lit ws)) Some s =
  match first_word ws (m_rest s) with
  | Some w => Some (after w s)
  | None => None
  end.
Proof.
  unfold first_word. induction ws as [|a ws IH]; intros s.
  - simpl. destruct (m_rest s); reflexivity.
  - destruct ws as [|b ws].
    + simpl. rewrite rmatch_lit. destruct (starts_with (m_rest s) a); reflexivity.
    + change (alts (map lit (a :: b :: ws)))
        with (Alt (lit a) (alts (map lit (b :: ws)))).
      cbn [rmatch]. rewrite rmatch_lit, IH.
      cbn [List.find]. destruct (starts_with (m_rest s) a); reflexivity.
Qed.

Lemma match_here_words (ws : list (list Z)) pos prev rest :
  match_here (alts (map lit ws)) pos prev rest =
  match first_word ws rest with
  | Some w => Some (MatchObj (Z.of_nat pos) (Z.of_nat (pos + length w)) w [])
  | None => None
  end.
Proof.
  unfold match_here. rewrite rmatch_words. simpl.
  destruct (first_word ws rest) as [w|] eqn:E; [|reflexivity].
  unfold first_word in E. apply find_some in E. destruct E as [_ E].
  destruct (after_rest w (MState prev rest [])) as [Hr Hc]. simpl in Hr, Hc.
  rewrite Hr, Hc. pose proof (starts_with_app _ _ E) as Happ.
  assert (Hn : (length rest - length (skipn (length w) rest))%nat = length w).
  { rewrite length_skipn. apply (f_equal (@length Z)) in Happ.
    rewrite length_app, length_skipn in Happ. lia. }
  rewrite Hn. apply starts_with_firstn in E. rewrite E. reflexivity.
Qed.

Section Separated.
  Variable ws : list (list Z).
  Hypothesis Hsep : separated ws = true.

Lemma separated_nonempty w : In w ws -> w <> [].
  Proof.
    intros Hin ->. unfold separated in Hsep. apply andb_true_iff in Hsep.
    destruct Hsep as [H _]. rewrite forallb_forall in H. now apply H in Hin.
  Qed.

Lemma separated_heads a b c d :
    In a ws -> In b ws -> In c (tl a) -> head b = Some d -> c <> d.
  Proof.
    intros Ha Hb Hc Hd. unfold separated in Hsep. apply andb_true_iff in Hsep.
    destruct Hsep as [_ H]. rewrite forallb_forall in H. apply H in Ha.
    rewrite forallb_forall in Ha. apply Ha in Hc.
    rewrite forallb_forall in Hc. apply Hc in Hb.
    destruct b as [|d' b]; [discriminate|]. simpl in Hd. inversion Hd; subst.
    apply negb_true_iff, Z.eqb_neq in Hb. exact Hb.
  Qed.

Lemma first_word_nil : first_word ws [] = None.
  Proof.
    unfold first_word. destruct (List.find _ ws) as [w|] eqn:E; [|reflexivity].
    apply find_some in E. destruct E as [Hin E].
    apply separated_nonempty in Hin. destruct w; [congruence|discriminate].
  Qed.

  (** Inside an occurrence of a word no word begins. *)
Lemma no_overlap a rest d :
    In a ws -> starts_with rest a = true -> (0 < d)%nat -> (d < length a)%nat ->
    first_word ws (skipn d rest) = None.
  Proof.
    intros Ha Hs H0 Hd.
    destruct (first_word ws (skipn d rest)) as [b|] eqn:E; [|reflexivity].
    exfalso. unfold first_word in E. apply find_some in E. destruct E as [Hb Eb].
    apply starts_with_app in Hs.
    destruct b as [|x b]; [now apply separated_nonempty in Hb|].
    assert (Hx : nth_error (skipn d rest) 0 = Some x).
    { destruct (skipn d rest) as [|y l]; simpl in Eb; [discriminate|].
      apply andb_true_iff in Eb. destruct Eb as [Eb _].
      apply Z.eqb_eq in Eb. subst. reflexivity. }
    rewrite nth_error_skipn, Nat.add_0_r in Hx.
    rewrite Hs, nth_error_app1 in Hx by lia.
    destruct a as [|c a]; [simpl in Hd; lia|].
    destruct d as [|d]; [lia|]. simpl in Hx.
    apply nth_error_In in Hx.
    eapply (separated_heads (c :: a) (x :: b)); eauto.
  Qed.

Lemma finditer_from_words : forall rest pos prev skip,
    (forall d, (d < skip)%nat -> first_word ws (skipn d rest) = None) ->
    map (fun m => (mo_start m, mo_group0 m))
        (finditer_from (alts (map lit ws)) pos prev rest skip)
    = occurrences ws (Z.of_nat pos) rest.
  Proof.
    induction rest as [|c t IH]; intros pos prev skip Hinv.
    - destruct skip; simpl; [|reflexivity].
      rewrite match_here_words, first_word_nil. reflexivity.
    - destruct skip as [|k]; cbn [finditer_from occurrences].
      + rewrite match_here_words.
        destruct (first_word ws (c :: t)) as [w|] eqn:E.
        * cbn [map mo_start mo_group0]. f_equal.
          rewrite IH; [f_equal; lia|].
          intros d Hd. cbn [mo_group0] in Hd.
          unfold first_word in E. apply find_some in E. destruct E as [Hin E].
          change (skipn d t) with (skipn (S d) (c :: t)).
          apply (no_overlap w); auto; lia.
        * rewrite IH; [f_equal; lia|]. intros d Hd. lia.
      + assert (H0 : first_word ws (c :: t) = None) by (apply (Hinv 0%nat); lia).
        rewrite H0.
        rewrite IH; [f_equal; lia|].
        intros d Hd. change (skipn d t) with (skipn (S d) (c :: t)).
        apply Hinv. lia.
  Qed.

  (** The matches of a pattern of separated words are exactly the
      occurrences of the words in the text. *)
Lemma finditer_words (text : list Z) :
    map (fun m => (mo_start m, mo_group0 m)) (finditer (alts (map lit ws)) text)
    = occurrences ws 0 text.
  Proof.
    unfold finditer. rewrite finditer_from_words; [reflexivity|].
    intros d Hd. lia.
  Qed.

Lemma occurrences_In : forall s pos p w,
    In (p, w) (occurrences ws pos s) <->
    exists d, p = pos + Z.of_nat d /\ first_word ws (skipn d s) = Some w.
  Proof.
    induction s as [|c t IH]; intros pos p w; cbn [occurrences].
    - split; [intros []|]. intros (d & _ & H).
      rewrite skipn_nil, first_word_nil in H. discriminate.
    - assert (Htail : In (p, w) (occurrences ws (pos + 1) t) <->
                      exists d, p = pos + Z.of_nat (S d)
                                /\ first_word ws (skipn (S d) (c :: t)) = Some w).
      { rewrite IH. split; intros (d & Hp & Hw); exists d; split; auto; lia. }
      destruct (first_word ws (c :: t)) as [w0|] eqn:E.
      + cbn [In]. rewrite Htail. split.
        * intros [H|(d & Hp & Hw)].
          -- inversion H; subst. exists 0%nat. split; [lia|exact E].
          -- exists (S d). auto.
        * intros ([|d] & Hp & Hw).
          -- left. simpl in Hw. rewrite E in Hw. inversion Hw. f_equal. lia.
          -- right. exists d. auto.
      + rewrite Htail. split.
        * intros (d & Hp & Hw). exists (S d). auto.
        * intros ([|d] & Hp & Hw).
          -- simpl in Hw. congruence.
          -- exists d. auto.
  Qed.
End Separated.

(** The end of a match of words is its start plus the word's length. *)
Lemma finditer_words_end (ws : list (list Z)) (text : list Z) m :
  In m (finditer (alts (map lit ws)) text) ->
  mo_end m = mo_start m + len (mo_group0 m) /\ mo_groups m = [].
Proof.
  unfold finditer. generalize 0%nat at 1. generalize (@None Z). generalize 0%nat.
  induction text as [|c t IH]; intros skip prev pos Hin.
  - destruct skip; simpl in Hin; [|destruct Hin].
    rewrite match_here_words in Hin.
    destruct (first_word ws []) as [w|]; [|destruct Hin].
    destruct Hin as [<-|[]]. simpl. unfold len. split; [lia|reflexivity].
  - destruct skip as [|k]; cbn [finditer_from] in Hin.
    + rewrite match_here_words in Hin.
      destruct (first_word ws (c :: t)) as [w|].
      * destruct Hin as [<-|Hin]; [simpl; unfold len; split; [lia|reflexivity]|].
        eapply IH; eauto.
      * eapply IH; eauto.
    + eapply IH; eauto.
Qed.

(** A slice that equals a non-empty word is an occurrence of the word. *)
Lemma slice_occurrence (text w : list Z) (p : Z) :
  0 <= p -> w <> [] -> py_slice text p (p + len w) = w ->
  starts_with (skipn (Z.to_nat p) text) w = true.
Proof.
  intros Hp Hw Hs. apply starts_with_firstn.
  assert (Hlen : 0 < len w) by (destruct w; [congruence|unfold len; simpl; lia]).
  unfold py_slice, clamp_index in Hs. pose proof (len_nonneg text).
  destruct (p <? 0) eqn:E1; [lia|]. destruct (p + len w <? 0) eqn:E2; [lia|].
  assert (Hl := f_equal (@length Z) Hs).
  rewrite length_firstn, length_skipn in Hl. unfold len in *.
  assert (Hin : p + Z.of_nat (length w) <= Z.of_nat (length text)) by lia.
  rewrite <- Hs at 2. f_equal; [|f_equal]; lia.
Qed.

(** ** [run_advanced]: the rule identifier of each detector *)

Definition has_rule (rid : list Z) (h : hit) : bool :=
  match h_rule_id h with
  | Some r => str_eqb r rid
  | None => false
  end.

Definition rule_is (rid : list Z) (h : hit) : Prop := h_rule_id h = Some rid.

Lemma filter_other_rule (rid rid' : list Z) (l : list hit) :
  str_eqb rid' rid = false -> Forall (rule_is rid') l ->
  List.filter (has_rule rid) l = [].
Proof.
  intros Hne H. induction H as [|h l Hh _ IH]; simpl; [reflexivity|].
  unfold has_rule. rewrite Hh, Hne. exact IH.
Qed.

Lemma Forall_map_intro {A B} (P : B -> Prop) (f : A -> B) (l : list A) :
  (forall x, P (f x)) -> Forall P (map f l).
Proof. intros H. induction l; simpl; constructor; auto. Qed.

Lemma Forall_flat_map_intro {A B} (P : B -> Prop) (f : A -> list B) (l : list A) :
  (forall x, Forall P (f x)) -> Forall P (flat_map f l).
Proof.
  intros H. induction l; simpl; [constructor|]. apply Forall_app. auto.
Qed.

Ltac rule_of_hits :=
  repeat first
    [ apply Forall_nil
    | apply Forall_cons; [reflexivity|]
    | apply Forall_flat_map_intro; intros ?
    | apply Forall_map_intro; intros ?; reflexivity
    | match goal with
      | |- Forall _ (_ ++ _) => apply Forall_app; split
      | |- Forall _ (match ?x with _ => _ end) => destruct x
      | |- Forall _ (if ?x then _ else _) => destruct x
      | |- Forall _ (let _ := _ in _) => cbv zeta
      end ].

Section RuleIds.
  Variable unicode_digit : Z -> bool.
  Variable nfkc : list Z -> list Z.
  Variable cfg : adv_config.

Lemma ranuki_special_rule text : Forall (rule_is ADV_RANUKI) (ranuki_special_hits text).
  Proof. unfold ranuki_special_hits. rule_of_hits. Qed.

Lemma ranuki_heuristic_rule text :
    Forall (rule_is ADV_RANUKI) (ranuki_heuristic_hits text).
  Proof. unfold ranuki_heuristic_hits. rule_of_hits. Qed.

Lemma tautology_rule text : Forall (rule_is ADV_TAUTOLOGY) (tautology_hits text).
  Proof. unfold tautology_hits. rule_of_hits. Qed.

Lemma double_particle_rule text :
    Forall (rule_is ADV_DOUBLE_PARTICLE) (double_particle_hits text).
  Proof. unfold double_particle_hits. rule_of_hits. Qed.

Lemma double_adverb_rule text :
    Forall (rule_is ADV_DOUBLE_ADVERB) (double_adverb_hits text).
  Proof. unfold double_adverb_hits. rule_of_hits. Qed.

Lemma colloquial_rule text : Forall (rule_is ADV_COLLOQUIAL) (colloquial_hits text).
  Proof. unfold colloquial_hits. rule_of_hits. Qed.

Lemma punct_mixed_rule text : Forall (rule_is ADV_PUNCT_MIXED) (punct_mixed_hits text).
  Proof. unfold punct_mixed_hits. rule_of_hits. Qed.

Lemma ellipsis_rule text : Forall (rule_is ADV_ELLIPSIS) (ellipsis_hits text).
  Proof. unfold ellipsis_hits. rule_of_hits. Qed.

Lemma space_before_punct_rule text :
    Forall (rule_is ADV_SPACE_BEFORE_PUNCT) (space_before_punct_hits text).
  Proof. unfold space_before_punct_hits. rule_of_hits. Qed.

Lemma prolonged_sound_rule text :
    Forall (rule_is ADV_PROLONGED_SOUND) (prolonged_sound_hits text).
  Proof. unfold prolonged_sound_hits. rule_of_hits. Qed.

Lemma long_sentence_rule text :
    Forall (rule_is ADV_LONG_SENTENCE) (long_sentence_hits cfg text).
  Proof. unfold long_sentence_hits. rule_of_hits. Qed.

Lemma sentence_final_rule text :
    Forall (rule_is ADV_SENTENCE_FINAL_PUNCT) (sentence_final_hits unicode_digit cfg text).
  Proof.
    unfold sentence_final_hits. generalize 0, false.
    induction (splitlines true text) as [|ln t IH]; intros offset in_code;
      cbn [sentence_final_walk].
    - constructor.
    - destruct (is_fence_line ln); [apply IH|].
      apply Forall_app. split; [|apply IH]. rule_of_hits.
  Qed.

Lemma katakana_rule text :
    Forall (rule_is ADV_KATAKANA_DENY) (katakana_hits nfkc cfg text).
  Proof. unfold katakana_hits. rule_of_hits. Qed.

Lemma end_particle_rule text :
    Forall (rule_is ADV_END_PARTICLE) (end_particle_hits cfg text).
  Proof.
    unfold end_particle_hits. destruct (END_PARTICLE_POLICY cfg >? 0); [|constructor].
    generalize 0. generalize (if END_PARTICLE_POLICY cfg =? 2 then ERROR else WARN).
    induction (splitlines true text) as [|ln t IH]; intros sev pos;
      cbn [end_particle_walk].
    - constructor.
    - apply Forall_app. split; [|apply IH]. rule_of_hits.
  Qed.

  (** Of all the detectors only the adverb-overuse detector yields hits
      with its rule identifier. *)
Lemma run_advanced_emphatic text :
    List.filter (has_rule ADV_EMPHATIC_ADVERB_MANY) (run_advanced unicode_digit nfkc cfg text)
    = List.filter (has_rule ADV_EMPHATIC_ADVERB_MANY) (emphatic_adverb_hits cfg text).
  Proof.
    unfold run_advanced. rewrite !filter_app.
    rewrite (filter_other_rule ADV_EMPHATIC_ADVERB_MANY ADV_RANUKI _ eq_refl (ranuki_special_rule text)).
    rewrite (filter_other_rule ADV_EMPHATIC_ADVERB_MANY ADV_RANUKI _ eq_refl (ranuki_heuristic_rule text)).
    rewrite (filter_other_rule ADV_EMPHATIC_ADVERB_MANY ADV_TAUTOLOGY _ eq_refl (tautology_rule text)).
    rewrite (filter_other_rule ADV_EMPHATIC_ADVERB_MANY ADV_DOUBLE_PARTICLE _ eq_refl (double_particle_rule text)).
    rewrite (filter_other_rule ADV_EMPHATIC_ADVERB_MANY ADV_DOUBLE_ADVERB _ eq_refl (double_adverb_rule text)).
    rewrite (filter_other_rule ADV_EMPHATIC_ADVERB_MANY ADV_COLLOQUIAL _ eq_refl (colloquial_rule text)).
    rewrite (filter_other_rule ADV_EMPHATIC_ADVERB_MANY ADV_PUNCT_MIXED _ eq_refl (punct_mixed_rule text)).
    rewrite (filter_other_rule ADV_EMPHATIC_ADVERB_MANY ADV_ELLIPSIS _ eq_refl (ellipsis_rule text)).
    rewrite (filter_other_rule ADV_EMPHATIC_ADVERB_MANY ADV_SPACE_BEFORE_PUNCT _ eq_refl (space_before_punct_rule text)).
    rewrite (filter_other_rule ADV_EMPHATIC_ADVERB_MANY ADV_PROLONGED_SOUND _ eq_refl (prolonged_sound_rule text)).
    rewrite (filter_other_rule ADV_EMPHATIC_ADVERB_MANY ADV_LONG_SENTENCE _ eq_refl (long_sentence_rule text)).
    rewrite (filter_other_rule ADV_EMPHATIC_ADVERB_MANY ADV_SENTENCE_FINAL_PUNCT _ eq_refl (sentence_final_rule text)).
    rewrite (filter_other_rule ADV_EMPHATIC_ADVERB_MANY ADV_KATAKANA_DENY _ eq_refl (katakana_rule text)).
    rewrite (filter_other_rule ADV_EMPHATIC_ADVERB_MANY ADV_END_PARTICLE _ eq_refl (end_particle_rule text)).
    cbn [app]. apply app_nil_r.
  Qed.
End RuleIds.

(** ** The adverb-overuse detector *)

Lemma emphatic_separated : separated _EMPHATIC_ADVS = true.
Proof. vm_compute. reflexivity. Qed.

Lemma occurrences_after (ws : list (list Z)) : forall s pos q w,
  In (q, w) (occurrences ws pos s) -> pos <= q.
Proof.
  induction s as [|c t IH]; intros pos q w H; cbn [occurrences] in H; [destruct H|].
  destruct (first_word ws (c :: t)).
  - destruct H as [H|H]; [inversion H; lia|]. apply IH in H. lia.
  - apply IH in H. lia.
Qed.

(** The head of the list of occurrences is the first occurrence. *)
Lemma occurrences_first (ws : list (list Z)) : forall s pos p w rest,
  occurrences ws pos s = (p, w) :: rest ->
  forall q w', In (q, w') rest -> p < q.
Proof.
  induction s as [|c t IH]; intros pos p w rest H q w' Hin; cbn [occurrences] in H;
    [discriminate|].
  destruct (first_word ws (c :: t)).
  - inversion H; subst. apply occurrences_after in Hin. lia.
  - eapply IH; eauto.
Qed.

Definition EMPHATIC_MESSAGE : list Z := u "強調副詞（非常に/とても/すごく など）の多用".

Lemma has_rule_emphatic s e g msg sug sev :
  has_rule ADV_EMPHATIC_ADVERB_MANY (Hit s e g msg sug sev (Some ADV_EMPHATIC_ADVERB_MANY))
  = true.
Proof. vm_compute. reflexivity. Qed.

(** Claim C5.  With a positive threshold: when the emphatic adverbs
    occur at least threshold times in the text, [run_advanced] yields
    exactly one hit of the adverb-overuse rule, and its span is the
    first occurrence; when they occur fewer times, it yields none. *)
Theorem emphatic_adverb_overuse_once
  (unicode_digit : Z -> bool) (nfkc : list Z -> list Z) (cfg : adv_config)
  (text : list Z) :
  1 <= EMPH_THRESHOLD cfg ->
  let occ := occurrences _EMPHATIC_ADVS 0 text in
  let aggregate :=
    List.filter (has_rule ADV_EMPHATIC_ADVERB_MANY)
                (run_advanced unicode_digit nfkc cfg text) in
  (EMPH_THRESHOLD cfg <= Z.of_nat (length occ) ->
   exists p w rest,
     occ = (p, w) :: rest
     /\ (forall q w', In (q, w') rest -> p < q)
     /\ py_slice text p (p + len w) = w
     /\ aggregate = [Hit p (p + len w) w EMPHATIC_MESSAGE None (Some WARN)
                         (Some ADV_EMPHATIC_ADVERB_MANY)])
  /\ (Z.of_nat (length occ) < EMPH_THRESHOLD cfg -> aggregate = []).
Proof.
  intros Hthr occ aggregate. subst aggregate. rewrite run_advanced_emphatic.
  unfold emphatic_adverb_hits.
  pose proof (finditer_words _ emphatic_separated text) as Hocc.
  change (alts (map lit _EMPHATIC_ADVS)) with _EMPHATIC_ADV_RE in Hocc.
  fold occ in Hocc.
  assert (Hlen : length occ = length (finditer _EMPHATIC_ADV_RE text)).
  { rewrite <- Hocc. now rewrite length_map. }
  rewrite <- Hlen. split.
  - intros Hge. apply Z.leb_le in Hge. rewrite Hge.
    destruct (finditer _EMPHATIC_ADV_RE text) as [|m0 ms] eqn:E.
    { cbn [length] in Hlen. apply Z.leb_le in Hge. lia. }
    cbn [map] in Hocc. exists (mo_start m0), (mo_group0 m0), (tl occ).
    assert (Hin : In m0 (finditer _EMPHATIC_ADV_RE text)) by (rewrite E; now left).
    destruct (finditer_words_end _EMPHATIC_ADVS text m0 Hin) as [Hend _].
    destruct (spans_ok_In _ _ _ _ _ (finditer_ok _EMPHATIC_ADV_RE text) Hin)
      as (_ & _ & _ & Hg).
    rewrite <- Hend. split; [|split; [|split]].
    + rewrite <- Hocc. reflexivity.
    + apply (occurrences_first _EMPHATIC_ADVS text 0 _ (mo_group0 m0)).
      fold occ. rewrite <- Hocc. reflexivity.
    + symmetry. exact Hg.
    + cbn [List.filter]. rewrite has_rule_emphatic. unfold EMPHATIC_MESSAGE. reflexivity.
  - intros Hlt. apply Z.leb_gt in Hlt. rewrite Hlt. reflexivity.
Qed.

Lemma emphatic_adverb_overuse_once_witness :
  exists p w rest,
    occurrences _EMPHATIC_ADVS 0 (u "とても非常に良い") = (p, w) :: rest
    /\ (forall q w', In (q, w') rest -> p < q)
    /\ py_slice (u "とても非常に良い") p (p + len w) = w
    /\ List.filter (has_rule ADV_EMPHATIC_ADVERB_MANY)
                   (run_advanced (in_range 48 57) (fun s => s) default_config
                                 (u "とても非常に良い"))
       = [Hit p (p + len w) w EMPHATIC_MESSAGE None (Some WARN)
              (Some ADV_EMPHATIC_ADVERB_MANY)].
Proof.
  apply (emphatic_adverb_overuse_once (in_range 48 57) (fun s => s) default_config
           (u "とても非常に良い")).
  - simpl. lia.
  - vm_compute. discriminate.
Defined.

Example emphatic_threshold_examples :
  List.filter (has_rule ADV_EMPHATIC_ADVERB_MANY)
              (run_advanced (in_range 48 57) (fun s => s) default_config
                            (u "とても非常に良い"))
  = [Hit 0 3 (u "とても") EMPHATIC_MESSAGE None (Some WARN) (Some ADV_EMPHATIC_ADVERB_MANY)]
  /\ List.filter (has_rule ADV_EMPHATIC_ADVERB_MANY)
                 (run_advanced (in_range 48 57) (fun s => s) default_config
                               (u "とても良い"))
     = [].
Proof. vm_compute. split; reflexivity. Qed.

(** [configure_advanced] keeps the threshold positive. *)
Lemma configure_advanced_threshold c e l s ka kd ep sf :
  1 <= EMPH_THRESHOLD c ->
  1 <= EMPH_THRESHOLD (configure_advanced c e l s ka kd ep sf).
Proof.
  intros H. unfold configure_advanced. simpl.
  destruct e as [v|]; [|assumption].
  destruct (Z.gtb_spec v 0); lia.
Qed.

(** ** The curated missing-potential-form list *)

Definition RANUKI_MESSAGE : list Z := u "ら抜き表現の可能性".

Lemma ranuki_separated wrong sug :
  In (wrong, sug) _RANUKI_SPECIAL -> separated [wrong] = true.
Proof.
  intros H. simpl in H.
  repeat (destruct H as [H|H]; [inversion H; subst; vm_compute; reflexivity|]).
  destruct H.
Qed.

(** Claim C6.  Wherever a surface form of the curated
    missing-potential-form list occurs in the text, [run_advanced]
    yields a WARN hit that spans the occurrence and suggests exactly
    the curated correction. *)
Theorem ranuki_curated_detected
  (unicode_digit : Z -> bool) (nfkc : list Z -> list Z) (cfg : adv_config)
  (text wrong sug : list Z) (p : Z) :
  In (wrong, sug) _RANUKI_SPECIAL ->
  0 <= p ->
  py_slice text p (p + len wrong) = wrong ->
  In (Hit p (p + len wrong) wrong RANUKI_MESSAGE (Some sug) (Some WARN) (Some ADV_RANUKI))
     (run_advanced unicode_digit nfkc cfg text).
Proof.
  intros Hin Hp Hs. unfold run_advanced. apply in_or_app. left.
  unfold ranuki_special_hits. apply in_flat_map. exists (wrong, sug).
  split; [assumption|]. cbn [fst snd].
  pose proof (ranuki_separated _ _ Hin) as Hsep.
  assert (Hne : wrong <> []) by (apply (separated_nonempty [wrong] Hsep); now left).
  pose proof (slice_occurrence text wrong p Hp Hne Hs) as Hocc.
  assert (Hfw : first_word [wrong] (skipn (Z.to_nat p) text) = Some wrong).
  { unfold first_word. simpl. rewrite Hocc. reflexivity. }
  assert (Ho : In (p, wrong) (occurrences [wrong] 0 text)).
  { apply (occurrences_In [wrong] Hsep). exists (Z.to_nat p). split; [lia|exact Hfw]. }
  rewrite <- (finditer_words [wrong] Hsep) in Ho.
  change (alts (map lit [wrong])) with (lit wrong) in Ho.
  apply in_map_iff in Ho. destruct Ho as (m & Hm & Hmin).
  injection Hm as Hstart Hg.
  apply in_map_iff. exists m. split; [|exact Hmin].
  pose proof (finditer_words_end [wrong] text m) as He.
  change (alts (map lit [wrong])) with (lit wrong) in He.
  destruct (He Hmin) as [Hend _]. rewrite Hend, Hstart, Hg. unfold RANUKI_MESSAGE. reflexivity.
Qed.

(** The example of the specification: 見れる可能性がある. *)
Lemma ranuki_curated_detected_witness :
  In (Hit 0 3 (u "見れる") RANUKI_MESSAGE (Some (u "見られる")) (Some WARN) (Some ADV_RANUKI))
     (run_advanced (in_range 48 57) (fun s => s) default_config (u "見れる可能性がある")).
Proof.
  apply (ranuki_curated_detected (in_range 48 57) (fun s => s) default_config
           (u "見れる可能性がある") (u "見れる") (u "見られる") 0).
  - left. reflexivity.
  - lia.
  - reflexivity.
Defined.

(** ** cache.py: fingerprints *)








(** ** cache.py: [load_cache] *)


Example load_cache_examples :
  let join := fun root name => String.append root (String.append "/" name) in
  let parse := fun s => if String.eqb s "{}" then Ok (Dict ∅) else Raise in
  load_cache join (fun _ => false) (fun _ => Raise) parse "." DEFAULT_CACHE = Ok (Dict ∅)
  /\ load_cache join (fun _ => true) (fun _ => Raise) parse "." DEFAULT_CACHE = Ok (Dict ∅)
  /\ load_cache join (fun _ => true) (fun _ => Ok "{") parse "." DEFAULT_CACHE = Ok (Dict ∅)
  /\ load_cache join (fun _ => true) (fun _ => Ok "[1]") (fun _ => Ok NotDict) "."
                DEFAULT_CACHE = Ok NotDict.
Proof. repeat split. Qed.

(** ** [check_paths]: the scan cache *)

(** The cache [d] holds the fingerprint [fp] for [key]. *)
Definition holds (d : gmap string pyval) (key fp : string) : bool :=
  match d !! key with
  | Some (PyStr s) => String.eqb s fp
  | _ => false
  end.

Lemma holds_spec d key fp : holds d key fp = true <-> d !! key = Some (PyStr fp).
Proof.
  unfold holds. destruct (d !! key) as [[s|]|]; split; try discriminate.
  - intros H. apply String.eqb_eq in H. now subst.
  - intros H. inversion H. apply String.eqb_refl.
Qed.




Lemma filter_nil_all {A} (f : A -> bool) (l : list A) :
  (forall x, In x l -> f x = false) -> List.filter f l = [].
Proof.
  induction l as [|a l IH]; intros H; simpl; [reflexivity|].
  rewrite (H a) by (now left). apply IH. intros x Hx. apply H. now right.
Qed.

Section CheckPathsCache.
  Variable patterns : list TypoPattern.
  Variable advanced_rules : list Z -> list hit.
  Variable style_rule : list Z -> option hit.
  Variables morph_on lt_on nlp_on spell_on : bool.
  Variable tokenizer : list Z -> list (Z * Z * option (list Z)).
  Variable grammar_checker : list Z -> list Z -> list hit.
  Variable semantic_analyzer : list Z -> list Z -> list hit.
  Variable spell_checker : list Z -> list (list Z) -> list hit.
  Variable iter_files : list string -> list string.
  Variable stat : string -> stat_result.
  Variable read_text : string -> result (option (list Z)).
  Variable cwd : string.
  Variable load_dict : list string -> result (list (list Z)).
  Variable completion_order : list (string * string) -> list (string * string).
  Variable path_join : string -> string -> string.
  Variable is_file : string -> bool.
  Variable path_read_text : string -> result string.
  Variable json_loads : string -> result loaded.

  Local Abbreviation CheckFile :=
    (check_file patterns advanced_rules style_rule morph_on lt_on nlp_on spell_on
                tokenizer grammar_checker semantic_analyzer spell_checker read_text).
  Local Abbreviation ScanSerial :=
    (scan_serial patterns advanced_rules style_rule morph_on lt_on nlp_on spell_on
                 tokenizer grammar_checker semantic_analyzer spell_checker read_text).
  Local Abbreviation ScanParallel :=
    (scan_parallel patterns advanced_rules style_rule morph_on lt_on nlp_on spell_on
                   tokenizer grammar_checker semantic_analyzer spell_checker read_text).
  Local Abbreviation CheckPaths :=
    (check_paths patterns advanced_rules style_rule morph_on lt_on nlp_on spell_on
                 tokenizer grammar_checker semantic_analyzer spell_checker
                 iter_files stat read_text cwd load_dict completion_order
                 path_join is_file path_read_text json_loads).
  Local Abbreviation LoadCache :=
    (load_cache path_join is_file path_read_text json_loads cwd DEFAULT_CACHE).

  (** With a dictionary as cache the selection never fails, and it
      keeps exactly the files whose fingerprint the cache does not hold. *)
Lemma select_to_scan_dict (st : string -> stat_result) d : forall files,
    select_to_scan st true (Dict d) files
    = Ok (List.filter (fun kf => negb (holds d (fst kf) (snd kf)))
                      (map (fun f => (f, file_fingerprint st f)) files)).
  Proof.
    induction files as [|f t IH]; simpl; [reflexivity|].
    rewrite IH. simpl. unfold holds.
    destruct (d !! f) as [[s|]|]; simpl; try reflexivity.
    destruct (String.eqb s (file_fingerprint st f)); reflexivity.
  Qed.





End CheckPathsCache.

(** ** A small file system to run [check_paths] on *)

(** One built-in rule of typo_rules.py, two files of the same age and
    size, one of which cannot be read without an exception, an empty
    cache, and no optional collaborator. *)
Definition demo_patterns : list TypoPattern :=
  [MkTypoPattern (lit (u "有り難う")) (u "旧表記 '有り難う' -> 'ありがとう'")
                 (Some (u "ありがとう")) INFO None].

Definition demo_stat (path : string) : stat_result := Stat 1700000000000000000 18.

Definition demo_read_text (path : string) : result (option (list Z)) :=
  if String.eqb path "huge.bin" then Raise else Ok (Some (u "print('有り難う')")).

Definition demo_opts : check_opts :=
  CheckOpts true None true false false false [] false [] false None false.

Definition demo_check_paths (jobs : Z) (paths : list string)
  : result (list Issue * option loaded) :=
  check_paths demo_patterns (fun _ => []) (fun _ => None) false false false false
              (fun _ => []) (fun _ _ => []) (fun _ _ => []) (fun _ _ => [])
              (fun paths => paths) demo_stat demo_read_text "."
              (fun _ => Ok []) (fun l => l)
              (fun root name => String.append root (String.append "/" name))
              (fun _ => false) (fun _ => Raise) (fun _ => Raise)
              demo_opts jobs true None paths.

Definition demo_fingerprint : string := "1700000000000000000:18".

Definition demo_issue : Issue :=
  MkIssue (Some "good.py") 7 11 (u "有り難う") (u "旧表記 '有り難う' -> 'ありがとう'")
          (Some (u "ありがとう")) INFO None.


(** Claim C9, at an input where the code departs from it.  The first of
    two files raises while it is read.  With one worker (the
    default) the exception leaves [check_paths]: no issue of the
    second file is returned and no cache is saved.  With two workers
    the exception is caught, the file adds no issue and its cache
    entry is written. *)
Theorem check_paths_serial_scan_aborts :
  (* one worker: the exception of the first file ends the batch *)
  demo_check_paths 1 ["huge.bin"; "good.py"] = Raise
  (* two workers: the same file counts as scanned with no issue *)
  /\ demo_check_paths 2 ["huge.bin"; "good.py"]
     = Ok ([demo_issue],
           Some (Dict (<["good.py" := PyStr demo_fingerprint]>
                        (<["huge.bin" := PyStr demo_fingerprint]> ∅)))).
Proof. split; vm_compute; reflexivity. Qed.

Section ScanLoops.
  Variable patterns : list TypoPattern.
  Variable advanced_rules : list Z -> list hit.
  Variable style_rule : list Z -> option hit.
  Variables morph_on lt_on nlp_on spell_on : bool.
  Variable tokenizer : list Z -> list (Z * Z * option (list Z)).
  Variable grammar_checker : list Z -> list Z -> list hit.
  Variable semantic_analyzer : list Z -> list Z -> list hit.
  Variable spell_checker : list Z -> list (list Z) -> list hit.
  Variable read_text : string -> result (option (list Z)).

  Local Abbreviation CheckFile :=
    (check_file patterns advanced_rules style_rule morph_on lt_on nlp_on spell_on
                tokenizer grammar_checker semantic_analyzer spell_checker read_text).
  Local Abbreviation ScanSerial :=
    (scan_serial patterns advanced_rules style_rule morph_on lt_on nlp_on spell_on
                 tokenizer grammar_checker semantic_analyzer spell_checker read_text).
  Local Abbreviation ScanParallel :=
    (scan_parallel patterns advanced_rules style_rule morph_on lt_on nlp_on spell_on
                   tokenizer grammar_checker semantic_analyzer spell_checker read_text).

(** The loop over the futures: a file whose scan raises adds no issue,
    its cache entry is written, and the loop goes on. *)
Lemma scan_parallel_isolates o key fp rest results cache :
  CheckFile o key = Raise ->
  ScanParallel o true ((key, fp) :: rest) results cache
  = ScanParallel o true rest results (cache_set cache key fp).
Proof. intros H. simpl. rewrite H, app_nil_r. reflexivity. Qed.

(** The serial loop: a file whose scan raises ends the loop. *)
Lemma scan_serial_propagates o use_cache key fp rest results cache :
  CheckFile o key = Raise ->
  ScanSerial o use_cache ((key, fp) :: rest) results cache = Raise.
Proof. intros H. simpl. rewrite H. reflexivity. Qed.

(** Wherever the failing file stands in the list, the serial loop ends
    with its exception, or with that of an earlier file. *)
Lemma scan_serial_raises o use_cache to_scan :
  Exists (fun kf => CheckFile o (fst kf) = Raise) to_scan ->
  forall results cache, ScanSerial o use_cache to_scan results cache = Raise.
Proof.
  induction to_scan as [|[key fp] rest IH]; intros Hex results cache.
  - inversion Hex.
  - simpl. destruct (CheckFile o key) as [res|] eqn:E; [|reflexivity].
    simpl. apply IH. inversion Hex as [? ? Hhd|? ? Htl]; subst; [|exact Htl].
    simpl in Hhd. congruence.
Qed.

(** The loop over the futures returns for every list of files, and
    writes the cache entry of each of them, raised or not. *)
Lemma scan_parallel_writes_entries o completed :
  forall results d,
    exists results' d',
      ScanParallel o true completed results (Dict d) = (results', Dict d')
      /\ forall key fp, In (key, fp) completed -> exists fp', d' !! key = Some (PyStr fp').
Proof.
  induction completed as [|[key fp] rest IH]; intros results d.
  - exists results, d. split; [reflexivity|]. intros ? ? [].
  - simpl.
    destruct (IH (results ++ match CheckFile o key with Ok r => r | Raise => [] end)
                 (<[key := PyStr fp]> d)) as (r' & d' & Heq & Hin).
    exists r', d'. split; [exact Heq|].
    intros k f [Hk|Hk]; [|eapply Hin; exact Hk].
    inversion Hk; subst. clear Hk.
    revert Heq. clear. generalize (results ++ match CheckFile o k with Ok r => r | Raise => [] end).
    assert (Hd : exists fp', <[k := PyStr f]> d !! k = Some (PyStr fp'))
      by (exists f; apply lookup_insert_eq).
    revert Hd. generalize (<[k := PyStr f]> d).
    induction rest as [|[k2 f2] rest IH]; intros d0 Hd0 l Heq.
    + simpl in Heq. inversion Heq; subst. exact Hd0.
    + simpl in Heq. revert Heq. apply IH.
      destruct (decide (k2 = k)) as [->|Hne].
      * exists f2. apply lookup_insert_eq.
      * rewrite lookup_insert_ne by exact Hne. exact Hd0.
Qed.

End ScanLoops.

(* ===================================================================== *)
(** * Part III.  Further properties of the code                            *)
(* ===================================================================== *)

(** ** What the matcher accepts *)

(** The iterations of a repetition: [i] iterations are done at [s]; the
    loop may stop when [lo] are done, and may go on below [hi] with an
    iteration that consumes something. *)
Inductive iter (R : mstate -> mstate -> Prop) (lo : nat) (hi : option nat)
  : nat -> mstate -> mstate -> Prop :=
| iter_stop i s : (lo <= i)%nat -> iter R lo hi i s s
| iter_more i s s1 s2 :
    below hi i = true -> R s s1 ->
    (length (m_rest s1) < length (m_rest s))%nat ->
    iter R lo hi (S i) s1 s2 -> iter R lo hi i s s2.

(** [matches r s s']: one way of matching [r] at [s] leaves the matcher
    in [s'], whatever the order in which the ways are tried. *)
Fixpoint matches (r : re) (s s' : mstate) : Prop :=
  match r with
  | Eps => s' = s
  | Cls p =>
    exists c t, m_rest s = c :: t /\ p c = true /\ s' = MState (Some c) t (m_caps s)
  | Seq a b => exists m, matches a s m /\ matches b m s'
  | Alt a b => matches a s s' \/ matches b s s'
  | Rep _ lo hi a => iter (matches a) lo hi 0 s s'
  | Look positive a =>
    s' = s /\ (if rmatch a Some s is Some _ then true else false) = positive
  | Behind positive p => s' = s /\ Bool.eqb (opt_test p (m_prev s)) positive = true
  | Bol multiline =>
    s' = s /\ match m_prev s with
              | None => True
              | Some c => multiline && is_newline c = true
              end
  | Eol multiline =>
    s' = s /\ match m_rest s with
              | [] => True
              | c :: t =>
                is_newline c && (multiline || match t with [] => true | _ => false end)
                = true
              end
  | WordB w =>
    s' = s /\ xorb (opt_test w (m_prev s)) (opt_test w (head (m_rest s))) = true
  | Group n a =>
    exists m, matches a s m
      /\ s' = MState (m_prev m) (m_rest m)
                ((n, firstn (length (m_rest s) - length (m_rest m)) (m_rest s))
                   :: m_caps m)
  | Backref n =>
    exists g, cap_lookup n (m_caps s) = Some g /\ advance g s = Some s'
  end.

(** Whatever the matcher returns went through a match of the pattern. *)
Lemma rep_loop_matches (R : mstate -> mstate -> Prop) body k greedy lo hi :
  (forall k s x, body k s = Some x -> exists s', R s s' /\ k s' = Some x) ->
  forall fuel i s x,
    rep_loop body k greedy lo hi fuel i s = Some x ->
    exists s', iter R lo hi i s s' /\ k s' = Some x.
Proof.
  intros Hbody. induction fuel as [|f IH]; intros i s x H.
  - cbn [rep_loop] in H. destruct (Nat.leb lo i) eqn:E; [|discriminate].
    exists s. split; [|exact H]. apply iter_stop. apply Nat.leb_le. exact E.
  - cbn [rep_loop] in H.
    assert (Hmore : forall y,
      (if below hi i
       then body (fun s' =>
              if Nat.ltb (length (m_rest s')) (length (m_rest s))
              then rep_loop body k greedy lo hi f (S i) s' else None) s
       else None) = Some y ->
      exists s', iter R lo hi i s s' /\ k s' = Some y).
    { intros y Hy. destruct (below hi i) eqn:Eb; [|discriminate].
      apply Hbody in Hy. destruct Hy as (s1 & HR & Hk).
      destruct (Nat.ltb (length (m_rest s1)) (length (m_rest s))) eqn:El; [|discriminate].
      apply IH in Hk. destruct Hk as (s2 & Hit & Hk).
      exists s2. split; [|exact Hk].
      eapply iter_more; eauto. apply Nat.ltb_lt. exact El. }
    assert (Hstop : forall y, (if Nat.leb lo i then k s else None) = Some y ->
      exists s', iter R lo hi i s s' /\ k s' = Some y).
    { intros y Hy. destruct (Nat.leb lo i) eqn:E; [|discriminate].
      exists s. split; [|exact Hy]. apply iter_stop. apply Nat.leb_le. exact E. }
    destruct greedy.
    + match type of H with
      | match ?m with _ => _ end = _ => destruct m as [y|]
      end.
      * inversion H; subst. apply Hmore. reflexivity.
      * apply Hstop. exact H.
    + match type of H with
      | match ?m with _ => _ end = _ => destruct m as [y|]
      end.
      * inversion H; subst. apply Hstop. reflexivity.
      * apply Hmore. exact H.
Qed.

Lemma rmatch_matches r : forall k s x,
  rmatch r k s = Some x -> exists s', matches r s s' /\ k s' = Some x.
Proof.
  induction r as [|p|a IHa b IHb|a IHa b IHb|g lo hi a IHa|pos a IHa|pos p|ml|ml|w|n a IHa|n];
    intros k s x H; cbn [rmatch] in H; cbn [matches].
  - eauto.
  - destruct (m_rest s) as [|c t] eqn:E; [discriminate|].
    destruct (p c) eqn:Ep; [|discriminate]. eauto 10.
  - apply IHa in H. destruct H as (m & Ha & H). apply IHb in H.
    destruct H as (s' & Hb & H). eauto.
  - destruct (rmatch a k s) as [y|] eqn:E.
    + inversion H; subst. apply IHa in E. destruct E as (s' & ? & ?). eauto.
    + apply IHb in H. destruct H as (s' & ? & ?). eauto.
  - eapply rep_loop_matches in H; [|exact IHa]. exact H.
  - destruct (rmatch a Some s) eqn:E; destruct pos; try discriminate; eauto.
  - destruct (Bool.eqb (opt_test p (m_prev s)) pos) eqn:E; [|discriminate]. eauto.
  - destruct (m_prev s) as [c|] eqn:E.
    + destruct (ml && is_newline c) eqn:E2; [|discriminate]. eauto.
    + eauto.
  - destruct (m_rest s) as [|c t] eqn:E.
    + eauto.
    + match type of H with (if ?b then _ else _) = _ => destruct b eqn:E2 end;
        [|discriminate]. eauto.
  - match type of H with (if ?b then _ else _) = _ => destruct b eqn:E2 end;
      [|discriminate]. eauto.
  - apply IHa in H. destruct H as (m & Ha & H). eauto.
  - destruct (cap_lookup n (m_caps s)) as [g|] eqn:E; [|discriminate].
    destruct (advance g s) as [s'|] eqn:E2; [|discriminate]. eauto.
Qed.

(** Conversely, when the pattern has a match that the continuation
    accepts, the matcher does not fail. *)
Lemma rep_loop_complete (R : mstate -> mstate -> Prop) body k greedy lo hi :
  (forall k s s' x, R s s' -> k s' = Some x -> exists y, body k s = Some y) ->
  forall i s s', iter R lo hi i s s' ->
  forall fuel x, (length (m_rest s) < fuel)%nat -> k s' = Some x ->
    exists y, rep_loop body k greedy lo hi fuel i s = Some y.
Proof.
  intros Hbody i s s' Hit.
  induction Hit as [i s Hlo|i s s1 s2 Hb HR Hlt Hit IH]; intros fuel x Hf Hk.
  - destruct fuel as [|f]; [lia|]. cbn [rep_loop].
    apply Nat.leb_le in Hlo. rewrite Hlo, Hk.
    destruct greedy.
    + match goal with |- exists y, match ?m with _ => _ end = _ => destruct m end; eauto.
    + eauto.
  - destruct fuel as [|f]; [lia|]. cbn [rep_loop]. rewrite Hb.
    destruct (IH f x ltac:(lia) Hk) as (y1 & Hy1).
    destruct (Hbody (fun s' =>
                if Nat.ltb (length (m_rest s')) (length (m_rest s))
                then rep_loop body k greedy lo hi f (S i) s' else None) s s1 y1 HR)
      as (y & Hy).
    { apply Nat.ltb_lt in Hlt. rewrite Hlt. exact Hy1. }
    rewrite Hy. destruct greedy.
    + eauto.
    + match goal with |- exists y, match ?m with _ => _ end = _ => destruct m end; eauto.
Qed.

Lemma matches_rmatch r : forall k s s' x,
  matches r s s' -> k s' = Some x -> exists y, rmatch r k s = Some y.
Proof.
  induction r as [|p|a IHa b IHb|a IHa b IHb|g lo hi a IHa|pos a IHa|pos p|ml|ml|w|n a IHa|n];
    intros k s s' x Hm Hk; cbn [matches] in Hm; cbn [rmatch].
  - subst. eauto.
  - destruct Hm as (c & t & E & Ep & ->). rewrite E, Ep. eauto.
  - destruct Hm as (m & Ha & Hb).
    destruct (IHb k m s' x Hb Hk) as (y & Hy). eapply IHa; eauto.
  - destruct (rmatch a k s) eqn:E; [eauto|].
    destruct Hm as [Ha|Hb].
    + destruct (IHa k s s' x Ha Hk) as (y & Hy). congruence.
    + eapply IHb; eauto.
  - eapply rep_loop_complete; eauto.
  - destruct Hm as (-> & E). destruct (rmatch a Some s); destruct pos; try discriminate; eauto.
  - destruct Hm as (-> & E). rewrite E. eauto.
  - destruct Hm as (-> & E). destruct (m_prev s); [rewrite E|]; eauto.
  - destruct Hm as (-> & E). destruct (m_rest s); [|rewrite E]; eauto.
  - destruct Hm as (-> & E). rewrite E. eauto.
  - destruct Hm as (m & Ha & ->). eapply IHa; [exact Ha|]. cbn beta. exact Hk.
  - destruct Hm as (g & E & E2). rewrite E, E2. eauto.
Qed.

(** [match_here] succeeds exactly where the pattern has a match. *)
Lemma match_here_matches r pos prev rest m :
  match_here r pos prev rest = Some m ->
  exists s', matches r (MState prev rest []) s'
    /\ m = MatchObj (Z.of_nat pos)
                    (Z.of_nat (pos + (length rest - length (m_rest s'))))
                    (firstn (length rest - length (m_rest s')) rest) (m_caps s').
Proof.
  unfold match_here. intros H.
  destruct (rmatch r Some (MState prev rest [])) as [s'|] eqn:E; [|discriminate].
  apply rmatch_matches in E. destruct E as (s2 & Hm & Hk). inversion Hk; subst.
  inversion H; subst. eauto.
Qed.

Lemma matches_match_here r pos prev rest s' :
  matches r (MState prev rest []) s' -> exists m, match_here r pos prev rest = Some m.
Proof.
  intros Hm. unfold match_here.
  destruct (matches_rmatch r Some _ _ s' Hm eq_refl) as (y & Hy). rewrite Hy. eauto.
Qed.

(** A match consumes a prefix of the remaining text. *)
Lemma advance_caps g : forall s s', advance g s = Some s' -> m_caps s' = m_caps s.
Proof.
  induction g as [|c g IH]; intros s s' H; simpl in H.
  - congruence.
  - destruct (m_rest s) as [|d t]; [discriminate|].
    destruct (c =? d); [|discriminate]. apply IH in H. exact H.
Qed.

Lemma iter_words (R : mstate -> mstate -> Prop) (P : list Z -> Prop) lo hi :
  P [] -> (forall a b, P a -> P b -> P (a ++ b)) ->
  (forall s s', R s s' -> exists w, m_rest s = w ++ m_rest s' /\ P w) ->
  forall i s s', iter R lo hi i s s' -> exists w, m_rest s = w ++ m_rest s' /\ P w.
Proof.
  intros Hnil Happ HR i s s' H. induction H as [i s _|i s s1 s2 _ H1 _ _ IH].
  - exists []. auto.
  - destruct (HR _ _ H1) as (w1 & E1 & P1). destruct IH as (w2 & E2 & P2).
    exists (w1 ++ w2). split; [|auto]. rewrite E1, E2. apply app_assoc.
Qed.

Lemma iter_split (R : mstate -> mstate -> Prop) lo hi :
  (forall s s', R s s' -> exists w, m_rest s = w ++ m_rest s') ->
  forall i s s', iter R lo hi i s s' -> exists w, m_rest s = w ++ m_rest s'.
Proof.
  intros HR i s s' H.
  destruct (iter_words R (fun _ => True) lo hi I (fun _ _ _ _ => I)) with (2 := H)
    as (w & E & _); eauto.
  intros s1 s2 H12. destruct (HR _ _ H12) as (w & E). eauto.
Qed.

Lemma matches_split r : forall s s', matches r s s' -> exists w, m_rest s = w ++ m_rest s'.
Proof.
  induction r as [|p|a IHa b IHb|a IHa b IHb|g lo hi a IHa|pos a IHa|pos p|ml|ml|w|n a IHa|n];
    intros s s' H; cbn [matches] in H;
    try (destruct H as (-> & _); exists []; reflexivity).
  - subst. exists []. reflexivity.
  - destruct H as (c & t & E & _ & ->). exists [c]. exact E.
  - destruct H as (m & Ha & Hb).
    destruct (IHa _ _ Ha) as (w1 & E1). destruct (IHb _ _ Hb) as (w2 & E2).
    exists (w1 ++ w2). rewrite E1, E2. apply app_assoc.
  - destruct H as [H|H]; eauto.
  - exact (iter_split _ lo hi IHa _ _ _ H).
  - destruct H as (m & Ha & ->). exact (IHa _ _ Ha).
  - destruct H as (g & _ & H). apply advance_sound in H. eauto.
Qed.

(** The part of the remaining text a match went over. *)
Lemma consumed_prefix (w rest' : list Z) :
  firstn (length (w ++ rest') - length rest') (w ++ rest') = w.
Proof.
  rewrite length_app. replace (length w + length rest' - length rest')%nat with (length w) by lia.
  rewrite firstn_app, firstn_all, Nat.sub_diag. simpl. apply app_nil_r.
Qed.

(** The code point before the cursor once [pre] is passed. *)
Definition prev_of (prev : option Z) (pre : list Z) : option Z :=
  match rev pre with c :: _ => Some c | [] => prev end.

Lemma prev_of_cons prev c pre : prev_of prev (c :: pre) = prev_of (Some c) pre.
Proof. unfold prev_of. simpl. destruct (rev pre); reflexivity. Qed.

(** Every match [finditer] yields is a match of the pattern at some
    position of the text. *)
Lemma finditer_from_In r : forall rest pos prev skip m,
  In m (finditer_from r pos prev rest skip) ->
  exists pre post, rest = pre ++ post
    /\ match_here r (pos + length pre) (prev_of prev pre) post = Some m.
Proof.
  induction rest as [|c t IH]; intros pos prev skip m Hin.
  - destruct skip; simpl in Hin; [|destruct Hin].
    destruct (match_here r pos prev []) as [m0|] eqn:E; [|destruct Hin].
    destruct Hin as [<-|[]]. exists [], []. simpl. rewrite Nat.add_0_r. auto.
  - assert (Hnext : forall k, In m (finditer_from r (S pos) (Some c) t k) ->
              exists pre post, c :: t = pre ++ post
                /\ match_here r (pos + length pre) (prev_of prev pre) post = Some m).
    { intros k Hk. apply IH in Hk. destruct Hk as (pre & post & E & Hm).
      exists (c :: pre), post. split; [simpl; congruence|].
      rewrite prev_of_cons. simpl length.
      replace (pos + S (length pre))%nat with (S pos + length pre)%nat by lia. exact Hm. }
    destruct skip as [|k]; simpl in Hin; [|eauto].
    destruct (match_here r pos prev (c :: t)) as [m0|] eqn:E; [|eauto].
    destruct Hin as [<-|Hin]; [|eauto].
    exists [], (c :: t). simpl. rewrite Nat.add_0_r. auto.
Qed.

Lemma finditer_In_matches r text m :
  In m (finditer r text) ->
  exists pre w post prev' caps,
    text = pre ++ w ++ post
    /\ matches r (MState (prev_of None pre) (w ++ post) []) (MState prev' post caps)
    /\ m = MatchObj (len pre) (len pre + len w) w caps.
Proof.
  intros Hin. apply finditer_from_In in Hin. destruct Hin as (pre & rest & E & Hm).
  apply match_here_matches in Hm. destruct Hm as ([prev' post caps] & Hm & ->).
  destruct (matches_split _ _ _ Hm) as (w & Ew). simpl in Ew. subst rest.
  exists pre, w, post, prev', caps. split; [exact E|]. split; [exact Hm|].
  simpl m_rest. rewrite consumed_prefix. simpl. f_equal.
  rewrite length_app. unfold len. lia.
Qed.

(** Where the pattern can start at every code point of a class, and
    cannot match the empty string, every such code point of the text
    lies in one of the matches [finditer] yields. *)
Lemma finditer_from_covers r (p : Z -> bool) :
  (1 <= min_len r)%nat ->
  (forall pos prev c t, p c = true -> match_here r pos prev (c :: t) <> None) ->
  forall rest pos prev skip q c,
    (skip <= q)%nat -> nth_error rest q = Some c -> p c = true ->
    exists m, In m (finditer_from r pos prev rest skip)
      /\ mo_start m <= Z.of_nat (pos + q) < mo_end m.
Proof.
  intros Hmin Hstart. induction rest as [|c0 t IH]; intros pos prev skip q c Hq Hn Hp.
  - destruct q; discriminate.
  - destruct skip as [|k]; simpl.
    + destruct (match_here r pos prev (c0 :: t)) as [m|] eqn:E.
      * destruct (match_here_sound _ _ _ _ _ E) as (post & Eg & Hs & He & Hl).
        destruct (Nat.ltb q (length (mo_group0 m))) eqn:Eq.
        -- apply Nat.ltb_lt in Eq. exists m. split; [left; reflexivity|].
           rewrite Hs, He. unfold len. lia.
        -- apply Nat.ltb_ge in Eq. destruct q as [|q']; [lia|]. simpl in Hn.
           destruct (IH (S pos) (Some c0) (length (mo_group0 m) - 1)%nat q' c
                        ltac:(lia) Hn Hp) as (m' & Hin & Hr).
           exists m'. split; [right; exact Hin|].
           replace (pos + S q')%nat with (S pos + q')%nat by lia. exact Hr.
      * destruct q as [|q'].
        -- simpl in Hn. inversion Hn; subst c0. exfalso.
           apply (Hstart pos prev c t Hp). exact E.
        -- simpl in Hn.
           destruct (IH (S pos) (Some c0) 0%nat q' c ltac:(lia) Hn Hp) as (m' & Hin & Hr).
           exists m'. split; [exact Hin|].
           replace (pos + S q')%nat with (S pos + q')%nat by lia. exact Hr.
    + destruct q as [|q']; [lia|]. simpl in Hn.
      destruct (IH (S pos) (Some c0) k q' c ltac:(lia) Hn Hp) as (m' & Hin & Hr).
      exists m'. split; [exact Hin|].
      replace (pos + S q')%nat with (S pos + q')%nat by lia. exact Hr.
Qed.

(** Patterns without a capturing group leave the captured groups alone. *)
Fixpoint group_free (r : re) : bool :=
  match r with
  | Group _ _ => false
  | Seq a b | Alt a b => group_free a && group_free b
  | Rep _ _ _ a => group_free a
  | _ => true
  end.

Lemma matches_caps r : group_free r = true ->
  forall s s', matches r s s' -> m_caps s' = m_caps s.
Proof.
  induction r as [|p|a IHa b IHb|a IHa b IHb|g lo hi a IHa|pos a IHa|pos p|ml|ml|w|n a IHa|n];
    intros Hg s s' H; cbn [matches] in H; cbn [group_free] in Hg;
    try (destruct H as (-> & _); reflexivity).
  - subst. reflexivity.
  - destruct H as (c & t & _ & _ & ->). reflexivity.
  - apply andb_true_iff in Hg. destruct Hg as [Ga Gb].
    destruct H as (m & Ha & Hb). rewrite (IHb Gb _ _ Hb). exact (IHa Ga _ _ Ha).
  - apply andb_true_iff in Hg. destruct Hg as [Ga Gb]. destruct H as [H|H]; auto.
  - induction H as [i s _|i s s1 s2 _ H1 _ _ IH]; [reflexivity|].
    rewrite IH. exact (IHa Hg _ _ H1).
  - discriminate.
  - destruct H as (g & _ & H). exact (advance_caps _ _ _ H).
Qed.

(** [within P r]: every class of [r] lies in [P].  A match of such a
    pattern goes over code points of [P] only, provided the groups
    captured before do (a back-reference repeats one of them). *)
Fixpoint within (P : Z -> Prop) (r : re) : Prop :=
  match r with
  | Cls q => forall c, q c = true -> P c
  | Seq a b | Alt a b => within P a /\ within P b
  | Rep _ _ _ a | Group _ a => within P a
  | _ => True
  end.

Definition caps_within (P : Z -> Prop) (caps : list (nat * list Z)) : Prop :=
  Forall (fun ng => Forall P (snd ng)) caps.

Lemma cap_lookup_within P n : forall caps g,
  caps_within P caps -> cap_lookup n caps = Some g -> Forall P g.
Proof.
  induction caps as [|[i h] t IH]; intros g Hc H; simpl in H; [discriminate|].
  inversion Hc; subst. destruct (Nat.eqb i n).
  - inversion H; subst. assumption.
  - eauto.
Qed.

Lemma matches_within (P : Z -> Prop) r : within P r ->
  forall s s', caps_within P (m_caps s) -> matches r s s' ->
    exists w, m_rest s = w ++ m_rest s' /\ Forall P w /\ caps_within P (m_caps s').
Proof.
  induction r as [|p|a IHa b IHb|a IHa b IHb|g lo hi a IHa|pos a IHa|pos p|ml|ml|w|n a IHa|n];
    intros Hw s s' Hc H; cbn [matches] in H; cbn [within] in Hw;
    try (destruct H as (-> & _); exists []; auto).
  - subst. exists []. auto.
  - destruct H as (c & t & E & Ep & ->). exists [c]. simpl. auto.
  - destruct Hw as [Wa Wb]. destruct H as (m & Ha & Hb).
    destruct (IHa Wa _ _ Hc Ha) as (w1 & E1 & P1 & C1).
    destruct (IHb Wb _ _ C1 Hb) as (w2 & E2 & P2 & C2).
    exists (w1 ++ w2). rewrite E1, E2, app_assoc. split; [reflexivity|].
    split; [apply Forall_app; auto | exact C2].
  - destruct Hw as [Wa Wb]. destruct H as [H|H]; eauto.
  - induction H as [i s _|i s s1 s2 _ H1 _ _ IH].
    + exists []. auto.
    + destruct (IHa Hw _ _ Hc H1) as (w1 & E1 & P1 & C1).
      destruct (IH C1) as (w2 & E2 & P2 & C2).
      exists (w1 ++ w2). rewrite E1, E2, app_assoc. split; [reflexivity|].
      split; [apply Forall_app; auto | exact C2].
  - destruct H as (m & Ha & ->).
    destruct (IHa Hw _ _ Hc Ha) as (w1 & E1 & P1 & C1).
    exists w1. split; [exact E1|]. split; [exact P1|]. simpl.
    constructor; [|exact C1]. simpl. rewrite E1, consumed_prefix. exact P1.
  - destruct H as (g & Hg & H).
    pose proof (cap_lookup_within P n _ _ Hc Hg) as Pg.
    exists g. split; [exact (advance_sound _ _ _ H)|]. split; [exact Pg|].
    rewrite (advance_caps _ _ _ H). exact Hc.
Qed.

(** [needs P r]: no match of [r] is possible without a code point of [P]. *)
Fixpoint needs (P : Z -> Prop) (r : re) : Prop :=
  match r with
  | Cls q => forall c, q c = true -> P c
  | Seq a b => needs P a \/ needs P b
  | Alt a b => needs P a /\ needs P b
  | Rep _ lo _ a => (1 <= lo)%nat /\ needs P a
  | Group _ a => needs P a
  | _ => False
  end.

Lemma matches_needs (P : Z -> Prop) r : needs P r ->
  forall s s', matches r s s' -> exists w, m_rest s = w ++ m_rest s' /\ Exists P w.
Proof.
  induction r as [|p|a IHa b IHb|a IHa b IHb|g lo hi a IHa|pos a IHa|pos p|ml|ml|w|n a IHa|n];
    intros Hn s s' H; cbn [matches] in H; cbn [needs] in Hn; try (destruct Hn; fail).
  - destruct H as (c & t & E & Ep & ->). exists [c]. split; [exact E|].
    constructor. auto.
  - destruct H as (m & Ha & Hb).
    destruct (matches_split _ _ _ Ha) as (w1 & E1).
    destruct (matches_split _ _ _ Hb) as (w2 & E2).
    destruct Hn as [Hn|Hn].
    + destruct (IHa Hn _ _ Ha) as (w1' & E1' & X1).
      exists (w1' ++ w2). rewrite E1', E2, app_assoc. split; [reflexivity|].
      apply Exists_app. auto.
    + destruct (IHb Hn _ _ Hb) as (w2' & E2' & X2).
      exists (w1 ++ w2'). rewrite E1, E2', app_assoc. split; [reflexivity|].
      apply Exists_app. auto.
  - destruct Hn as [Na Nb]. destruct H as [H|H]; eauto.
  - destruct Hn as [Hlo Na]. inversion H as [i s0 Hle|i s0 s1 s2 _ H1 _ Hit]; subst; [lia|].
    destruct (IHa Na _ _ H1) as (w1 & E1 & X1).
    destruct (iter_split _ lo hi (matches_split a) _ _ _ Hit) as (w2 & E2).
    exists (w1 ++ w2). rewrite E1, E2, app_assoc. split; [reflexivity|].
    apply Exists_app. auto.
  - destruct H as (m & Ha & ->). exact (IHa Hn _ _ Ha).
Qed.

(** ** japanese_extractor.py and comments.py: what is extracted *)

Lemma matches_lit : forall (w : list Z) s s',
  matches (lit w) s s' -> m_rest s = w ++ m_rest s' /\ m_caps s' = m_caps s.
Proof.
  induction w as [|c w IH]; intros s s' H; cbn [lit matches] in H.
  - subst. auto.
  - destruct H as (m & (d & t & E & Ed & ->) & Hw).
    apply Z.eqb_eq in Ed. subst d.
    destruct (IH _ _ Hw) as (E2 & C2). simpl in E2, C2.
    rewrite E, E2. auto.
Qed.

Lemma lit_matches : forall (w : list Z) prev post caps,
  exists prev', matches (lit w) (MState prev (w ++ post) caps) (MState prev' post caps).
Proof.
  induction w as [|c w IH]; intros prev post caps; cbn [lit matches].
  - exists prev. reflexivity.
  - destruct (IH (Some c) post caps) as (prev' & H). exists prev'.
    exists (MState (Some c) (w ++ post) caps). split; [|exact H].
    exists c, (w ++ post). simpl. rewrite Z.eqb_refl. auto.
Qed.

(** A block starts with a Japanese code point and goes on with
    Japanese code points, ASCII letters and digits. *)
Lemma jp_class_alnum c : jp_class c = true -> jp_alnum_class c = true.
Proof.
  unfold jp_class, jp_alnum_class. intros H.
  repeat (apply orb_true_iff in H; destruct H as [H|H]); rewrite H;
    repeat rewrite orb_true_r; reflexivity.
Qed.

Lemma matches_seq a b s s' :
  matches (Seq a b) s s' -> exists m, matches a s m /\ matches b m s'.
Proof. exact (fun H => H). Qed.

Lemma matches_group n a s s' :
  matches (Group n a) s s' ->
  exists m, matches a s m
    /\ s' = MState (m_prev m) (m_rest m)
              ((n, firstn (length (m_rest s) - length (m_rest m)) (m_rest s)) :: m_caps m).
Proof. exact (fun H => H). Qed.

Lemma matches_cls p s s' :
  matches (Cls p) s s' ->
  exists c t, m_rest s = c :: t /\ p c = true /\ s' = MState (Some c) t (m_caps s).
Proof. exact (fun H => H). Qed.

(** A repetition that must iterate starts with one iteration. *)
Lemma matches_rep_first g lo hi a s s' :
  matches (Rep g (S lo) hi a) s s' ->
  exists s1 w, matches a s s1 /\ m_rest s1 = w ++ m_rest s'.
Proof.
  intros H. cbn [matches] in H.
  inversion H as [? ? Hle|? ? s1 ? _ Ha _ Hit]; subst; [lia|].
  destruct (iter_split _ _ _ (matches_split a) _ _ _ Hit) as (w & E). eauto.
Qed.

Lemma jp_block_matches prev w post prev' caps :
  matches _JP_BLOCK_RE (MState prev (w ++ post) []) (MState prev' post caps) ->
  exists c t, w = c :: t /\ jp_class c = true
    /\ Forall (fun d => jp_alnum_class d = true) w.
Proof.
  intros H.
  destruct (matches_within (fun d => jp_alnum_class d = true) _JP_BLOCK_RE)
    with (3 := H) as (w' & E & Hall & _).
  { cbn. split; [exact jp_class_alnum | auto]. }
  { constructor. }
  simpl in E. apply app_inv_tail in E. subst w'.
  unfold _JP_BLOCK_RE in H. apply matches_seq in H. destruct H as (m & H1 & H2).
  apply matches_rep_first in H1. destruct H1 as (s1 & w2 & Hc & E2).
  apply matches_cls in Hc. destruct Hc as (c & t & E & Hj & ->). simpl in E, E2.
  destruct (matches_split _ _ _ H2) as (w4 & E4). simpl in E4.
  rewrite E2, E4, app_assoc, app_comm_cons in E. apply app_inv_tail in E.
  exists c, (w2 ++ w4). subst w. auto.
Qed.

(** Extra X1.  Every block [extract_japanese_blocks] yields starts with a
    Japanese code point of the pattern's ranges and consists of such
    code points, ASCII letters and digits. *)
Theorem extract_japanese_blocks_content (text : list Z) :
  Forall (fun sp : span =>
            exists c t, snd sp = c :: t /\ jp_class c = true
              /\ Forall (fun d => jp_alnum_class d = true) (snd sp))
         (extract_japanese_blocks text).
Proof.
  apply Forall_forall. intros sp Hin. unfold extract_japanese_blocks in Hin.
  apply in_map_iff in Hin. destruct Hin as (m & <- & Hin).
  apply finditer_In_matches in Hin.
  destruct Hin as (pre & w & post & prev' & caps & _ & Hm & ->). simpl.
  exact (jp_block_matches _ _ _ _ _ Hm).
Qed.

Example extract_japanese_blocks_example :
  extract_japanese_blocks (u "x = 見れるabc3, 日本語。")
  = [(4, 11, u "見れるabc3"); (13, 17, u "日本語。")].
Proof. vm_compute. reflexivity. Qed.

(** The pattern starts at every Japanese code point. *)
Lemma jp_block_starts pos prev c t :
  jp_class c = true -> match_here _JP_BLOCK_RE pos prev (c :: t) <> None.
Proof.
  intros Hj.
  destruct (matches_match_here _JP_BLOCK_RE pos prev (c :: t) (MState (Some c) t []))
    as (m & Hm); [|congruence].
  unfold _JP_BLOCK_RE, plus, star. cbn [matches].
  exists (MState (Some c) t []). split.
  - apply iter_more with (s1 := MState (Some c) t []);
      [reflexivity| |simpl; lia|apply iter_stop; lia].
    exists c, t. auto.
  - apply iter_stop. lia.
Qed.

(** Extra X2.  No Japanese code point of the text is left out: each lies in one
    of the blocks [extract_japanese_blocks] yields. *)
Theorem extract_japanese_blocks_cover (text : list Z) (q : nat) (c : Z) :
  nth_error text q = Some c -> jp_class c = true ->
  exists s e b, In (s, e, b) (extract_japanese_blocks text) /\ s <= Z.of_nat q < e.
Proof.
  intros Hn Hj.
  assert (Hmin : (1 <= min_len _JP_BLOCK_RE)%nat) by (vm_compute; lia).
  destruct (finditer_from_covers _JP_BLOCK_RE jp_class Hmin jp_block_starts
              text 0%nat None 0%nat q c (Nat.le_0_l q) Hn Hj) as (m & Hin & Hr).
  exists (mo_start m), (mo_end m), (mo_group0 m). split; [|exact Hr].
  unfold extract_japanese_blocks. apply in_map_iff. exists m. auto.
Qed.

Lemma extract_japanese_blocks_cover_witness :
  exists s e b, In (s, e, b) (extract_japanese_blocks (u "a = 日本語")) /\ s <= Z.of_nat 5 < e.
Proof.
  apply (extract_japanese_blocks_cover (u "a = 日本語") 5 0x672C); vm_compute; reflexivity.
Defined.

(** A text without Japanese code points has no block. *)
Lemma extract_japanese_blocks_none (text : list Z) :
  Forall (fun c => jp_class c = false) text -> extract_japanese_blocks text = [].
Proof.
  intros Hno. unfold extract_japanese_blocks.
  destruct (finditer _JP_BLOCK_RE text) as [|m l] eqn:E; [reflexivity|]. exfalso.
  assert (Hin : In m (finditer _JP_BLOCK_RE text)) by (rewrite E; left; reflexivity).
  apply finditer_In_matches in Hin.
  destruct Hin as (pre & w & post & prev' & caps & Et & Hm & _).
  destruct (jp_block_matches _ _ _ _ _ Hm) as (c & t & -> & Hj & _).
  rewrite Forall_forall in Hno. rewrite (Hno c) in Hj; [discriminate|].
  rewrite Et. apply in_or_app. right. left. reflexivity.
Qed.

Lemma Forall_neq_not_In (x : Z) (l : list Z) : Forall (fun c => c <> x) l -> ~ In x l.
Proof. rewrite Forall_forall. intros H Hin. exact (H x Hin eq_refl). Qed.

Lemma quote_not_newline q : quote_class q = true -> q <> 10.
Proof.
  unfold quote_class, one_of. simpl. intros H ->. discriminate.
Qed.

Lemma string_re_matches prev w post prev' caps :
  matches _STRING_RE (MState prev (w ++ post) []) (MState prev' post caps) ->
  exists q body, w = q :: body ++ [q] /\ quote_class q = true /\ ~ In 10 w.
Proof.
  intros H. unfold _STRING_RE in H.
  apply matches_seq in H. destruct H as (m1 & Hg & H).
  apply matches_seq in H. destruct H as (m2 & Hbody & Hback).
  apply matches_group in Hg. destruct Hg as (m0 & Hq & ->).
  apply matches_cls in Hq. destruct Hq as (q & t & E & Hq & ->).
  simpl in E. simpl m_rest in *. simpl m_caps in *. simpl m_prev in *.
  replace (firstn (length (w ++ post) - length t) (w ++ post)) with [q] in *.
  2:{ rewrite E. simpl length. replace (S (length t) - length t)%nat with 1%nat by lia.
      reflexivity. }
  pose proof (quote_not_newline q Hq) as Hnl.
  assert (Hb2 : exists body, t = body ++ m_rest m2 /\ Forall (fun c => c <> 10) body).
  { apply (matches_within (fun c => c <> 10)) in Hbody.
    - destruct Hbody as (body & Eb & Pb & _). eauto.
    - unfold lazy_star, chr, dot. cbn [within]. repeat split; auto.
      + intros c Hc. apply Z.eqb_eq in Hc. subst c. unfold backslash. lia.
      + intros c Hc Heq. subst c. discriminate.
      + intros c Hc Heq. subst c. discriminate.
    - constructor; [|constructor]. simpl. constructor; [exact Hnl|constructor]. }
  destruct Hb2 as (body & Eb & Pb).
  assert (Hcaps : m_caps m2 = [(1%nat, [q])]).
  { apply matches_caps in Hbody; [exact Hbody | reflexivity]. }
  cbn [matches] in Hback. destruct Hback as (g & Hg & Hadv).
  rewrite Hcaps in Hg. simpl in Hg. inversion Hg; subst g.
  apply advance_sound in Hadv. simpl in Hadv.
  rewrite Eb, Hadv in E.
  change (q :: post) with ([q] ++ post) in E.
  rewrite app_assoc, app_comm_cons in E. apply app_inv_tail in E.
  exists q, body. split; [exact E|]. split; [exact Hq|].
  apply Forall_neq_not_In. rewrite E. constructor; [exact Hnl|].
  apply Forall_app. split; [exact Pb|]. constructor; [exact Hnl|constructor].
Qed.

(** Extra X3.  Every literal [extract_string_literals] yields opens with a
    single or double quote and closes with the same quote, and holds no
    line feed: a literal never runs over a line end. *)
Theorem extract_string_literals_quoted (code : list Z) :
  Forall (fun sp : span =>
            exists q body, snd sp = q :: body ++ [q]
              /\ quote_class q = true /\ ~ In 10 (snd sp))
         (extract_string_literals code).
Proof.
  apply Forall_forall. intros sp Hin. unfold extract_string_literals in Hin.
  apply in_map_iff in Hin. destruct Hin as (m & <- & Hin).
  apply finditer_In_matches in Hin.
  destruct Hin as (pre & w & post & prev' & caps & _ & Hm & ->). simpl.
  exact (string_re_matches _ _ _ _ _ Hm).
Qed.

Example extract_string_literals_example :
  extract_string_literals (u "s = 'it\'s' ; t = " ++ [34] ++ u "a'b" ++ [34] ++ u " # 'open")
  = [(4, 11, u "'it\'s'"); (18, 23, [34] ++ u "a'b" ++ [34])].
Proof. vm_compute. reflexivity. Qed.

Lemma not_newline_neq c : not_newline c = true -> c <> 10.
Proof. unfold not_newline, is_newline. intros H ->. discriminate. Qed.

Lemma line_comment_body (s s' : mstate) :
  caps_within (fun c => c <> 10) (m_caps s) ->
  matches (star (Cls not_newline)) s s' ->
  exists body, m_rest s = body ++ m_rest s' /\ ~ In 10 body.
Proof.
  intros Hc H. apply (matches_within (fun c => c <> 10)) in H.
  - destruct H as (body & E & P & _). exists body. split; [exact E|].
    apply Forall_neq_not_In. exact P.
  - unfold star. cbn [within]. exact not_newline_neq.
  - exact Hc.
Qed.

(** Extra X4.  The three kinds of comment [extract_comments] yields: from a
    hash sign or from two slashes up to, at most, the end of the line,
    or from an opening to a closing block-comment mark. *)
Theorem extract_comments_shape (text : list Z) :
  Forall (fun sp : span =>
            (exists body, snd sp = 35 :: body /\ ~ In 10 body)
            \/ (exists body, snd sp = 47 :: 47 :: body /\ ~ In 10 body)
            \/ (exists body, snd sp = 47 :: 42 :: body ++ [42; 47]))
         (extract_comments text).
Proof.
  unfold extract_comments. repeat rewrite Forall_app. repeat split;
    apply Forall_forall; intros sp Hin;
    apply in_map_iff in Hin; destruct Hin as (m & <- & Hin);
    apply finditer_In_matches in Hin;
    destruct Hin as (pre & w & post & prev' & caps & _ & Hm & ->); simpl.
  - left. unfold _LINE_HASH in Hm. apply matches_seq in Hm.
    destruct Hm as (m1 & Hc & Hb). apply matches_cls in Hc.
    destruct Hc as (c & t & E & Hc & ->). apply Z.eqb_eq in Hc. subst c.
    apply line_comment_body in Hb; [|constructor].
    destruct Hb as (body & Eb & Hnl). simpl in E, Eb. rewrite Eb in E.
    rewrite app_comm_cons in E. apply app_inv_tail in E. eauto.
  - right. left. unfold _LINE_SLASH in Hm. apply matches_seq in Hm.
    destruct Hm as (m1 & Hl & Hb). apply matches_lit in Hl. destruct Hl as (E & Hc).
    apply line_comment_body in Hb; [|rewrite Hc; constructor].
    destruct Hb as (body & Eb & Hnl). simpl in E, Eb. rewrite Eb in E.
    change (47 :: 47 :: body ++ post) with ((47 :: 47 :: body) ++ post) in E.
    apply app_inv_tail in E. eauto.
  - right. right. unfold _BLOCK in Hm. apply matches_seq in Hm.
    destruct Hm as (m1 & Hl & Hm). apply matches_seq in Hm.
    destruct Hm as (m2 & Hb & Hr).
    apply matches_lit in Hl. destruct Hl as (E & _).
    apply matches_split in Hb. destruct Hb as (body & Eb).
    apply matches_lit in Hr. destruct Hr as (Er & _).
    simpl in E, Eb, Er. rewrite Eb, Er in E.
    exists body. apply app_inv_tail with (l := post).
    rewrite E. simpl. rewrite <- app_assoc. reflexivity.
Qed.

Example extract_comments_example :
  extract_comments (u "x = 1 # 設定 // a" ++ [10] ++ u "/* 複数" ++ [10] ++ u "行 */ y")
  = [ (6, 15, u "# 設定 // a");
      (11, 15, u "// a");
      (16, 26, u "/* 複数" ++ [10] ++ u "行 */") ].
Proof. vm_compute. reflexivity. Qed.

(** ** checker.py: a text without Japanese *)

Lemma In_firstn_elim {A} (x : A) : forall n l, In x (firstn n l) -> In x l.
Proof.
  induction n as [|n IH]; intros [|a l] H; simpl in H; try contradiction.
  destruct H as [->|H]; [left; reflexivity | right; auto].
Qed.

Lemma In_skipn_elim {A} (x : A) : forall n l, In x (skipn n l) -> In x l.
Proof.
  induction n as [|n IH]; intros [|a l] H; simpl in H; try contradiction; auto.
  right. auto.
Qed.

Lemma In_py_slice c s a b : In c (py_slice s a b) -> In c s.
Proof. unfold py_slice. intros H. apply In_firstn_elim, In_skipn_elim in H. exact H. Qed.

Lemma flat_map_nil {A B} (f : A -> list B) (l : list A) :
  (forall x, In x l -> f x = []) -> flat_map f l = [].
Proof.
  induction l as [|a l IH]; intros H; simpl; [reflexivity|].
  rewrite (H a), IH; auto.
  - intros. apply H. right. assumption.
  - left. reflexivity.
Qed.

Definition no_japanese (s : list Z) : Prop := Forall (fun c => jp_class c = false) s.

Lemma no_japanese_incl (s t : list Z) :
  (forall c, In c t -> In c s) -> no_japanese s -> no_japanese t.
Proof.
  unfold no_japanese. rewrite !Forall_forall. auto.
Qed.

Lemma finditer_In_text r text m c :
  In m (finditer r text) -> In c (mo_group0 m) -> In c text.
Proof.
  intros Hin Hc. apply finditer_In_matches in Hin.
  destruct Hin as (pre & w & post & prev' & caps & -> & _ & ->). simpl in Hc.
  apply in_or_app. right. apply in_or_app. left. exact Hc.
Qed.

Lemma gather_spans_none (text : list Z) fc ic :
  no_japanese text -> _gather_spans text fc ic = [].
Proof.
  intros Hno. unfold _gather_spans.
  assert (H1 : (if fc then extract_japanese_from_code text
                else extract_japanese_blocks text) = []).
  { destruct fc; [|apply extract_japanese_blocks_none; exact Hno].
    unfold extract_japanese_from_code. apply flat_map_nil. intros [[s e] l] Hin.
    rewrite extract_japanese_blocks_none; [reflexivity|].
    apply (no_japanese_incl text); [|exact Hno].
    intros c Hc. apply In_py_slice in Hc.
    unfold extract_string_literals in Hin. apply in_map_iff in Hin.
    destruct Hin as (m & Hm & Hin). inversion Hm; subst.
    eapply finditer_In_text; eauto. }
  rewrite H1. simpl. destruct ic; [|reflexivity].
  apply flat_map_nil. intros [[s e] l] Hin.
  rewrite extract_japanese_blocks_none; [reflexivity|].
  apply (no_japanese_incl text); [|exact Hno].
  intros c Hc. unfold extract_comments in Hin.
  repeat (apply in_app_or in Hin; destruct Hin as [Hin|Hin]);
    apply in_map_iff in Hin; destruct Hin as (m & Hm & Hin); inversion Hm; subst;
    eapply finditer_In_text; eauto.
Qed.

(** Where [search] finds something, the pattern has a match in the
    text. *)
Lemma search_from_matches r : forall rest pos prev m,
  search_from r pos prev rest = Some m ->
  exists pre post, rest = pre ++ post
    /\ match_here r (pos + length pre) (prev_of prev pre) post = Some m.
Proof.
  induction rest as [|c t IH]; intros pos prev m H; simpl in H.
  - destruct (match_here r pos prev []) eqn:E; [|discriminate].
    inversion H; subst. exists [], []. simpl. rewrite Nat.add_0_r. auto.
  - destruct (match_here r pos prev (c :: t)) eqn:E.
    + inversion H; subst. exists [], (c :: t). simpl. rewrite Nat.add_0_r. auto.
    + apply IH in H. destruct H as (pre & post & Et & Hm).
      exists (c :: pre), post. split; [simpl; congruence|].
      rewrite prev_of_cons. simpl length.
      replace (pos + S (length pre))%nat with (S pos + length pre)%nat by lia. exact Hm.
Qed.

Lemma found_needs (P : Z -> Prop) r s :
  needs P r -> found r s = true -> Exists P s.
Proof.
  intros Hn H. unfold found, re_search in H.
  destruct (search_from r 0 None s) as [m|] eqn:E; [|discriminate].
  apply search_from_matches in E. destruct E as (pre & post & -> & Hm).
  apply match_here_matches in Hm. destruct Hm as (s' & Hm & _).
  apply (matches_needs P r Hn) in Hm. destruct Hm as (w & E & Hw).
  simpl in E. rewrite E. apply Exists_app. right. apply Exists_app. left. exact Hw.
Qed.

(** The lines of [splitlines] are made of the text's code points. *)
Lemma splitlines_aux_In k : forall n s, (length s <= n)%nat ->
  forall cur ln c, In ln (splitlines_aux k cur s) -> In c ln -> In c cur \/ In c s.
Proof.
  induction n as [|n IH]; intros s Hlen cur ln c Hln Hc.
  - destruct s; [|simpl in Hlen; lia]. simpl in Hln.
    destruct cur; [destruct Hln|]. destruct Hln as [<-|[]].
    left. apply in_rev. exact Hc.
  - destruct s as [|a t]; simpl in Hln.
    + destruct cur; [destruct Hln|]. destruct Hln as [<-|[]].
      left. apply in_rev. exact Hc.
    + simpl in Hlen.
      assert (Hcur : forall x (l : list Z), In c (rev (if k then x else l)) ->
                (forall y, In y x -> In y l \/ In y (a :: t)) ->
                In c l \/ In c (a :: t)).
      { intros x l Hin Hx. apply in_rev in Hin. destruct k; auto. }
      destruct (is_linebreak a).
      * destruct t as [|d t'].
        -- destruct Hln as [<-|[]].
           apply (Hcur (a :: cur) cur) in Hc; [exact Hc|].
           intros y [<-|Hy]; [right; left; reflexivity | left; exact Hy].
        -- destruct ((a =? 13) && (d =? 10)).
           ++ destruct Hln as [<-|Hln].
              ** apply (Hcur (d :: a :: cur) cur) in Hc; [exact Hc|].
                 intros y [<-|[<-|Hy]]; simpl; auto.
              ** apply (IH t' ltac:(simpl in Hlen; lia) [] ln c) in Hln; [|exact Hc].
                 destruct Hln as [[]|Hln]. right. right. right. exact Hln.
           ++ destruct Hln as [<-|Hln].
              ** apply (Hcur (a :: cur) cur) in Hc; [exact Hc|].
                 intros y [<-|Hy]; simpl; auto.
              ** apply (IH (d :: t') ltac:(simpl in *; lia) [] ln c) in Hln; [|exact Hc].
                 destruct Hln as [[]|Hln]. right. right. exact Hln.
      * apply (IH t ltac:(lia) (a :: cur) ln c) in Hln; [|exact Hc].
        destruct Hln as [[<-|Hln]|Hln]; [right; left; reflexivity | left; exact Hln
                                          | right; right; exact Hln].
Qed.

Lemma splitlines_In k s ln c : In ln (splitlines k s) -> In c ln -> In c s.
Proof.
  intros Hln Hc. unfold splitlines in Hln.
  destruct (splitlines_aux_In k (length s) s (le_n _) [] ln c Hln Hc) as [[]|H]. exact H.
Qed.

Lemma lit_needs (P : Z -> Prop) c (w : list Z) : P c -> needs P (lit (c :: w)).
Proof. intros Hc. cbn [lit needs]. left. unfold chr. cbn [needs]. intros d Hd.
  apply Z.eqb_eq in Hd. subst d. exact Hc. Qed.

Lemma detect_style_mixed_lines_none cfg (text : list Z) :
  1 <= STYLE_MIX_THRESHOLD cfg -> no_japanese text ->
  detect_style_mixed_lines cfg text = None.
Proof.
  intros Hthr Hno. unfold detect_style_mixed_lines.
  assert (Hp : count_lines polite_end (splitlines false text) = 0).
  { unfold count_lines.
    replace (List.filter (found polite_end) (splitlines false text)) with (@nil (list Z));
      [reflexivity|].
    symmetry. apply filter_nil_all. intros ln Hln.
    destruct (found polite_end ln) eqn:E; [|reflexivity]. exfalso.
    apply (found_needs (fun c => jp_class c = true)) in E.
    - apply Exists_exists in E. destruct E as (c & Hc & Hj).
      pose proof (splitlines_In _ _ _ _ Hln Hc) as Hct.
      unfold no_japanese in Hno. rewrite Forall_forall in Hno.
      rewrite (Hno c Hct) in Hj. discriminate.
    - unfold polite_end. cbn [needs]. left. split; apply lit_needs; reflexivity. }
  rewrite Hp.
  replace (STYLE_MIX_THRESHOLD cfg <=? 0) with false by (symmetry; apply Z.leb_gt; lia).
  reflexivity.
Qed.

(** Extra X5.  A text that holds no Japanese code point of the extractor's
    ranges yields no issue at all, whatever the options, the rule
    registry and the optional providers: every provider only ever sees
    Japanese blocks.  The style threshold is positive, as
    [configure_advanced] keeps it. *)
Theorem check_text_without_japanese
  (patterns : list TypoPattern) (unicode_digit : Z -> bool) (nfkc : list Z -> list Z)
  (cfg : adv_config) (morph_available lt_available nlp_available spell_available : bool)
  (tokenize_with_spans : list Z -> list (Z * Z * option (list Z)))
  (run_languagetool run_nlp : list Z -> list Z -> list hit)
  (run_spellcheck : list Z -> list (list Z) -> list hit)
  (o : check_opts) (text : list Z) :
  1 <= STYLE_MIX_THRESHOLD cfg ->
  Forall (fun c => jp_class c = false) text ->
  check_text patterns (run_advanced unicode_digit nfkc cfg) (detect_style_mixed_lines cfg)
             morph_available lt_available nlp_available spell_available
             tokenize_with_spans run_languagetool run_nlp run_spellcheck o text
  = [].
Proof.
  intros Hthr Hno. unfold check_text, style_issue.
  rewrite (gather_spans_none text _ _ Hno).
  rewrite (detect_style_mixed_lines_none cfg text Hthr Hno).
  simpl. destruct (advanced o); reflexivity.
Qed.

Lemma check_text_without_japanese_witness :
  check_text [] (run_advanced (fun _ => false) (fun s => s) default_config)
             (detect_style_mixed_lines default_config)
             true true true true (fun _ => []) (fun _ _ => []) (fun _ _ => [])
             (fun _ _ => [])
             (CheckOpts true None true true true true [] true [] true None true)
             (u "print('hello world')  # plain ascii")
  = [].
Proof.
  apply check_text_without_japanese.
  - vm_compute. discriminate.
  - vm_compute. repeat constructor.
Defined.

(** ** advanced_rules.py: where the detectors point *)

(** [splitlines(keepends=True)] cuts the text into pieces that put
    together give the text back. *)
Lemma splitlines_aux_cons k cur c t :
  splitlines_aux k cur (c :: t)
  = if is_linebreak c
    then match t with
         | d :: t' =>
           if (c =? 13) && (d =? 10)
           then rev (if k then d :: c :: cur else cur) :: splitlines_aux k [] t'
           else rev (if k then c :: cur else cur) :: splitlines_aux k [] t
         | [] => [rev (if k then c :: cur else cur)]
         end
    else splitlines_aux k (c :: cur) t.
Proof. destruct t; reflexivity. Qed.

Lemma splitlines_aux_concat : forall n s, (length s <= n)%nat ->
  forall cur, concat (splitlines_aux true cur s) = rev cur ++ s.
Proof.
  assert (Hnil : forall cur, concat (splitlines_aux true cur []) = rev cur ++ []).
  { intros cur. simpl. destruct cur; simpl; [reflexivity|]. rewrite !app_nil_r. reflexivity. }
  induction n as [|n IH]; intros s Hlen cur.
  - destruct s; [apply Hnil|simpl in Hlen; lia].
  - destruct s as [|a t]; [apply Hnil|]. simpl in Hlen.
    rewrite splitlines_aux_cons. destruct (is_linebreak a).
    + destruct t as [|d t'].
      * simpl. rewrite app_nil_r. reflexivity.
      * destruct ((a =? 13) && (d =? 10)); cbn [concat].
        -- rewrite (IH t' ltac:(simpl in Hlen; lia) []). simpl.
           rewrite <- !app_assoc. reflexivity.
        -- rewrite (IH (d :: t') ltac:(simpl in *; lia) []). simpl.
           rewrite <- !app_assoc. reflexivity.
    + rewrite (IH t ltac:(lia) (a :: cur)). simpl. rewrite <- app_assoc. reflexivity.
Qed.

Lemma splitlines_concat (s : list Z) : concat (splitlines true s) = s.
Proof. unfold splitlines. rewrite (splitlines_aux_concat (length s) s (le_n _) []). reflexivity. Qed.

(** A hit that points at a non-empty stretch of the text. *)
Definition in_text (text : list Z) (h : hit) : Prop :=
  0 <= h_start h /\ h_start h < h_end h /\ h_end h <= len text.

Lemma finditer_in_text r text m :
  (1 <= min_len r)%nat -> In m (finditer r text) ->
  0 <= mo_start m /\ mo_start m < mo_end m /\ mo_end m <= len text.
Proof.
  intros Hmin Hin.
  destruct (spans_ok_In _ _ _ _ _ (finditer_ok r text) Hin) as (? & ? & ? & ?). lia.
Qed.

Lemma finditer_hits_in_text r text (f : match_obj -> list hit) :
  (1 <= min_len r)%nat ->
  (forall m, Forall (fun h => h_start h = mo_start m /\ h_end h = mo_end m) (f m)) ->
  Forall (in_text text) (flat_map f (finditer r text)).
Proof.
  intros Hmin Hf. apply Forall_forall. intros h Hin. apply in_flat_map in Hin.
  destruct Hin as (m & Hm & Hh). specialize (Hf m). rewrite Forall_forall in Hf.
  destruct (Hf h Hh) as (Hs & He). unfold in_text. rewrite Hs, He.
  apply (finditer_in_text r); assumption.
Qed.

Lemma flat_map_singleton {A B} (g : A -> B) (l : list A) :
  map g l = flat_map (fun x => [g x]) l.
Proof. induction l; simpl; congruence. Qed.

Lemma search_from_finditer r : forall rest pos prev m,
  search_from r pos prev rest = Some m ->
  exists tl, finditer_from r pos prev rest 0 = m :: tl.
Proof.
  induction rest as [|c t IH]; intros pos prev m H; simpl in H |- *.
  - destruct (match_here r pos prev []); [|discriminate]. inversion H; subst. eauto.
  - destruct (match_here r pos prev (c :: t)).
    + inversion H; subst. eauto.
    + apply IH in H. exact H.
Qed.

Lemma re_search_finditer r text m :
  re_search r text = Some m -> In m (finditer r text).
Proof.
  intros H. apply search_from_finditer in H. destruct H as (tl & H).
  unfold finditer. rewrite H. left. reflexivity.
Qed.

(** *** [_detect_long_sentences] *)

Lemma long_sentences_walk_spans limit n : forall ends start,
  0 <= start ->
  Sorted Z.lt (start :: ends) -> Forall (fun e => e <= n) (start :: ends) ->
  Forall (fun se : Z * Z => start <= fst se /\ fst se <= snd se /\ snd se <= n
                            /\ limit < snd se - fst se)
         (long_sentences_walk limit n ends start)
  /\ StronglySorted (fun a b : Z * Z => snd a <= fst b)
                    (long_sentences_walk limit n ends start).
Proof.
  induction ends as [|e t IH]; intros start H0 Hs Hn; simpl.
  - inversion Hn; subst. destruct (n - start >? limit) eqn:E.
    + apply Z.gtb_lt in E. split; repeat constructor; simpl; lia.
    + split; constructor.
  - inversion Hs as [|? ? Hs' Hhd]; subst. inversion Hhd; subst.
    inversion Hn as [|? ? Hstart Hn']; subst.
    destruct (IH e ltac:(lia) Hs' Hn') as (IH1 & IH2).
    assert (IH1' : Forall (fun se : Z * Z => e <= fst se) (long_sentences_walk limit n t e)).
    { eapply Forall_impl; [|exact IH1]. simpl. tauto. }
    destruct (e - start >? limit) eqn:E; simpl.
    + apply Z.gtb_lt in E. split.
      * constructor; [simpl; inversion Hn'; subst; lia|].
        eapply Forall_impl; [|exact IH1]. simpl. intros. lia.
      * constructor; [exact IH2|]. exact IH1'.
    + split; [|exact IH2]. eapply Forall_impl; [|exact IH1]. simpl. intros. lia.
Qed.

Lemma spans_ok_ends text w lo : forall l,
  (0 < w) -> spans_ok text w lo l ->
  Sorted Z.lt (map mo_end l) /\ Forall (fun e => lo < e /\ e <= len text) (map mo_end l).
Proof.
  intros l Hw. revert lo. induction l as [|m l IH]; intros lo H; simpl.
  - split; constructor.
  - simpl in H. destruct H as (H1 & H2 & H3 & H4 & H5).
    destruct (IH _ H5) as (IHs & IHf). split.
    + constructor; [exact IHs|]. destruct l; simpl; constructor.
      inversion IHf; subst. lia.
    + constructor; [lia|]. eapply Forall_impl; [|exact IHf]. simpl. intros. lia.
Qed.

Lemma detect_long_sentences_ok (text : list Z) (limit : Z) :
  Forall (fun se : Z * Z => 0 <= fst se /\ fst se <= snd se /\ snd se <= len text
                            /\ limit < snd se - fst se)
         (_detect_long_sentences text limit)
  /\ StronglySorted (fun a b : Z * Z => snd a <= fst b)
                    (_detect_long_sentences text limit).
Proof.
  unfold _detect_long_sentences.
  pose proof (finditer_ok (lit (u "。")) text) as Hok.
  apply spans_ok_ends in Hok; [|vm_compute; reflexivity]. destruct Hok as (Hs & Hf).
  assert (Hs' : Sorted Z.lt (0 :: map mo_end (finditer (lit (u "。")) text))).
  { constructor; [exact Hs|]. destruct (map mo_end _); constructor.
    inversion Hf; subst. lia. }
  assert (Hf' : Forall (fun e => e <= len text)
                       (0 :: map mo_end (finditer (lit (u "。")) text))).
  { constructor; [apply len_nonneg|]. eapply Forall_impl; [|exact Hf]. simpl. tauto. }
  exact (long_sentences_walk_spans limit (len text) _ 0 (Z.le_refl 0) Hs' Hf').
Qed.

(** Extra X6.  The sentences [_detect_long_sentences] reports lie in the text,
    are longer than the limit, and follow one another without overlap;
    a text no longer than the limit has none. *)
Theorem detect_long_sentences_spans (text : list Z) (limit : Z) :
  Forall (fun se : Z * Z => 0 <= fst se /\ fst se <= snd se /\ snd se <= len text
                            /\ limit < snd se - fst se)
         (_detect_long_sentences text limit)
  /\ StronglySorted (fun a b : Z * Z => snd a <= fst b)
                    (_detect_long_sentences text limit)
  /\ (len text <= limit -> _detect_long_sentences text limit = []).
Proof.
  destruct (detect_long_sentences_ok text limit) as (H1 & H2).
  split; [exact H1|]. split; [exact H2|].
  intros Hshort.
  destruct (_detect_long_sentences text limit) as [|[s e] l]; [reflexivity|].
  inversion H1 as [|? ? Hhd _]; subst. simpl in Hhd. lia.
Qed.

Example detect_long_sentences_example :
  _detect_long_sentences (u "短い文。これは少し長い文です。終わり") 5
  = [(4, 15)].
Proof. vm_compute. reflexivity. Qed.

(** *** All of [run_advanced] *)

Lemma words_in_text {A} (pat : A -> list Z) (g : A -> match_obj -> list hit)
  (l : list A) text :
  forallb (fun x => Nat.leb 1 (min_len (lit (pat x)))) l = true ->
  (forall x m, Forall (fun h => h_start h = mo_start m /\ h_end h = mo_end m) (g x m)) ->
  Forall (in_text text) (flat_map (fun x => flat_map (g x) (finditer (lit (pat x)) text)) l).
Proof.
  intros Hmin Hg. apply Forall_forall. intros h Hin. apply in_flat_map in Hin.
  destruct Hin as (x & Hx & Hh).
  rewrite forallb_forall in Hmin. specialize (Hmin x Hx). apply Nat.leb_le in Hmin.
  pose proof (finditer_hits_in_text (lit (pat x)) text (g x) Hmin (Hg x)) as H.
  rewrite Forall_forall in H. auto.
Qed.

Ltac span_of_hit :=
  repeat match goal with
         | |- Forall _ (if ?b then _ else _) => destruct b
         | |- Forall _ (match ?o with Some _ => _ | None => _ end) => destruct o
         | |- Forall _ [] => constructor
         | |- Forall _ [_] => constructor; [simpl; auto|constructor]
         end.

Lemma ranuki_special_in_text text : Forall (in_text text) (ranuki_special_hits text).
Proof.
  unfold ranuki_special_hits.
  rewrite (flat_map_ext _ (fun ws : list Z * list Z =>
     flat_map (fun m => [Hit (mo_start m) (mo_end m) (fst ws) (u "ら抜き表現の可能性")
                             (Some (snd ws)) (Some WARN) (Some ADV_RANUKI)])
              (finditer (lit (fst ws)) text)))
    by (intros; symmetry; apply flat_map_singleton).
  apply (words_in_text fst); [vm_compute; reflexivity|]. intros. span_of_hit.
Qed.

Lemma ranuki_heuristic_in_text text : Forall (in_text text) (ranuki_heuristic_hits text).
Proof.
  unfold ranuki_heuristic_hits. cbv zeta.
  apply finditer_hits_in_text; [vm_compute; lia|]. intros. span_of_hit.
Qed.

Lemma tautology_in_text text : Forall (in_text text) (tautology_hits text).
Proof.
  unfold tautology_hits. cbv zeta.
  apply (words_in_text (fun pms : list Z * list Z * option (list Z) => fst (fst pms)));
    [vm_compute; reflexivity|]. intros. span_of_hit.
Qed.

Lemma double_particle_in_text text : Forall (in_text text) (double_particle_hits text).
Proof.
  unfold double_particle_hits.
  rewrite (flat_map_ext _ (fun p : list Z =>
     flat_map (fun m => [Hit (mo_start m) (mo_end m) (mo_group0 m) (u "連続する助詞の可能性")
                             None (Some WARN) (Some ADV_DOUBLE_PARTICLE)])
              (finditer (lit p) text)))
    by (intros; symmetry; apply flat_map_singleton).
  apply (words_in_text (fun p => p)); [vm_compute; reflexivity|]. intros. span_of_hit.
Qed.

Lemma emphatic_in_text cfg text : Forall (in_text text) (emphatic_adverb_hits cfg text).
Proof.
  unfold emphatic_adverb_hits. cbv zeta.
  destruct (finditer _EMPHATIC_ADV_RE text) as [|m0 l] eqn:E; span_of_hit.
  unfold in_text. simpl. apply (finditer_in_text _EMPHATIC_ADV_RE).
  - vm_compute. lia.
  - rewrite E. left. reflexivity.
Qed.

Lemma double_adverb_in_text text : Forall (in_text text) (double_adverb_hits text).
Proof.
  unfold double_adverb_hits. apply Forall_forall. intros h Hin.
  apply in_flat_map in Hin. destruct Hin as (pat & Hpat & Hh).
  assert (Hmin : (1 <= min_len pat)%nat).
  { assert (Hall : forallb (fun p => Nat.leb 1 (min_len p)) _DOUBLE_ADV_RE = true)
      by (vm_compute; reflexivity).
    rewrite forallb_forall in Hall. apply Nat.leb_le. auto. }
  rewrite flat_map_singleton in Hh.
  revert h Hh. apply Forall_forall. apply finditer_hits_in_text; [exact Hmin|].
  intros. span_of_hit.
Qed.

Lemma map_hits_in_text r text (g : match_obj -> hit) :
  (1 <= min_len r)%nat ->
  (forall m, h_start (g m) = mo_start m /\ h_end (g m) = mo_end m) ->
  Forall (in_text text) (map g (finditer r text)).
Proof.
  intros Hmin Hg. rewrite flat_map_singleton.
  apply finditer_hits_in_text; [exact Hmin|]. intros m. constructor; [apply Hg|constructor].
Qed.

Lemma colloquial_in_text text : Forall (in_text text) (colloquial_hits text).
Proof. apply map_hits_in_text; [vm_compute; lia | auto]. Qed.

Lemma punct_mixed_in_text text : Forall (in_text text) (punct_mixed_hits text).
Proof.
  unfold punct_mixed_hits.
  destruct (re_search _MIXED_FULL_HALF_PUNCT_RE text) as [m|] eqn:E; [|constructor].
  constructor; [|constructor]. unfold in_text. simpl.
  apply (finditer_in_text _MIXED_FULL_HALF_PUNCT_RE).
  - vm_compute. lia.
  - apply re_search_finditer. exact E.
Qed.

Lemma ellipsis_in_text text : Forall (in_text text) (ellipsis_hits text).
Proof. apply map_hits_in_text; [vm_compute; lia | auto]. Qed.

Lemma space_before_punct_in_text text :
  Forall (in_text text) (space_before_punct_hits text).
Proof. apply map_hits_in_text; [vm_compute; lia | auto]. Qed.

Lemma prolonged_sound_in_text text : Forall (in_text text) (prolonged_sound_hits text).
Proof. apply map_hits_in_text; [vm_compute; lia | auto]. Qed.

Lemma long_sentence_in_text cfg text :
  0 <= LONG_SENTENCE_LIMIT cfg -> Forall (in_text text) (long_sentence_hits cfg text).
Proof.
  intros Hlim. unfold long_sentence_hits. apply Forall_forall. intros h Hin.
  apply in_map_iff in Hin. destruct Hin as ([s e] & <- & Hin).
  destruct (detect_long_sentences_ok text (LONG_SENTENCE_LIMIT cfg)) as (H & _).
  rewrite Forall_forall in H. specialize (H _ Hin). unfold in_text. simpl in *. lia.
Qed.

Lemma len_concat_cons (ln : list Z) (t : list (list Z)) :
  len (concat (ln :: t)) = len ln + len (concat t).
Proof. simpl. apply len_app. Qed.

Lemma len_pos (s : list Z) : s <> [] -> 0 < len s.
Proof. destruct s; [congruence|]. intros _. unfold len. simpl. lia. Qed.

Lemma found_nonempty r (s : list Z) :
  (1 <= min_len r)%nat -> found r s = true -> s <> [].
Proof.
  intros Hmin H ->. unfold found, re_search in H. simpl in H.
  destruct (match_here r 0 None []) as [m|] eqn:E; [|discriminate].
  apply match_here_sound in E. destruct E as (post & E & _ & _ & Hl).
  symmetry in E. apply app_eq_nil in E. destruct E as (E & _). rewrite E in Hl.
  simpl in Hl. lia.
Qed.

Lemma sentence_final_walk_in_text unicode_digit cfg : forall lines offset in_code,
  0 <= offset ->
  Forall (fun h => offset <= h_start h /\ h_start h < h_end h
                   /\ h_end h <= offset + len (concat lines))
         (sentence_final_walk unicode_digit cfg lines offset in_code).
Proof.
  induction lines as [|ln t IH]; intros offset in_code H0; cbn [sentence_final_walk].
  - constructor.
  - rewrite len_concat_cons. pose proof (len_nonneg ln) as Hln.
    assert (Hnext : forall b,
      Forall (fun h => offset <= h_start h /\ h_start h < h_end h
                       /\ h_end h <= offset + (len ln + len (concat t)))
             (sentence_final_walk unicode_digit cfg t (offset + len ln) b)).
    { intros b. eapply Forall_impl; [|apply (IH (offset + len ln) b); lia].
      simpl. intros. lia. }
    destruct (is_fence_line ln); [apply Hnext|].
    apply Forall_app. split; [|apply Hnext].
    destruct (found (Cls kana_kanji) ln && negb in_code
              && line_needs_period unicode_digit ln) eqn:E; [|constructor].
    constructor; [|constructor]. simpl.
    apply andb_true_iff in E. destruct E as (E & _).
    apply andb_true_iff in E. destruct E as (E & _).
    apply found_nonempty in E; [|simpl; lia]. apply len_pos in E.
    pose proof (len_nonneg (concat t)). lia.
Qed.

Lemma sentence_final_in_text unicode_digit cfg text :
  Forall (in_text text) (sentence_final_hits unicode_digit cfg text).
Proof.
  unfold sentence_final_hits.
  pose proof (sentence_final_walk_in_text unicode_digit cfg (splitlines true text) 0 false
                (Z.le_refl 0)) as H.
  rewrite splitlines_concat in H. eapply Forall_impl; [|exact H].
  unfold in_text. simpl. intros. lia.
Qed.

Lemma katakana_in_text nfkc cfg text : Forall (in_text text) (katakana_hits nfkc cfg text).
Proof.
  unfold katakana_hits. destruct (KATAKANA_DENY cfg); [constructor|].
  apply finditer_hits_in_text; [vm_compute; lia|]. intros. cbv zeta. span_of_hit.
Qed.

Lemma end_particle_walk_in_text sev : forall lines pos,
  0 <= pos ->
  Forall (fun h => pos <= h_start h /\ h_start h < h_end h
                   /\ h_end h <= pos + len (concat lines))
         (end_particle_walk sev lines pos).
Proof.
  induction lines as [|ln t IH]; intros pos H0; cbn [end_particle_walk].
  - constructor.
  - rewrite len_concat_cons. pose proof (len_nonneg ln) as Hln.
    apply Forall_app. split.
    + destruct (found end_particle_pat ln) eqn:E; [|constructor].
      constructor; [|constructor]. simpl.
      apply found_nonempty in E; [|vm_compute; lia]. apply len_pos in E.
      pose proof (len_nonneg (concat t)). lia.
    + eapply Forall_impl; [|apply (IH (pos + len ln)); lia]. simpl. intros. lia.
Qed.

Lemma end_particle_in_text cfg text : Forall (in_text text) (end_particle_hits cfg text).
Proof.
  unfold end_particle_hits. destruct (END_PARTICLE_POLICY cfg >? 0); [|constructor].
  pose proof (end_particle_walk_in_text
                (if END_PARTICLE_POLICY cfg =? 2 then ERROR else WARN)
                (splitlines true text) 0 (Z.le_refl 0)) as H.
  rewrite splitlines_concat in H. eapply Forall_impl; [|exact H].
  unfold in_text. simpl. intros. lia.
Qed.

Lemma Forall_app_intro {A} (P : A -> Prop) (l1 l2 : list A) :
  Forall P l1 -> Forall P l2 -> Forall P (l1 ++ l2).
Proof. intros. apply Forall_app. split; assumption. Qed.

(** Extra X7.  Every hit of [run_advanced] points at a non-empty stretch of the
    text it was given: its offsets are in range and its start is
    before its end.  The long-sentence limit is not negative, as
    [configure_advanced] keeps it. *)
Theorem run_advanced_hits_in_text (unicode_digit : Z -> bool) (nfkc : list Z -> list Z)
  (cfg : adv_config) (text : list Z) :
  0 <= LONG_SENTENCE_LIMIT cfg ->
  Forall (fun h => 0 <= h_start h /\ h_start h < h_end h /\ h_end h <= len text)
         (run_advanced unicode_digit nfkc cfg text).
Proof.
  intros Hlim. change (Forall (in_text text) (run_advanced unicode_digit nfkc cfg text)).
  unfold run_advanced.
  apply Forall_app_intro; [apply ranuki_special_in_text|].
  apply Forall_app_intro; [apply ranuki_heuristic_in_text|].
  apply Forall_app_intro; [apply tautology_in_text|].
  apply Forall_app_intro; [apply double_particle_in_text|].
  apply Forall_app_intro; [apply emphatic_in_text|].
  apply Forall_app_intro; [apply double_adverb_in_text|].
  apply Forall_app_intro; [apply colloquial_in_text|].
  apply Forall_app_intro; [apply punct_mixed_in_text|].
  apply Forall_app_intro; [apply ellipsis_in_text|].
  apply Forall_app_intro; [apply space_before_punct_in_text|].
  apply Forall_app_intro; [apply prolonged_sound_in_text|].
  apply Forall_app_intro; [apply long_sentence_in_text; exact Hlim|].
  apply Forall_app_intro; [apply sentence_final_in_text|].
  apply Forall_app_intro; [apply katakana_in_text|].
  apply end_particle_in_text.
Qed.

Lemma run_advanced_hits_in_text_witness :
  Forall (fun h => 0 <= h_start h /\ h_start h < h_end h
                   /\ h_end h <= len (u "一番最初に見れるとても非常に"))
         (run_advanced (fun _ => false) (fun s => s) default_config
                       (u "一番最初に見れるとても非常に")).
Proof.
  apply run_advanced_hits_in_text. vm_compute. discriminate.
Defined.

Example run_advanced_example :
  map (fun h => (h_start h, h_end h, h_rule_id h))
      (run_advanced (fun _ => false) (fun s => s) default_config
                    (u "一番最初に見れるとても非常に"))
  = [ (5, 8, Some ADV_RANUKI); (0, 4, Some ADV_TAUTOLOGY);
      (8, 11, Some ADV_EMPHATIC_ADVERB_MANY);
      (0, 14, Some ADV_SENTENCE_FINAL_PUNCT) ].
Proof. vm_compute. reflexivity. Qed.

(** ** fixer.py: the safety predicate, the flags, and edits that change nothing *)

(** Searching for one code point of a class is [any]. *)
Lemma search_from_cls p : forall s pos prev,
  (if search_from (Cls p) pos prev s is Some _ then true else false) = existsb p s.
Proof.
  induction s as [|c t IH]; intros pos prev; simpl.
  - reflexivity.
  - unfold match_here. cbn [rmatch m_rest]. destruct (p c); simpl; [reflexivity|].
    apply IH.
Qed.

Lemma found_cls p s : found (Cls p) s = existsb p s.
Proof. unfold found, re_search. apply search_from_cls. Qed.

Lemma existsb_false_Forall {A} (p : A -> bool) (l : list A) :
  existsb p l = false <-> Forall (fun x => p x = false) l.
Proof.
  induction l as [|a l IH]; simpl.
  - split; [constructor|reflexivity].
  - rewrite orb_false_iff, IH. split.
    + intros [? ?]. constructor; assumption.
    + intros H. inversion H; subst. auto.
Qed.

Lemma quotient_ge_1_2 (a b : Z) :
  0 < b -> Qle_bool (1 # 2) (quotient a b) = true <-> b <= 2 * a.
Proof.
  intros Hb. rewrite Qle_bool_iff. unfold quotient, Qle. simpl.
  rewrite Z2Pos.id by lia. lia.
Qed.

(** The share of Japanese code points is at least one half, and below
    three tenths, in integers. *)
Definition mostly_japanese (s : list Z) : Prop :=
  s <> [] /\ len s <= 2 * count_chars _is_japanese_char s.
Definition hardly_japanese (s : list Z) : Prop :=
  10 * count_chars _is_japanese_char s < 3 * len s \/ s = [].

Lemma jp_ratio_ge_half s : Qle_bool (1 # 2) (_jp_ratio s) = true <-> mostly_japanese s.
Proof.
  unfold mostly_japanese, _jp_ratio. destruct s as [|c t].
  - split; [discriminate|]. intros [H _]. congruence.
  - rewrite quotient_ge_1_2.
    + assert (0 < len (c :: t)) by (unfold len; simpl; lia).
      rewrite Z.max_r by lia. split; [intros; split; [discriminate|assumption]|tauto].
    + lia.
Qed.

Lemma jp_ratio_lt_3_10 s : Qlt_bool (_jp_ratio s) (3 # 10) = true <-> hardly_japanese s.
Proof.
  unfold hardly_japanese, _jp_ratio. destruct s as [|c t].
  - split; [auto|reflexivity].
  - assert (0 < len (c :: t)) by (unfold len; simpl; lia).
    rewrite Z.max_r by lia. rewrite quotient_lt_3_10 by lia.
    split; [auto|]. intros [?|?]; [assumption|discriminate].
Qed.

(** Extra X8.  [_lt_suggestion_is_safe] accepts a proposal exactly when its
    length differs by at most three from the original, it holds no
    ASCII letter and no control character, and it is not the case that
    the original is at least half Japanese while the proposal is less
    than three tenths Japanese. *)
Theorem lt_suggestion_is_safe_iff (orig sug : list Z) :
  _lt_suggestion_is_safe orig sug = true <->
  Z.abs (len orig - len sug) <= 3
  /\ Forall (fun c => ascii_alpha c = false) sug
  /\ ~ (mostly_japanese orig /\ hardly_japanese sug)
  /\ Forall (fun c => 32 <= c) sug.
Proof.
  unfold _lt_suggestion_is_safe. rewrite found_cls.
  destruct (Z.abs (len orig - len sug) >? 3) eqn:E1.
  { apply Z.gtb_lt in E1. split; [discriminate|]. intros (? & _). lia. }
  assert (H1 : Z.abs (len orig - len sug) <= 3).
  { destruct (Z.gtb_spec (Z.abs (len orig - len sug)) 3); [discriminate|assumption]. }
  destruct (existsb ascii_alpha sug) eqn:E2.
  { split; [discriminate|]. intros (_ & H & _).
    apply existsb_false_Forall in H. congruence. }
  apply existsb_false_Forall in E2.
  destruct (Qle_bool (1 # 2) (_jp_ratio orig) && Qlt_bool (_jp_ratio sug) (3 # 10)) eqn:E3.
  { apply andb_true_iff in E3. destruct E3 as (Ea & Eb).
    apply jp_ratio_ge_half in Ea. apply jp_ratio_lt_3_10 in Eb.
    split; [discriminate|]. intros (_ & _ & H & _). tauto. }
  assert (H3 : ~ (mostly_japanese orig /\ hardly_japanese sug)).
  { intros (Ha & Hb). apply jp_ratio_ge_half in Ha. apply jp_ratio_lt_3_10 in Hb.
    rewrite Ha, Hb in E3. discriminate. }
  destruct (existsb (fun c => c <? 32) sug) eqn:E4.
  { split; [discriminate|]. intros (_ & _ & _ & H).
    apply existsb_exists in E4. destruct E4 as (c & Hc & Hlt).
    rewrite Forall_forall in H. specialize (H c Hc). apply Z.ltb_lt in Hlt. lia. }
  split; [|reflexivity]. intros _. repeat split; auto.
  apply existsb_false_Forall in E4. eapply Forall_impl; [|exact E4].
  simpl. intros c Hc. apply Z.ltb_ge in Hc. exact Hc.
Qed.

Example lt_suggestion_is_safe_examples :
  _lt_suggestion_is_safe (u "見れる") (u "見られる") = true
  /\ _lt_suggestion_is_safe (u "見れる") (u "can see") = false
  /\ _lt_suggestion_is_safe (u "見れる") (u "123") = false
  /\ _lt_suggestion_is_safe (u "abc") (u "123") = true.
Proof. vm_compute. auto. Qed.

(** *** The [use_lt] flag *)

Lemma lt_rule_not_nlp (rid name : list Z) :
  starts_with rid (u "LT_") = true ->
  starts_with name (u "NLP_") = true ->
  rid_is rid name = false.
Proof.
  intros H1 H2. unfold rid_is, str_eqb.
  destruct (list_eq_dec Z.eq_dec rid name) as [->|]; [|reflexivity].
  destruct name as [|c t]; [discriminate|].
  change (u "LT_") with [76; 84; 95] in H1. change (u "NLP_") with [78; 76; 80; 95] in H2.
  cbn [starts_with] in H1, H2.
  apply andb_true_iff in H1. destruct H1 as (H1 & _).
  apply andb_true_iff in H2. destruct H2 as (H2 & _).
  apply Z.eqb_eq in H1, H2. lia.
Qed.

Ltac same_branch :=
  repeat match goal with
         | |- (if ?b then _ else _) = (if ?b then _ else _) =>
           destruct b; [reflexivity|]
         | |- match ?x with Some _ => _ | None => _ end
              = match ?x with Some _ => _ | None => _ end =>
           destruct x; [reflexivity|]
         end.

Lemma compute_suggestion_use_lt nfkc issue text aggressive use_nlp :
  _compute_suggestion nfkc issue text aggressive true use_nlp
  = _compute_suggestion nfkc issue text aggressive false use_nlp.
Proof.
  unfold _compute_suggestion.
  destruct (truthy (i_suggestion issue)) eqn:Et; [reflexivity|].
  cbv zeta. same_branch.
  rewrite andb_true_r, andb_false_r.
  destruct (starts_with (match i_rule_id issue with Some r => r | None => [] end) (u "LT_"))
    eqn:Elt; [|reflexivity].
  rewrite (lt_rule_not_nlp _ (u "NLP_NO_CHAIN") Elt eq_refl).
  rewrite (lt_rule_not_nlp _ (u "NLP_PARTICLE_RUN") Elt eq_refl).
  simpl andb. cbv iota.
  destruct (i_suggestion issue) as [[|c t]|]; try reflexivity. discriminate.
Qed.

(** Extra X9.  The [use_lt] argument of [apply_fixes] changes nothing: with
    and without it the same text is returned, for all issues. *)
Theorem apply_fixes_ignores_use_lt (unicode_word : Z -> bool) (nfkc : list Z -> list Z)
  (text : list Z) (issues : list Issue) (aggressive context use_nlp : bool) :
  apply_fixes unicode_word nfkc text issues aggressive context true use_nlp
  = apply_fixes unicode_word nfkc text issues aggressive context false use_nlp.
Proof.
  unfold apply_fixes. f_equal. f_equal.
  induction issues as [|i t IH]; [reflexivity|].
  cbn [survivors]. unfold resolve. rewrite compute_suggestion_use_lt, IH. reflexivity.
Qed.

(** *** The context filter comes first *)

(** Extra X10.  [apply_fixes] with the context filter on is [apply_fixes]
    without it on the issues the filter allows. *)
Theorem apply_fixes_context_prefilter (unicode_word : Z -> bool) (nfkc : list Z -> list Z)
  (text : list Z) (issues : list Issue) (aggressive use_lt use_nlp : bool) :
  apply_fixes unicode_word nfkc text issues aggressive true use_lt use_nlp
  = apply_fixes unicode_word nfkc text
      (List.filter (fun i => _context_allows unicode_word i text) issues)
      aggressive false use_lt use_nlp.
Proof.
  unfold apply_fixes. f_equal. f_equal.
  induction issues as [|i t IH]; [reflexivity|].
  cbn [survivors List.filter]. unfold resolve at 1.
  destruct (_context_allows unicode_word i text); cbn [negb andb].
  - cbn [survivors]. unfold resolve. cbn [andb].
    destruct (_compute_suggestion nfkc i text aggressive use_lt use_nlp);
      rewrite IH; reflexivity.
  - exact IH.
Qed.

(** *** Edits that change nothing *)

Lemma assemble_ext text (f g : Issue -> list Z) : forall l cur,
  Forall (fun i => f i = g i) l -> assemble text f l cur = assemble text g l cur.
Proof.
  induction l as [|i t IH]; intros cur H; simpl; [reflexivity|].
  inversion H; subst. rewrite IH by assumption. congruence.
Qed.

Lemma survivors_resolved unicode_word nfkc text ag cx ul un i' issues :
  In i' (survivors unicode_word nfkc text ag cx ul un issues) ->
  exists i sug, In i issues
    /\ _compute_suggestion nfkc i text ag ul un = Some sug
    /\ i' = set_suggestion i sug.
Proof.
  intros H. apply survivors_In in H. destruct H as (i & Hin & Hr).
  unfold resolve in Hr. exists i.
  destruct (cx && negb (_context_allows unicode_word i text)); [discriminate|].
  destruct (_compute_suggestion nfkc i text ag ul un) as [sug|]; [|discriminate].
  inversion Hr; subst. eauto.
Qed.

(** Extra X11.  [apply_fixes] returns the text as it is when every replacement
    it computes is the text of the issue's span, or is empty: an empty
    replacement stands for the span's own text ([i.suggestion or
    text[i.start:i.end]]), so no edit of [apply_fixes] deletes a span. *)
Theorem apply_fixes_empty_replacement_keeps_text
  (unicode_word : Z -> bool) (nfkc : list Z -> list Z)
  (text : list Z) (issues : list Issue) (aggressive context use_lt use_nlp : bool) :
  Forall (fun i => i_start i <= i_end i) issues ->
  Forall (fun i => forall sug,
            _compute_suggestion nfkc i text aggressive use_lt use_nlp = Some sug ->
            sug = [] \/ sug = py_slice text (i_start i) (i_end i)) issues ->
  apply_fixes unicode_word nfkc text issues aggressive context use_lt use_nlp = text.
Proof.
  intros Hspan Hsug. unfold apply_fixes. rewrite splice_assemble.
  set (l := sort_issues (survivors unicode_word nfkc text aggressive context use_lt use_nlp
                                   issues)).
  assert (Hl : forall i', In i' (applied l 0) ->
             i_start i' <= i_end i' /\ replacement text i' = original text i').
  { intros i' Hin. apply applied_incl in Hin. unfold l in Hin.
    apply (Permutation_in _ (sort_issues_perm _)) in Hin.
    apply survivors_resolved in Hin. destruct Hin as (i & sug & Hi & Hc & ->).
    rewrite Forall_forall in Hspan, Hsug. specialize (Hspan i Hi).
    specialize (Hsug i Hi sug Hc). split; [exact Hspan|].
    unfold replacement, original. simpl.
    destruct Hsug as [->| ->]; [reflexivity|].
    destruct (py_slice text (i_start i) (i_end i)); reflexivity. }
  rewrite (assemble_ext text (replacement text) (original text)).
  - rewrite assemble_original.
    + apply slice_from_0.
    + lia.
    + apply applied_chained.
    + apply Forall_forall. intros i' Hin. apply Hl. exact Hin.
  - apply Forall_forall. intros i' Hin. apply Hl. exact Hin.
Qed.

(** The space before a full stop is reported with an empty suggestion
    and resolved to the empty string; the text comes back unchanged. *)
Definition space_issue : Issue :=
  MkIssue None 3 4 [32] (u "句読点直前のスペースを削除") (Some []) WARN
          (Some ADV_SPACE_BEFORE_PUNCT).

Lemma apply_fixes_empty_replacement_keeps_text_witness :
  apply_fixes (fun _ => false) (fun s => s) (u "これは 。") [space_issue]
              true false false false
  = u "これは 。".
Proof.
  apply apply_fixes_empty_replacement_keeps_text.
  - repeat constructor. vm_compute. discriminate.
  - constructor; [|constructor]. intros sug H. vm_compute in H.
    inversion H. left. reflexivity.
Defined.

(** *** The small fixers *)

Lemma contains_In (s : list Z) (c : Z) : contains s [c] = true -> In c s.
Proof.
  induction s as [|d t IH]; simpl.
  - discriminate.
  - intros H. apply orb_true_iff in H. destruct H as [H|H].
    + rewrite andb_true_r in H. apply Z.eqb_eq in H. left. congruence.
    + right. auto.
Qed.

(** Extra X12.  [_fix_repeat_char] turns a non-empty run into one code point,
    and that code point occurs in the run; the empty string stays. *)
Theorem fix_repeat_char_single (s : list Z) :
  _fix_repeat_char [] = []
  /\ (s <> [] -> exists c, _fix_repeat_char s = [c] /\ In c s).
Proof.
  split; [reflexivity|]. intros Hs. unfold _fix_repeat_char.
  change (u "、") with [0x3001]. change (u "。") with [0x3002].
  change (u "！") with [0xFF01]. change (u "？") with [0xFF1F].
  change (u "!") with [33]. change (u "?") with [63].
  destruct (contains s [0x3001]) eqn:E1; [exists 0x3001; split; [reflexivity|apply contains_In; exact E1]|].
  destruct (contains s [0x3002]) eqn:E2; [exists 0x3002; split; [reflexivity|apply contains_In; exact E2]|].
  destruct s as [|c t]; [congruence|].
  assert (Hrun : forall p, exists d,
            _compress_run (c :: t) (Some [p]) = [d] /\ In d (c :: t)).
  { intros p. unfold _compress_run. cbn [truthy andb].
    destruct (contains (c :: t) [p]) eqn:Ep.
    - exists p. split; [reflexivity|apply contains_In; exact Ep].
    - exists c. split; [reflexivity|left; reflexivity]. }
  destruct (contains (c :: t) [0xFF01] || contains (c :: t) [33]); [apply Hrun|].
  destruct (contains (c :: t) [0xFF1F] || contains (c :: t) [63]); [apply Hrun|].
  exists c. split; [reflexivity|left; reflexivity].
Qed.

Lemma replace_char_map (s : list Z) (c d : Z) :
  replace_char s c [d] = map (fun x => if x =? c then d else x) s.
Proof.
  unfold replace_char. induction s as [|x t IH]; simpl; [reflexivity|].
  rewrite IH. destruct (x =? c); reflexivity.
Qed.

(** Extra X13.  [_fix_punct_mixed] turns each full-width full stop into 。 and
    each full-width comma into 、 and changes nothing else: it keeps the
    length, leaves neither of the two behind, and changes nothing when
    applied again. *)
Theorem fix_punct_mixed_normalises (s : list Z) :
  _fix_punct_mixed s
  = map (fun c => if c =? 0xFF0E then 0x3002 else if c =? 0xFF0C then 0x3001 else c) s
  /\ len (_fix_punct_mixed s) = len s
  /\ ~ In 0xFF0E (_fix_punct_mixed s) /\ ~ In 0xFF0C (_fix_punct_mixed s)
  /\ _fix_punct_mixed (_fix_punct_mixed s) = _fix_punct_mixed s.
Proof.
  assert (Hmap : forall t, _fix_punct_mixed t
    = map (fun c => if c =? 0xFF0E then 0x3002 else if c =? 0xFF0C then 0x3001 else c) t).
  { intros t. unfold _fix_punct_mixed.
    change (u "。") with [0x3002]. change (u "、") with [0x3001].
    rewrite !replace_char_map, map_map. apply map_ext. intros c.
    destruct (c =? 0xFF0E) eqn:E; [reflexivity|]. reflexivity. }
  split; [apply Hmap|]. split; [|split; [|split]].
  - rewrite Hmap. unfold len. rewrite length_map. reflexivity.
  - rewrite Hmap. intros H. apply in_map_iff in H. destruct H as (c & Hc & _).
    destruct (c =? 0xFF0E) eqn:E; [discriminate|].
    destruct (c =? 0xFF0C) eqn:E2; [discriminate|]. apply Z.eqb_neq in E. congruence.
  - rewrite Hmap. intros H. apply in_map_iff in H. destruct H as (c & Hc & _).
    destruct (c =? 0xFF0E) eqn:E; [discriminate|].
    destruct (c =? 0xFF0C) eqn:E2; [discriminate|]. apply Z.eqb_neq in E2. congruence.
  - rewrite !Hmap, map_map. apply map_ext. intros c.
    destruct (c =? 0xFF0E) eqn:E; [reflexivity|].
    destruct (c =? 0xFF0C) eqn:E2; [reflexivity|]. rewrite E, E2. reflexivity.
Qed.

(** ** advanced_rules.py: the ら抜き heuristic *)

Lemma one_of_In (l : list Z) (c : Z) : one_of l c = true -> In c l.
Proof.
  unfold one_of. intros H. apply existsb_exists in H. destruct H as (d & Hd & E).
  apply Z.eqb_eq in E. subst. exact Hd.
Qed.

Lemma last_char_Some (s : list Z) (c : Z) :
  last_char s = Some c -> exists h, s = h ++ [c].
Proof.
  unfold last_char. intros H. destruct (rev s) as [|d t] eqn:E; [discriminate|].
  simpl in H. inversion H; subst. exists (rev t).
  rewrite <- (rev_involutive s), E. reflexivity.
Qed.

Lemma ra_nuki_matches prev w post prev' caps :
  matches _RA_NUKI_RE (MState prev (w ++ post) []) (MState prev' post caps) ->
  exists head, w = head ++ u "れる" /\ caps = [(1%nat, head)].
Proof.
  intros H. unfold _RA_NUKI_RE in H. apply matches_seq in H.
  destruct H as (m1 & Hg & Hl). apply matches_group in Hg.
  destruct Hg as (m0 & Hp & ->).
  destruct (matches_split _ _ _ Hp) as (head & Eh).
  apply matches_caps in Hp; [|reflexivity].
  apply matches_lit in Hl. destruct Hl as (El & Hc).
  simpl in *. rewrite Eh, consumed_prefix in Hc. rewrite Hp in Hc.
  rewrite El in Eh. exists head. split; [|exact Hc].
  apply app_inv_tail with (l := post). rewrite Eh, <- app_assoc. reflexivity.
Qed.

(** Extra X14.  A hit of the ら抜き heuristic is a stretch of the text that ends
    in れる after a kana of the e-row, and it proposes that stretch
    with ら put before れる. *)
Theorem ranuki_heuristic_inserts_ra (text : list Z) :
  Forall (fun h => exists head prev,
            h_match h = head ++ [prev] ++ u "れる"
            /\ In prev _E_ROW
            /\ h_suggestion h = Some (head ++ [prev] ++ u "られる")
            /\ h_match h = py_slice text (h_start h) (h_end h))
         (ranuki_heuristic_hits text).
Proof.
  unfold ranuki_heuristic_hits. cbv zeta. apply Forall_forall. intros h Hin.
  apply in_flat_map in Hin. destruct Hin as (m & Hm & Hh).
  pose proof (spans_ok_In _ _ _ _ _ (finditer_ok _RA_NUKI_RE text) Hm) as (_ & _ & _ & Hsl).
  apply finditer_In_matches in Hm.
  destruct Hm as (pre & w & post & prev' & caps & Et & Hmt & ->).
  apply ra_nuki_matches in Hmt. destruct Hmt as (head & Ew & ->).
  cbn [mo_groups mo_start mo_end mo_group0 cap_lookup Nat.eqb] in Hh, Hsl.
  destruct (last_char head) as [prev|] eqn:El; [|destruct Hh].
  match type of Hh with In _ (if ?b then _ else _) => destruct b eqn:Ec end;
    [|destruct Hh].
  destruct Hh as [<-|[]]. cbn [h_match h_suggestion h_start h_end].
  apply andb_true_iff in Ec. destruct Ec as (Ec & _). apply one_of_In in Ec.
  apply last_char_Some in El. destruct El as (h0 & ->).
  exists h0, prev. split; [rewrite Ew, <- app_assoc; reflexivity|].
  split; [exact Ec|]. split; [rewrite <- app_assoc; reflexivity|]. exact Hsl.
Qed.

Example ranuki_heuristic_example :
  map (fun h => (h_start h, h_end h, h_suggestion h))
      (ranuki_heuristic_hits (u "朝は食べれる。`寝れる`"))
  = [(0, 6, Some (u "朝は食べられる"))].
Proof. vm_compute. reflexivity. Qed.

(** ** checker.py: more of [check_paths] *)

Section CheckPathsRuns.
  Variable patterns : list TypoPattern.
  Variable advanced_rules : list Z -> list hit.
  Variable style_rule : list Z -> option hit.
  Variables morph_on lt_on nlp_on spell_on : bool.
  Variable tokenizer : list Z -> list (Z * Z * option (list Z)).
  Variable grammar_checker : list Z -> list Z -> list hit.
  Variable semantic_analyzer : list Z -> list Z -> list hit.
  Variable spell_checker : list Z -> list (list Z) -> list hit.
  Variable iter_files : list string -> list string.
  Variable stat : string -> stat_result.
  Variable read_text : string -> result (option (list Z)).
  Variable cwd : string.
  Variable load_dict : list string -> result (list (list Z)).
  Variable completion_order : list (string * string) -> list (string * string).
  Variable path_join : string -> string -> string.
  Variable is_file : string -> bool.
  Variable path_read_text : string -> result string.
  Variable json_loads : string -> result loaded.

  Local Abbreviation CheckText :=
    (check_text patterns advanced_rules style_rule morph_on lt_on nlp_on spell_on
                tokenizer grammar_checker semantic_analyzer spell_checker).
  Local Abbreviation CheckFile :=
    (check_file patterns advanced_rules style_rule morph_on lt_on nlp_on spell_on
                tokenizer grammar_checker semantic_analyzer spell_checker read_text).
  Local Abbreviation ScanSerial :=
    (scan_serial patterns advanced_rules style_rule morph_on lt_on nlp_on spell_on
                 tokenizer grammar_checker semantic_analyzer spell_checker read_text).
  Local Abbreviation ScanParallel :=
    (scan_parallel patterns advanced_rules style_rule morph_on lt_on nlp_on spell_on
                   tokenizer grammar_checker semantic_analyzer spell_checker read_text).
  Local Abbreviation CheckPaths :=
    (check_paths patterns advanced_rules style_rule morph_on lt_on nlp_on spell_on
                 tokenizer grammar_checker semantic_analyzer spell_checker
                 iter_files stat read_text cwd load_dict completion_order
                 path_join is_file path_read_text json_loads).
  Local Abbreviation LoadCache :=
    (load_cache path_join is_file path_read_text json_loads cwd DEFAULT_CACHE).

(** The issues of a file, none when its scan raises. *)
Definition issues_of (o : check_opts) (key : string) : list Issue :=
  match CheckFile o key with Ok r => r | Raise => [] end.

Lemma scan_parallel_results o uc : forall l res c,
  fst (ScanParallel o uc l res c) = res ++ flat_map (fun kf => issues_of o (fst kf)) l.
Proof.
  induction l as [|[k fp] l IH]; intros res c; simpl.
  - rewrite app_nil_r. reflexivity.
  - rewrite IH. unfold issues_of. rewrite <- app_assoc. reflexivity.
Qed.




(** Extra X16.  When the cache holds the current fingerprint of every file,
    [check_paths] scans nothing and returns no issue: what an earlier
    run found in those files is not reported again; the cache is
    written back as it was read. *)
Theorem check_paths_unchanged_files_silent (o : check_opts) (jobs : Z)
  (dict_files : option (list string)) (paths : list string) (d : gmap string pyval) :
  (forall l, Permutation (completion_order l) l) ->
  LoadCache = Ok (Dict d) ->
  (forall f, In f (iter_files paths) -> d !! f = Some (PyStr (file_fingerprint stat f))) ->
  CheckPaths o jobs true dict_files paths = Ok ([], Some (Dict d)).
Proof.
  intros Hperm El Hd. unfold check_paths. rewrite El. cbn [bind].
  rewrite select_to_scan_dict. cbn [bind].
  rewrite filter_nil_all.
  2:{ intros [f fp] Hin. apply in_map_iff in Hin. destruct Hin as (f' & E & Hf).
      inversion E; subst. simpl. apply negb_false_iff, holds_spec. auto. }
  assert (Hnil : completion_order [] = []).
  { apply Permutation_nil. apply Permutation_sym. apply Hperm. }
  rewrite Hnil. destruct (jobs >? 1); reflexivity.
Qed.

(** Extra X17.  A cache file that parses, but not to a JSON object, makes
    [check_paths] raise as soon as there is a file to look up:
    [load_cache] hands the parsed value on and [cache.get] fails on it. *)
Theorem check_paths_cache_not_object (o : check_opts) (jobs : Z)
  (dict_files : option (list string)) (paths : list string) :
  LoadCache = Ok NotDict ->
  iter_files paths <> [] ->
  CheckPaths o jobs true dict_files paths = Raise.
Proof.
  intros El Hne. unfold check_paths. rewrite El. cbn [bind].
  destruct (iter_files paths) as [|f t]; [congruence|]. reflexivity.
Qed.

Lemma check_file_names_file o key r i :
  CheckFile o key = Ok r -> In i r -> i_file i = Some key.
Proof.
  unfold check_file. destruct (read_text key) as [[c|]|]; simpl; intros H Hin;
    inversion H; subst; [|destruct Hin].
  apply check_text_origin in Hin.
  destruct Hin as [(_ & h & _ & ->)|(sp & s2 & e2 & jp2 & dh & h & _ & _ & _ & -> & _)];
    reflexivity.
Qed.

Lemma issues_of_names_file o key i : In i (issues_of o key) -> i_file i = Some key.
Proof.
  unfold issues_of. destruct (CheckFile o key) as [r|] eqn:E; [|intros []].
  eapply check_file_names_file; eauto.
Qed.

Lemma scan_serial_names o uc : forall l res c res' c',
  ScanSerial o uc l res c = Ok (res', c') ->
  forall i, In i res' -> In i res \/ exists kf, In kf l /\ i_file i = Some (fst kf).
Proof.
  induction l as [|[k fp] l IH]; intros res c res' c' H i Hi; simpl in H.
  - inversion H; subst. auto.
  - destruct (CheckFile o k) as [r|] eqn:E; simpl in H; [|discriminate].
    destruct (IH _ _ _ _ H i Hi) as [Hin|(kf & Hkf & Hf)].
    + apply in_app_or in Hin. destruct Hin as [Hin|Hin]; [auto|].
      right. exists (k, fp). split; [left; reflexivity|].
      eapply check_file_names_file; eauto.
    + right. exists kf. split; [right; exact Hkf|exact Hf].
Qed.

(** Extra X18.  Every issue [check_paths] returns names, in its [file] field,
    one of the files [iter_files] lists for the batch. *)
Theorem check_paths_issues_name_files (o : check_opts) (jobs : Z) (use_cache : bool)
  (dict_files : option (list string)) (paths : list string)
  (res : list Issue) (saved : option loaded) :
  (forall l, Permutation (completion_order l) l) ->
  CheckPaths o jobs use_cache dict_files paths = Ok (res, saved) ->
  Forall (fun i => exists f, In f (iter_files paths) /\ i_file i = Some f) res.
Proof.
  intros Hperm H. unfold check_paths in H.
  destruct (if use_cache then LoadCache else Ok (Dict ∅)) as [cache|]; [|discriminate].
  cbn [bind] in H.
  destruct (select_to_scan stat use_cache cache (iter_files paths)) as [to_scan|] eqn:Es;
    [|discriminate].
  cbn [bind] in H.
  assert (Hsub : forall kf, In kf to_scan -> In (fst kf) (iter_files paths)).
  { clear H. revert to_scan Es. induction (iter_files paths) as [|f t IH];
      intros to_scan Es kf Hin; simpl in Es.
    - inversion Es; subst. destruct Hin.
    - destruct (if use_cache then cache_get_eq cache f (file_fingerprint stat f)
                else Ok false) as [skip|]; [|discriminate]. cbn [bind] in Es.
      destruct (select_to_scan stat use_cache cache t) as [rest|]; [|discriminate].
      cbn [bind] in Es. inversion Es; subst.
      destruct skip.
      + right. eapply IH; eauto.
      + destruct Hin as [<-|Hin]; [left; reflexivity|right; eapply IH; eauto]. }
  apply Forall_forall. intros i Hi.
  set (o' := with_dict_words o _) in H.
  destruct (jobs >? 1).
  - cbn [bind] in H. inversion H; subst res. rewrite scan_parallel_results in Hi.
    simpl in Hi. apply in_flat_map in Hi. destruct Hi as (kf & Hkf & Hi).
    exists (fst kf). split; [|apply (issues_of_names_file o'); exact Hi].
    apply Hsub. apply (Permutation_in _ (Hperm to_scan)). exact Hkf.
  - destruct (ScanSerial o' use_cache to_scan [] cache) as [[r c]|] eqn:E; [|discriminate].
    cbn [bind] in H. inversion H; subst r.
    destruct (scan_serial_names _ _ _ _ _ _ _ E i Hi) as [[]|(kf & Hkf & Hf)].
    exists (fst kf). auto.
Qed.

End CheckPathsRuns.

(** The small file system again, now with a cache file whose content
    parses to [cache]. *)
Definition demo_check_paths_on (cache : result loaded) (jobs : Z) (use_cache : bool)
  (paths : list string) : result (list Issue * option loaded) :=
  check_paths demo_patterns (fun _ => []) (fun _ => None) false false false false
              (fun _ => []) (fun _ _ => []) (fun _ _ => []) (fun _ _ => [])
              (fun paths => paths) demo_stat demo_read_text "."
              (fun _ => Ok []) (fun l => l)
              (fun root name => String.append root (String.append "/" name))
              (fun _ => true) (fun _ => Ok "cache") (fun _ => cache)
              demo_opts jobs use_cache None paths.

Definition demo_cache : gmap string pyval := <["good.py" := PyStr demo_fingerprint]> ∅.

Lemma check_paths_unchanged_files_silent_witness :
  demo_check_paths_on (Ok (Dict demo_cache)) 1 true ["good.py"]
  = Ok ([], Some (Dict demo_cache)).
Proof.
  apply check_paths_unchanged_files_silent.
  - intros l. apply Permutation_refl.
  - reflexivity.
  - intros f [<-|[]]. reflexivity.
Defined.

Lemma check_paths_cache_not_object_witness :
  demo_check_paths_on (Ok NotDict) 1 true ["good.py"] = Raise.
Proof.
  apply check_paths_cache_not_object.
  - reflexivity.
  - discriminate.
Defined.

Lemma check_paths_issues_name_files_witness :
  Forall (fun i => exists f, In f ["good.py"; "also.py"] /\ i_file i = Some f)
         [demo_issue;
          MkIssue (Some "also.py") 7 11 (u "有り難う") (u "旧表記 '有り難う' -> 'ありがとう'")
                  (Some (u "ありがとう")) INFO None].
Proof.
  apply (check_paths_issues_name_files
           demo_patterns (fun _ => []) (fun _ => None) false false false false
           (fun _ => []) (fun _ _ => []) (fun _ _ => []) (fun _ _ => [])
           (fun paths => paths) demo_stat demo_read_text "."
           (fun _ => Ok []) (fun l => l)
           (fun root name => String.append root (String.append "/" name))
           (fun _ => true) (fun _ => Ok "cache") (fun _ => Ok (Dict demo_cache))
           demo_opts 1 false None ["good.py"; "also.py"] _ None).
  - intros l. apply Permutation_refl.
  - vm_compute. reflexivity.
Defined.

Example check_paths_without_cache_example :
  demo_check_paths_on (Ok (Dict demo_cache)) 1 false ["good.py"] = Ok ([demo_issue], None)
  /\ demo_check_paths_on (Ok (Dict demo_cache)) 4 false ["huge.bin"; "good.py"]
     = Ok ([demo_issue], None).
Proof. split; vm_compute; reflexivity. Qed.

(** ** typo_rules.py: the built-in rules *)

Lemma builtin_min_len :
  forallb (fun p => Nat.leb 1 (min_len (tp_pattern p))) BUILTIN_PATTERNS = true.
Proof. vm_compute. reflexivity. Qed.

Lemma tp_finditer_in_text p text :
  (1 <= min_len (tp_pattern p))%nat ->
  Forall (fun h => in_text text h /\ h_match h = py_slice text (h_start h) (h_end h))
         (tp_finditer p text).
Proof.
  intros Hmin. unfold tp_finditer. apply Forall_forall. intros h Hin.
  apply in_map_iff in Hin. destruct Hin as (m & <- & Hm).
  destruct (spans_ok_In _ _ _ _ _ (finditer_ok (tp_pattern p) text) Hm) as (? & ? & ? & ?).
  unfold in_text. simpl. repeat split; auto; lia.
Qed.

(** Extra X19.  Every hit of the built-in rules points at a non-empty stretch of
    the text and carries that stretch as its match; none of the
    built-in patterns can match the empty string. *)
Theorem builtin_rules_hits_in_text (text : list Z) :
  Forall (fun h => 0 <= h_start h /\ h_start h < h_end h /\ h_end h <= len text
                   /\ h_match h = py_slice text (h_start h) (h_end h))
         (run_rules BUILTIN_PATTERNS text).
Proof.
  unfold run_rules. apply Forall_forall. intros h Hin.
  apply in_flat_map in Hin. destruct Hin as (p & Hp & Hh).
  pose proof builtin_min_len as Hall. rewrite forallb_forall in Hall.
  specialize (Hall p Hp). apply Nat.leb_le in Hall.
  pose proof (tp_finditer_in_text p text Hall) as H. rewrite Forall_forall in H.
  destruct (H h Hh) as ((? & ? & ?) & ?). auto.
Qed.

Example builtin_rules_example :
  map (fun h => (h_start h, h_end h, h_suggestion h))
      (run_rules BUILTIN_PATTERNS (u "御確認下さい。。有り難う"))
  = [ (8, 12, Some (u "ありがとう")); (3, 6, Some (u "ください"));
      (6, 8, None); (0, 3, Some (u "ご確認")) ].
Proof. vm_compute. reflexivity. Qed.


(** *** The registry *)

(** Extra X21.  Whatever is added to the registry, and however often the
    patterns are asked for, the registry holds the built-in rules
    first, then the bundled variants, then the added patterns in the
    order they were added; and [run_rules] reports the hits in that
    order. *)
Theorem registry_keeps_builtin_first (variants : list TypoPattern)
  (added : list (list TypoPattern)) (text : list Z) :
  let st := fold_left (fun st ps => snd (get_patterns variants (add_patterns variants st ps)))
                      added None in
  fst (get_patterns variants st) = BUILTIN_PATTERNS ++ variants ++ concat added
  /\ run_rules (fst (get_patterns variants st)) text
     = run_rules BUILTIN_PATTERNS text ++ run_rules variants text
       ++ flat_map (fun ps => run_rules ps text) added.
Proof.
  intros st.
  assert (H : forall added st0,
            loaded_patterns variants
              (fold_left (fun st ps => snd (get_patterns variants (add_patterns variants st ps)))
                         added st0)
            = loaded_patterns variants st0 ++ concat added).
  { clear. induction added as [|ps t IH]; intros st0; simpl.
    - rewrite app_nil_r. reflexivity.
    - rewrite IH. unfold get_patterns, add_patterns. cbn [snd loaded_patterns].
      rewrite <- app_assoc. reflexivity. }
  assert (E : fst (get_patterns variants st) = BUILTIN_PATTERNS ++ variants ++ concat added).
  { unfold get_patterns. cbn [fst]. unfold st. rewrite H. cbn [loaded_patterns].
    unfold _simple_patterns. rewrite <- app_assoc. reflexivity. }
  split; [exact E|]. rewrite E. unfold run_rules.
  rewrite !flat_map_app. f_equal. f_equal.
  clear. induction added as [|ps t IH]; simpl; [reflexivity|].
  rewrite flat_map_app, IH. reflexivity.
Qed.

(** ** file_scanner.py: [is_probably_text] *)

Lemma count_chars_app p (a b : list Z) :
  count_chars p (a ++ b) = count_chars p a + count_chars p b.
Proof. unfold count_chars. rewrite filter_app, length_app. lia. Qed.

(** Extra X22.  With the threshold of the source, data counts as text exactly
    when it is empty or fewer than three tenths of its bytes are
    control bytes; so data without control bytes is text, and so is
    text followed by text. *)
Theorem is_probably_text_iff (data more : list Z) :
  (is_probably_text data (3 # 10) = true
   <-> data = [] \/ 10 * count_chars BINARY_BYTES data < 3 * len data)
  /\ (Forall (fun b => BINARY_BYTES b = false) data -> is_probably_text data (3 # 10) = true)
  /\ (is_probably_text data (3 # 10) = true -> is_probably_text more (3 # 10) = true ->
      is_probably_text (data ++ more) (3 # 10) = true).
Proof.
  assert (Hiff : forall d, is_probably_text d (3 # 10) = true
                 <-> d = [] \/ 10 * count_chars BINARY_BYTES d < 3 * len d).
  { intros d. unfold is_probably_text. destruct d as [|b t].
    - split; auto.
    - cbv zeta. rewrite quotient_lt_3_10 by (unfold len; simpl; lia).
      split; [auto|]. intros [?|?]; [discriminate|assumption]. }
  split; [apply Hiff|]. split.
  - intros Hclean. apply Hiff. destruct data as [|b t]; [left; reflexivity|right].
    assert (Hz : count_chars BINARY_BYTES (b :: t) = 0).
    { unfold count_chars. rewrite filter_nil_all; [reflexivity|].
      apply Forall_forall. exact Hclean. }
    rewrite Hz. unfold len. simpl. lia.
  - intros Ha Hb. apply Hiff in Ha, Hb. apply Hiff.
    destruct Ha as [->|Ha]; [simpl; exact Hb|].
    destruct Hb as [->|Hb]; [rewrite app_nil_r; right; exact Ha|].
    right. rewrite count_chars_app, len_app. lia.
Qed.

Example is_probably_text_examples :
  is_probably_text [] (3 # 10) = true
  /\ is_probably_text [0; 0; 0; 65; 65; 65; 65; 65; 65; 65] (3 # 10) = false
  /\ is_probably_text [0; 0; 65; 65; 65; 65; 65; 65; 65; 65] (3 # 10) = true
  /\ is_probably_text [0xE6; 0x97; 0xA5; 10] (3 # 10) = true.
Proof. vm_compute. auto. Qed.

(** ** morph.py: tokens that spell the text *)

Lemma starts_with_prefix : forall (w rest : list Z), starts_with (w ++ rest) w = true.
Proof.
  induction w as [|c w IH]; intros rest; simpl; [reflexivity|].
  rewrite Z.eqb_refl, IH. reflexivity.
Qed.

Lemma find_from_prefix (w rest : list Z) (pos : Z) : find_from w pos (w ++ rest) = pos.
Proof.
  destruct (w ++ rest) as [|c t] eqn:E; simpl; rewrite <- E, starts_with_prefix; reflexivity.
Qed.

Lemma str_find_from_here (pre w rest : list Z) :
  str_find_from (pre ++ w ++ rest) w (len pre) = len pre.
Proof.
  unfold str_find_from.
  pose proof (len_nonneg pre). pose proof (len_nonneg (w ++ rest)).
  replace (len (pre ++ w ++ rest) <? len pre) with false
    by (symmetry; apply Z.ltb_ge; rewrite len_app; lia).
  unfold str_find_at. rewrite slice_from_app, find_from_prefix. simpl.
  rewrite clamp_index_id by (rewrite len_app; lia). lia.
Qed.

(** The offsets of tokens laid end to end from [idx]. *)
Fixpoint laid_out (tokens : list (list Z * option (list Z))) (idx : Z)
  : list (Z * Z * list Z * option (list Z)) :=
  match tokens with
  | [] => []
  | (surf, pos_tag) :: t =>
    (idx, idx + len surf, surf, pos_tag) :: laid_out t (idx + len surf)
  end.

Lemma token_spans_laid_out : forall tokens pre,
  token_spans (pre ++ concat (map fst tokens)) tokens (len pre) = laid_out tokens (len pre)
  /\ Forall (fun sp : Z * Z * list Z * option (list Z) =>
               let '(s, e, surf, _) := sp in
               py_slice (pre ++ concat (map fst tokens)) s e = surf)
            (laid_out tokens (len pre)).
Proof.
  induction tokens as [|[surf tag] t IH]; intros pre; simpl.
  - split; [reflexivity|constructor].
  - rewrite str_find_from_here.
    pose proof (len_nonneg pre).
    replace (len pre <? 0) with false by (symmetry; apply Z.ltb_ge; lia).
    destruct (IH (pre ++ surf)) as (IH1 & IH2).
    rewrite <- app_assoc, len_app in IH1, IH2. split.
    + rewrite IH1. reflexivity.
    + constructor; [apply py_slice_app|exact IH2].
Qed.

(** Extra X23.  When the surfaces the tokenizer yields spell the text, the
    spans of [tokenize_with_spans] lie end to end from 0 to the end of
    the text, and each carries its surface: [text[start:end] ==
    surface]. *)
Theorem tokenize_with_spans_tiles
  (tokens : list Z -> list (list Z * option (list Z))) (text : list Z) :
  concat (map fst (tokens text)) = text ->
  tokenize_with_spans (Some tokens) text = laid_out (tokens text) 0
  /\ Forall (fun sp : Z * Z * list Z * option (list Z) =>
               let '(s, e, surf, _) := sp in py_slice text s e = surf)
            (tokenize_with_spans (Some tokens) text).
Proof.
  intros Hspell. unfold tokenize_with_spans.
  destruct (token_spans_laid_out (tokens text) []) as (H1 & H2).
  simpl app in H1, H2. rewrite Hspell in H1, H2. change (len []) with 0 in H1, H2.
  rewrite H1. split; [reflexivity|exact H2].
Qed.

Definition demo_tokens (text : list Z) : list (list Z * option (list Z)) :=
  [(u "これ", Some (u "代名詞")); (u "は", Some (u "助詞")); (u "本", Some (u "名詞"));
   (u "です", Some (u "助動詞"))].

Lemma tokenize_with_spans_tiles_witness :
  tokenize_with_spans (Some demo_tokens) (u "これは本です")
  = laid_out (demo_tokens (u "これは本です")) 0
  /\ Forall (fun sp : Z * Z * list Z * option (list Z) =>
               let '(s, e, surf, _) := sp in py_slice (u "これは本です") s e = surf)
            (tokenize_with_spans (Some demo_tokens) (u "これは本です")).
Proof. apply tokenize_with_spans_tiles. vm_compute. reflexivity. Defined.

(** A surface that is not found where the last token ended keeps the
    cursor where it is: the span then says nothing about the text. *)
Example tokenize_with_spans_drift :
  tokenize_with_spans (Some (fun _ => [(u "ＡＢ", None); (u "です", None)])) (u "ABです")
  = [(0, 2, u "ＡＢ", None); (2, 4, u "です", None)]
  /\ tokenize_with_spans (Some (fun _ => [(u "です", None); (u "AB", None)])) (u "ABです")
     = [(2, 4, u "です", None); (4, 6, u "AB", None)].
Proof. vm_compute. auto. Qed.

(** ** cli.py: [_offset_to_linecol] *)

Lemma count_from_char (c : Z) : forall s,
  count_from [c] 0 s = count_chars (Z.eqb c) s.
Proof.
  unfold count_chars. induction s as [|d t IH]; [reflexivity|].
  cbn [count_from starts_with length List.filter Nat.sub].
  rewrite andb_true_r. destruct (c =? d); rewrite IH; cbn [length]; lia.
Qed.

Lemma rfind_from_spec (c : Z) : forall s pos best,
  (~ In c s /\ rfind_from c pos best s = best)
  \/ exists h t, s = h ++ c :: t /\ ~ In c t /\ rfind_from c pos best s = pos + len h.
Proof.
  induction s as [|d t IH]; intros pos best; simpl.
  - left. auto.
  - destruct (IH (pos + 1) (if d =? c then pos else best)) as [(Hn & E)|(h & t' & Et & Hn & E)].
    + destruct (d =? c) eqn:Ed.
      * apply Z.eqb_eq in Ed. subst d. right. exists [], t. simpl.
        split; [reflexivity|]. split; [exact Hn|]. rewrite E. unfold len. simpl. lia.
      * apply Z.eqb_neq in Ed. left. split; [|exact E]. intros [?|?]; congruence.
    + right. exists (d :: h), t'. subst t. split; [reflexivity|]. split; [exact Hn|].
      rewrite E. unfold len. simpl length. lia.
Qed.

Lemma count_chars_none (c : Z) (s : list Z) : ~ In c s -> count_chars (Z.eqb c) s = 0.
Proof.
  intros H. unfold count_chars. rewrite filter_nil_all; [reflexivity|].
  intros d Hd. apply Z.eqb_neq. congruence.
Qed.

(** Extra X24.  For an offset inside the text, [_offset_to_linecol] splits the
    text before the offset into the lines that are complete and the
    rest of the current line: the line number is one more than the
    line feeds before the offset, the column one more than the code
    points since the last of them; offsets at or below zero give line
    1, column 1. *)
Theorem offset_to_linecol_spec (text : list Z) (idx : Z) :
  (idx <= 0 -> _offset_to_linecol text idx = (1, 1))
  /\ (0 < idx <= len text ->
      exists head tail,
        py_slice text 0 idx = head ++ tail
        /\ (head = [] \/ exists h, head = h ++ [10])
        /\ ~ In 10 tail
        /\ _offset_to_linecol text idx
           = (1 + count_chars (Z.eqb 10) head, 1 + len tail)).
Proof.
  split.
  - intros H. unfold _offset_to_linecol.
    replace (idx <=? 0) with true by (symmetry; apply Z.leb_le; lia). reflexivity.
  - intros H. unfold _offset_to_linecol.
    replace (idx <=? 0) with false by (symmetry; apply Z.leb_gt; lia).
    unfold str_count, str_rfind_char. rewrite count_from_char.
    assert (Hlen : len (py_slice text 0 idx) = idx) by (rewrite py_slice_len; lia).
    destruct (rfind_from_spec 10 (py_slice text 0 idx) 0 (-1))
      as [(Hn & E)|(h & t & Et & Hn & E)]; rewrite E.
    + exists [], (py_slice text 0 idx). simpl.
      split; [reflexivity|]. split; [left; reflexivity|]. split; [exact Hn|].
      rewrite (count_chars_none _ _ Hn), Hlen. cbv zeta.
      change (-1 =? -1) with true. cbn [negb]. f_equal. lia.
    + pose proof (len_nonneg h).
      replace (0 + len h =? -1) with false by (symmetry; apply Z.eqb_neq; lia).
      simpl negb. cbv iota.
      exists (h ++ [10]), t. rewrite <- app_assoc. simpl app.
      split; [exact Et|]. split; [right; exists h; reflexivity|]. split; [exact Hn|].
      rewrite Et in Hlen |- *. rewrite len_app in Hlen.
      change (10 :: t) with ([10] ++ t) in Hlen |- *. rewrite len_app in Hlen.
      change (len [10]) with 1 in Hlen.
      rewrite !count_chars_app, (count_chars_none _ _ Hn).
      f_equal; lia.
Qed.

Example offset_to_linecol_examples :
  _offset_to_linecol (u "ab" ++ [10] ++ u "日本語" ++ [10] ++ u "c") 5 = (2, 3)
  /\ _offset_to_linecol (u "ab" ++ [10] ++ u "日本語" ++ [10] ++ u "c") 3 = (2, 1)
  /\ _offset_to_linecol (u "ab" ++ [10] ++ u "日本語" ++ [10] ++ u "c") 2 = (1, 3)
  /\ _offset_to_linecol (u "ab") 0 = (1, 1).
Proof. vm_compute. auto. Qed.

(** ** advanced_rules.py: what [configure_advanced] keeps *)

(** The arguments of one call of [configure_advanced]. *)
Definition configure_call : Type :=
  option Z * option Z * option Z * option (list (list Z)) * option (list (list Z))
  * option Z * option severity.

Definition configure_with (c : adv_config) (a : configure_call) : adv_config :=
  let '(e, l, s, ka, kd, ep, sf) := a in configure_advanced c e l s ka kd ep sf.

Definition thresholds_positive (c : adv_config) : Prop :=
  1 <= EMPH_THRESHOLD c /\ 1 <= LONG_SENTENCE_LIMIT c /\ 1 <= STYLE_MIX_THRESHOLD c.

Lemma configure_with_positive (c : adv_config) (a : configure_call) :
  thresholds_positive c -> thresholds_positive (configure_with c a).
Proof.
  destruct a as [[[[[[e l] s] ka] kd] ep] sf]. unfold thresholds_positive, configure_with,
    configure_advanced. cbn [EMPH_THRESHOLD LONG_SENTENCE_LIMIT STYLE_MIX_THRESHOLD].
  intros (He & Hl & Hs). repeat split.
  - destruct e as [v|]; [destruct (Z.gtb_spec v 0); lia|assumption].
  - destruct l as [v|]; [destruct (Z.gtb_spec v 0); lia|assumption].
  - destruct s as [v|]; [destruct (Z.gtb_spec v 0); lia|assumption].
Qed.

(** Extra X25.  Whatever calls of [configure_advanced] are made, with
    whatever arguments, the three thresholds stay at 1 or above: a
    value that is zero or negative is ignored. *)
Theorem configure_advanced_keeps_thresholds (calls : list configure_call) :
  let c := fold_left configure_with calls default_config in
  1 <= EMPH_THRESHOLD c /\ 1 <= LONG_SENTENCE_LIMIT c /\ 1 <= STYLE_MIX_THRESHOLD c.
Proof.
  cbv zeta. change (thresholds_positive (fold_left configure_with calls default_config)).
  assert (H : forall c, thresholds_positive c ->
                        thresholds_positive (fold_left configure_with calls c)).
  { induction calls as [|a t IH]; intros c Hc; simpl; [exact Hc|].
    apply IH, configure_with_positive, Hc. }
  apply H. unfold thresholds_positive, default_config. simpl. lia.
Qed.

Example configure_advanced_examples :
  let c := fold_left configure_with
             [ (Some 0, Some (-5), None, None, None, None, None);
               (Some 7, None, Some 0, None, None, None, None) ] default_config in
  (EMPH_THRESHOLD c, LONG_SENTENCE_LIMIT c, STYLE_MIX_THRESHOLD c) = (7, 100, 2).
Proof. reflexivity. Qed.
